(** * gokit/config: layered configuration binding

    A shallow embedding of [config/config.go] and [config/flag.go]:
    the reflection walk that registers one command-line flag per leaf
    field ([registerFlags]), the override pass ([applyFlagOverrides]),
    dot-path assignment ([setValueByPath], [findFieldByNameOrTag]) and
    inline environment substitution ([resolveEnvVar]), together with
    the entry point [New].

    Go strings are byte strings ([string]); integers are [Z] with the
    wrap-around of [reflect.Value.SetInt] written out; floating-point
    numbers are carried as their IEEE-754 binary64 bit patterns.  The
    process environment, [os.Args] parsing, the file system and the
    YAML decoder are collaborators outside the package and are passed
    in explicitly as a [World]. *)

From Stdlib Require Import ZArith String Ascii List Bool Lia.
From stdpp Require Import base option list strings gmap.

Local Open Scope string_scope.
Local Open Scope list_scope.
Local Open Scope Z_scope.

Set Default Proof Using "Type".

(** ** Byte strings *)

Module Str.

(** [len(s)] *)
Definition len (s : string) : nat := String.length s.

(** [s[i:]] for [i <= len(s)] *)
Fixpoint drop (i : nat) (s : string) : string :=
  match i, s with
  | O, _ => s
  | S i', String _ s' => drop i' s'
  | S _, EmptyString => EmptyString
  end.

(** [s[:i]] for [i <= len(s)] *)
Fixpoint take (i : nat) (s : string) : string :=
  match i, s with
  | O, _ => EmptyString
  | S i', String c s' => String c (take i' s')
  | S _, EmptyString => EmptyString
  end.

(** [s[i:j]] *)
Definition slice (i j : nat) (s : string) : string :=
  take (j - i) (drop i s).

(** [s[i]] *)
Definition at_ (s : string) (i : nat) : option ascii := String.get i s.

(** the last byte, [s[len(s)-1]] *)
Fixpoint last (s : string) : option ascii :=
  match s with
  | EmptyString => None
  | String c EmptyString => Some c
  | String _ s' => last s'
  end.

(** all but the last byte, [s[:len(s)-1]] *)
Fixpoint init (s : string) : string :=
  match s with
  | EmptyString => EmptyString
  | String _ EmptyString => EmptyString
  | String c s' => String c (init s')
  end.

Definition eqb (a b : string) : bool := String.eqb a b.

Definition is_empty (s : string) : bool :=
  match s with EmptyString => true | _ => false end.

End Str.

(** ** The process environment *)

Abbreviation Environ := (gmap string string).

(** [os.Getenv]: the value of the variable, empty when the variable is
    not present (and for the empty key, which no environment holds). *)
Definition Getenv (env : Environ) (key : string) : string :=
  if Str.is_empty key then "" else default "" (env !! key).

(** ** Inline substitution: [resolveEnvVar] (config.go) *)

Definition resolveEnvVar (env : Environ) (val : string) : string :=
  if Nat.eqb (Str.len val) 0 then val
  else if (Nat.ltb 3 (Str.len val)
           && Str.eqb (Str.slice 0 2 val) "${"
           && match Str.at_ val (Str.len val - 1) with
              | Some c => Ascii.eqb c "}"
              | None => false
              end)%bool
  then
    let envVarName := Str.slice 2 (Str.len val - 1) val in
    let envValue := Getenv env envVarName in
    if negb (Str.is_empty envValue) then envValue else val
  else if match Str.at_ val 0 with
          | Some c => Ascii.eqb c "$"
          | None => false
          end
  then
    let envVarName := Str.drop 1 val in
    let envValue := Getenv env envVarName in
    if negb (Str.is_empty envValue) then envValue else val
  else val.

(** ** Go library functions used by the package *)

(** [strings.Split(s, sep)] for a one-byte separator (the package
    splits on ["."] and [","] only).  The result is never empty:
    [Split("", ".")] is the one-element list holding the empty string. *)
Fixpoint Split (s : string) (sep : ascii) : list string :=
  match s with
  | EmptyString => [EmptyString]
  | String c s' =>
      if Ascii.eqb c sep then EmptyString :: Split s' sep
      else match Split s' sep with
           | p :: ps => String c p :: ps
           | [] => [String c EmptyString]
           end
  end.

(** [strings.SplitN(s, sep, 2)] for a non-empty separator: cut at the
    first occurrence of [sep], or the whole string in one part. *)
Fixpoint SplitN2 (s sep : string) : list string :=
  if String.prefix sep s then [EmptyString; Str.drop (Str.len sep) s]
  else match s with
       | EmptyString => [EmptyString]
       | String c s' =>
           match SplitN2 s' sep with
           | [p] => [String c p]
           | [p; q] => [String c p; q]
           | _ => [s]
           end
       end.

Definition is_digit (c : ascii) : bool :=
  let n := nat_of_ascii c in (Nat.leb 48 n && Nat.leb n 57)%bool.

Fixpoint digits_value (acc : Z) (s : string) : option Z :=
  match s with
  | EmptyString => Some acc
  | String c s' =>
      if is_digit c
      then digits_value (10 * acc + Z.of_nat (nat_of_ascii c - 48)) s'
      else None
  end.

(** [strconv.ParseInt(s, 10, 64)]: an optional sign, then one or more
    decimal digits, within the range of [int64]; [None] is the error. *)
Definition ParseInt (s : string) : option Z :=
  let '(neg, body) :=
    match s with
    | String "-" r => (true, r)
    | String "+" r => (false, r)
    | _ => (false, s)
    end in
  if Str.is_empty body then None
  else match digits_value 0 body with
       | Some n =>
           let x := if neg then - n else n in
           if ((- 2 ^ 63 <=? x) && (x <=? 2 ^ 63 - 1))%bool then Some x else None
       | None => None
       end.

(** [strconv.ParseBool] *)
Definition ParseBool (s : string) : option bool :=
  if (Str.eqb s "1" || Str.eqb s "t" || Str.eqb s "T"
      || Str.eqb s "TRUE" || Str.eqb s "true" || Str.eqb s "True")%bool
  then Some true
  else if (Str.eqb s "0" || Str.eqb s "f" || Str.eqb s "F"
           || Str.eqb s "FALSE" || Str.eqb s "false" || Str.eqb s "False")%bool
  then Some false
  else None.

(** Library functions the embedding does not compute: Unicode-aware
    case folding and trimming, and binary64 arithmetic. *)
Record GoLib := {
  ToLower : string -> string;              (* strings.ToLower *)
  TrimSpace : string -> string;            (* strings.TrimSpace *)
  ParseFloat : string -> option Z;         (* strconv.ParseFloat(s, 64) *)
  float32 : Z -> Z;                        (* float64(float32(x)) *)
}.

(** An instance for ASCII text, used to run the model on examples. *)
Definition ascii_lower (c : ascii) : ascii :=
  let n := nat_of_ascii c in
  if (Nat.leb 65 n && Nat.leb n 90)%bool then ascii_of_nat (n + 32) else c.

Fixpoint ascii_ToLower (s : string) : string :=
  match s with
  | EmptyString => EmptyString
  | String c s' => String (ascii_lower c) (ascii_ToLower s')
  end.

Definition ascii_space (c : ascii) : bool :=
  let n := nat_of_ascii c in
  (Nat.eqb n 32 || (Nat.leb 9 n && Nat.leb n 13))%bool.

Fixpoint trim_left (s : string) : string :=
  match s with
  | String c s' => if ascii_space c then trim_left s' else s
  | EmptyString => EmptyString
  end.

Fixpoint trim_right (s : string) : string :=
  match s with
  | EmptyString => EmptyString
  | String c s' =>
      match trim_right s' with
      | EmptyString => if ascii_space c then EmptyString else String c EmptyString
      | r => String c r
      end
  end.

Definition ascii_TrimSpace (s : string) : string := trim_right (trim_left s).

Definition ascii_lib : GoLib := {|
  ToLower := ascii_ToLower;
  TrimSpace := ascii_TrimSpace;
  ParseFloat := fun s => if Str.eqb s "0" then Some 0 else None;
  float32 := fun x => x;
|}.

(** ** The reflection model *)

(** [reflect.Kind] *)
Module Kind.
Inductive t : Set :=
| Invalid | Bool
| Int | Int8 | Int16 | Int32 | Int64
| Uint | Uint8 | Uint16 | Uint32 | Uint64 | Uintptr
| Float32 | Float64 | Complex64 | Complex128
| Array | Chan | Func | Interface | Map | Pointer | Slice
| String | Struct | UnsafePointer.
End Kind.

(** What [reflect.StructField] says of a field besides its type: the
    structural name, whether it is exported ([PkgPath == ""]), and the
    values of [Tag.Get("yaml")] and [Tag.Get("json")] (empty when the
    tag has no such key). *)
Record StructField := {
  Name : string;
  IsExported : bool;
  Tag_yaml : string;
  Tag_json : string;
}.

(** Go types, as far as the walk tells them apart.  [TBasic k] is any
    type of kind [k] that is neither a pointer nor a struct. *)
#[warnings="-register-all"]
Inductive Ty : Type :=
| TBasic (k : Kind.t)
| TPtr (elem : Ty)
| TStruct (name : string) (fields : list (StructField * Ty)).

Definition Kind_of (t : Ty) : Kind.t :=
  match t with
  | TBasic k => k
  | TPtr _ => Kind.Pointer
  | TStruct _ _ => Kind.Struct
  end.

(** [Type.Name()] *)
Definition Ty_Name (t : Ty) : string :=
  match t with
  | TStruct name _ => name
  | _ => ""
  end.

(** Go values.  A non-nil pointer owns its pointee and carries the
    address it was allocated at; the object graph is a tree, as the
    zero value, [reflect.New] and the decoder build it. *)
#[warnings="-register-all"]
Inductive Value : Type :=
| VString (s : string)
| VInt (n : Z)
| VBool (b : bool)
| VFloat (bits : Z)
| VOpaque (payload : Z)
| VPtr (target : option (nat * Value))
| VStruct (fields : list Value).

(** The zero value of a type, the pointee [reflect.New] creates. *)
Fixpoint zero (t : Ty) : Value :=
  match t with
  | TBasic Kind.String => VString ""
  | TBasic (Kind.Int | Kind.Int8 | Kind.Int16 | Kind.Int32 | Kind.Int64) => VInt 0
  | TBasic Kind.Bool => VBool false
  | TBasic (Kind.Float32 | Kind.Float64) => VFloat 0
  | TBasic _ => VOpaque 0
  | TPtr _ => VPtr None
  | TStruct _ fields => VStruct (map (fun ft => zero (snd ft)) fields)
  end.

(** Values of a type. *)
Fixpoint has_type (t : Ty) (v : Value) {struct t} : bool :=
  match t, v with
  | TBasic Kind.String, VString _ => true
  | TBasic (Kind.Int | Kind.Int8 | Kind.Int16 | Kind.Int32 | Kind.Int64), VInt _ => true
  | TBasic Kind.Bool, VBool _ => true
  | TBasic (Kind.Float32 | Kind.Float64), VFloat _ => true
  | TBasic (Kind.String | Kind.Int | Kind.Int8 | Kind.Int16 | Kind.Int32
            | Kind.Int64 | Kind.Bool | Kind.Float32 | Kind.Float64), _ => false
  | TBasic _, VOpaque _ => true
  | TPtr _, VPtr None => true
  | TPtr elem, VPtr (Some (_, x)) => has_type elem x
  | TStruct _ fields, VStruct vals =>
      (fix all (fs : list (StructField * Ty)) (vs : list Value) : bool :=
         match fs, vs with
         | [], [] => true
         | (_, ft) :: fs', x :: vs' => has_type ft x && all fs' vs'
         | _, _ => false
         end) fields vals
  | _, _ => false
  end.

(** [reflect.Value.SetInt] stores [x] converted to the field's width
    ([int] is 64 bits wide). *)
Definition wrap (bits : Z) (x : Z) : Z :=
  (x + 2 ^ (bits - 1)) mod 2 ^ bits - 2 ^ (bits - 1).

Definition SetInt (k : Kind.t) (x : Z) : Value :=
  match k with
  | Kind.Int8 => VInt (wrap 8 x)
  | Kind.Int16 => VInt (wrap 16 x)
  | Kind.Int32 => VInt (wrap 32 x)
  | _ => VInt x
  end.

(** [reflect.Value.SetFloat] *)
Definition SetFloat (lib : GoLib) (k : Kind.t) (x : Z) : Value :=
  match k with
  | Kind.Float32 => VFloat (float32 lib x)
  | _ => VFloat x
  end.

(** ** The flag set of the command (pflag) *)

Module pflag.

Inductive FlagValue : Type :=
| StringValue (s : string)
| Int64Value (n : Z)
| BoolValue (b : bool)
| Float64Value (bits : Z)
| StringSliceValue (l : list string).

Record Flag := {
  Name : string;
  Usage : string;
  Value : FlagValue;
  Changed : bool;
}.

Definition FlagSet := list Flag.

Fixpoint Lookup (f : FlagSet) (name : string) : option Flag :=
  match f with
  | [] => None
  | fl :: f' => if Str.eqb (Name fl) name then Some fl else Lookup f' name
  end.

(** [FlagSet.Changed(name)] *)
Definition IsChanged (f : FlagSet) (name : string) : bool :=
  match Lookup f name with
  | Some fl => Changed fl
  | None => false
  end.

(** The typed getters; the package drops their error, keeping the
    zero value they return with it. *)
Definition GetString (f : FlagSet) (name : string) : string :=
  match Lookup f name with
  | Some {| Value := StringValue s |} => s
  | _ => ""
  end.

Definition GetInt64 (f : FlagSet) (name : string) : Z :=
  match Lookup f name with
  | Some {| Value := Int64Value n |} => n
  | _ => 0
  end.

Definition GetBool (f : FlagSet) (name : string) : bool :=
  match Lookup f name with
  | Some {| Value := BoolValue b |} => b
  | _ => false
  end.

Definition GetFloat64 (f : FlagSet) (name : string) : Z :=
  match Lookup f name with
  | Some {| Value := Float64Value x |} => x
  | _ => 0
  end.

Definition GetStringSlice (f : FlagSet) (name : string) : list string :=
  match Lookup f name with
  | Some {| Value := StringSliceValue l |} => l
  | _ => []
  end.

Definition names (f : FlagSet) : list string := map Name f.

End pflag.

(** ** Diagnostics written to [os.Stderr] *)

Inductive Diagnostic : Type :=
| WarnInvalidFromEnv (pair : string)
| WarnEnvNotSet (envVarName : string)
| ErrEmptyPath
| ErrCannotNavigate (path segment : string) (k : Kind.t)
| ErrFieldNotFound (segment path tyname : string)
| ErrInvalidField (segment path : string)
| ErrNotStructOrPointer (segment path : string) (k : Kind.t)
| ErrCannotSet (segment path : string)
| ErrConvertInt (value path : string)
| ErrConvertBool (value path : string)
| ErrConvertFloat (value path : string)
| ErrUnsupportedType (path : string) (k : Kind.t).

(** ** Computations: state, panics *)

Inductive PanicReason : Type :=
| FlagRedefined (name : string)   (* pflag: flag redefined *)
| AddrOfUnaddressable             (* reflect.Value.Addr of unaddressable value *)
| SetUnaddressable                (* reflect.Value.Set using unaddressable value *)
| TypeOfZeroValue                 (* reflect.Value.Type on zero Value *)
| NumFieldOfNonStruct             (* reflect: NumField of non-struct type *)
| ObtainedUsingUnexported         (* reflect: value obtained using unexported field *)
| NotAReflectValue.               (* the value is not of the type: no Go state *)

Inductive Result (A : Type) : Type :=
| Ok (a : A)
| Panic (r : PanicReason).
Arguments Ok {A} a.
Arguments Panic {A} r.

(** The command's flag set, the diagnostic stream, and the next address
    [reflect.New] hands out. *)
Record State := {
  flags : pflag.FlagSet;
  stderr : list Diagnostic;
  next : nat;
}.

Definition M (A : Type) : Type := State -> Result (A * State).

#[global] Instance M_ret : MRet M := fun A a s => Ok (a, s).
#[global] Instance M_bind : MBind M := fun A B f m s =>
  match m s with
  | Ok (a, s') => f a s'
  | Panic r => Panic r
  end.

Definition panic {A} (r : PanicReason) : M A := fun _ => Panic r.

Definition get_flags : M pflag.FlagSet := fun s => Ok (flags s, s).

Definition set_flags (f : pflag.FlagSet) : M unit := fun s =>
  Ok (tt, {| flags := f; stderr := stderr s; next := next s |}).

Definition Fprintf (d : Diagnostic) : M unit := fun s =>
  Ok (tt, {| flags := flags s; stderr := stderr s ++ [d]; next := next s |}).

(** [reflect.New(t)]: a pointer to a fresh zero value, as the address
    and the pointee. *)
Definition reflect_New (t : Ty) : M (nat * Value) := fun s =>
  Ok ((next s, zero t),
      {| flags := flags s; stderr := stderr s; next := S (next s) |}).

(** [FlagSet.AddFlag]: panics when the name is taken. *)
Definition AddFlag (name : string) (value : pflag.FlagValue) (usage : string) : M unit :=
  fun s =>
    match pflag.Lookup (flags s) name with
    | Some _ => Panic (FlagRedefined name)
    | None =>
        Ok (tt, {| flags := flags s ++ [ {| pflag.Name := name; pflag.Usage := usage;
                                           pflag.Value := value; pflag.Changed := false |} ];
                   stderr := stderr s; next := next s |})
    end.

(** The first comma-separated part of a tag value, [parts[0]]. *)
Definition parts0 (tag : string) : string := nth 0 (Split tag ",") "".

(** The segment a field contributes to a flag name: the first part of
    its yaml tag when that is not empty, else its structural name. *)
Definition tagName (field : StructField) : string :=
  let yamlTag := Tag_yaml field in
  let name := Name field in
  if negb (Str.is_empty yamlTag)
  then if negb (Str.is_empty (parts0 yamlTag)) then parts0 yamlTag else name
  else name.

Definition joinName (prefix name : string) : string :=
  if negb (Str.is_empty prefix) then prefix +:+ "." +:+ name else name.

(** [Value.FieldByName] on the fields a struct declares: the index of
    the field of that name. *)
Fixpoint FieldByName (fields : list (StructField * Ty)) (name : string) : option nat :=
  match fields with
  | [] => None
  | (field, _) :: rest =>
      if Str.eqb (Name field) name then Some O
      else S <$> FieldByName rest name
  end.

(** The loop over the fields of a struct,
    [for i := 0; i < t.NumField(); i++], with [field := t.Field(i)] and
    [fieldValue := v.Field(i)]; the body leaves the field's new value. *)
Section ForFields.
Context (body : StructField -> Ty -> Value -> M Value).

Fixpoint forFields (fs : list (StructField * Ty)) (vs : list Value) : M (list Value) :=
  match fs, vs with
  | [], [] => mret []
  | (field, ft) :: fs', fieldValue :: vs' =>
      fieldValue' ← body field ft fieldValue;
      rest ← forFields fs' vs';
      mret (fieldValue' :: rest)
  | _, _ => panic NotAReflectValue
  end.
End ForFields.

(** What the package reaches outside the process image: parsing
    [os.Args[1:]] against the registered flags ([cmd.Execute], an error
    or the flag set with the parsed values and their [Changed] marks),
    [os.ReadFile], and [yaml.Unmarshal] into the object (the object as
    the decoder leaves it, and its error if any). *)
Record World := {
  Execute : pflag.FlagSet -> (string + pflag.FlagSet)%type;
  ReadFile : string -> (string + string)%type;
  Unmarshal : string -> Ty * Value -> Value * option string;
}.

(** What [New] hands back: the object behind [configObject] as the call
    leaves it, and the two results ([nil] is [None]). *)
Record NewResult := {
  object : Value;
  result : option Value;
  err : option string;
}.

Section Package.

Context (lib : GoLib) (env : Environ) (w : World).

(** ** [findFieldByNameOrTag] (flag.go) *)

Fixpoint findField (fields : list (StructField * Ty)) (nameLower : string) : string :=
  match fields with
  | [] => ""
  | (field, _) :: rest =>
      if negb (IsExported field) then findField rest nameLower
      else if Str.eqb (ToLower lib (Name field)) nameLower then Name field
      else if (negb (Str.is_empty (Tag_yaml field))
               && Str.eqb (ToLower lib (parts0 (Tag_yaml field))) nameLower)%bool
      then Name field
      else if (negb (Str.is_empty (Tag_json field))
               && Str.eqb (ToLower lib (parts0 (Tag_json field))) nameLower)%bool
      then Name field
      else findField rest nameLower
  end.

Definition findFieldByNameOrTag (t : Ty) (name : string) : M string :=
  let nameLower := ToLower lib name in
  match t with
  | TStruct _ fields => mret (findField fields nameLower)
  | _ => panic NumFieldOfNonStruct
  end.

(** ** [registerFlags] (config.go) *)

(** The body of the loop over the fields, for the field [field] of
    type [ft] holding [fieldValue]; [rec] is [registerFlags] on what
    a pointer refers to. *)
Definition registerFlags_field (rec : Ty -> Value -> bool -> string -> M Value)
    (canAddr : bool) (prefix : string)
    (field : StructField) (ft : Ty) (fieldValue : Value) : M Value :=
  if negb (IsExported field) then mret fieldValue
  else
    let flagName := joinName prefix (tagName field) in
    match ft, fieldValue with
    | TPtr elem, VPtr target =>
        target ← match target with
                 | None =>
                     if canAddr
                     then p ← reflect_New elem; mret (Some p)
                     else mret None
                 | Some _ => mret target
                 end;
        match target with
        | Some (a, x) =>
            x' ← rec elem x true flagName;
            mret (VPtr (Some (a, x')))
        | None => mret (VPtr None)
        end
    | TStruct _ _, VStruct _ =>
        if canAddr then rec ft fieldValue true flagName
        else panic AddrOfUnaddressable
    | TBasic Kind.String, VString value =>
        AddFlag flagName (pflag.StringValue value) ("Set " +:+ flagName);;
        mret fieldValue
    | TBasic (Kind.Int | Kind.Int8 | Kind.Int16 | Kind.Int32 | Kind.Int64), VInt value =>
        AddFlag flagName (pflag.Int64Value value) ("Set " +:+ flagName);;
        mret fieldValue
    | TBasic Kind.Bool, VBool value =>
        AddFlag flagName (pflag.BoolValue value) ("Set " +:+ flagName);;
        mret fieldValue
    | TBasic (Kind.Float32 | Kind.Float64), VFloat value =>
        AddFlag flagName (pflag.Float64Value value) ("Set " +:+ flagName);;
        mret fieldValue
    | TBasic _, VOpaque _ => mret fieldValue
    | _, _ => panic NotAReflectValue
    end.

(** The function from [t := v.Type()] on: [v] is the value the
    argument points to, addressable when it was reached through a
    pointer. *)
Fixpoint registerFlags_elem (t : Ty) (v : Value) (canAddr : bool) (prefix : string)
  {struct t} : M Value :=
  match t, v with
  | TStruct _ fields, VStruct vals =>
      vals' ← forFields (registerFlags_field registerFlags_elem canAddr prefix)
                fields vals;
      mret (VStruct vals')
  | TStruct _ _, _ => panic NotAReflectValue
  | _, _ => mret v
  end.

(** [reflect.ValueOf(config)], then [v.Elem()] for a pointer. *)
Definition registerFlags (config : Ty * Value) (prefix : string) : M Value :=
  match config with
  | (TPtr elem, VPtr (Some (a, x))) =>
      x' ← registerFlags_elem elem x true prefix;
      mret (VPtr (Some (a, x')))
  | (TPtr _, VPtr None) => panic TypeOfZeroValue
  | (TPtr _, _) => panic NotAReflectValue
  | (t, v) => registerFlags_elem t v false prefix
  end.

(** ** [setValueByPath] (flag.go) *)

(** [segments[:len(segments)-1]] and [segments[len(segments)-1]] *)
Fixpoint splitLast (segments : list string) : option (list string * string) :=
  match segments with
  | [] => None
  | [lastSegment] => Some ([], lastSegment)
  | segment :: rest =>
      match splitLast rest with
      | Some (front, lastSegment) => Some (segment :: front, lastSegment)
      | None => None
      end
  end.

(** The assignment to the field the last segment names, on the
    parent struct [v] of type [t]. *)
Definition setTarget (lastSegment path value : string)
    (t : Ty) (v : Value) (canAddr : bool) : M Value :=
  fieldName ← findFieldByNameOrTag t lastSegment;
  if Str.is_empty fieldName
  then Fprintf (ErrFieldNotFound lastSegment path (Ty_Name t));; mret v
  else
    match t, v with
    | TStruct _ fields, VStruct vals =>
        match FieldByName fields fieldName with
        | None => Fprintf (ErrInvalidField lastSegment path);; mret v
        | Some i =>
            match fields !! i, vals !! i with
            | Some (field, ft), Some _ =>
                if negb (canAddr && IsExported field)
                then Fprintf (ErrCannotSet lastSegment path);; mret v
                else
                  match ft with
                  | TBasic Kind.String =>
                      mret (VStruct (<[i := VString value]> vals))
                  | TBasic ((Kind.Int | Kind.Int8 | Kind.Int16 | Kind.Int32
                             | Kind.Int64) as k) =>
                      match ParseInt value with
                      | None => Fprintf (ErrConvertInt value path);; mret v
                      | Some intVal => mret (VStruct (<[i := SetInt k intVal]> vals))
                      end
                  | TBasic Kind.Bool =>
                      match ParseBool value with
                      | None => Fprintf (ErrConvertBool value path);; mret v
                      | Some boolVal => mret (VStruct (<[i := VBool boolVal]> vals))
                      end
                  | TBasic ((Kind.Float32 | Kind.Float64) as k) =>
                      match ParseFloat lib value with
                      | None => Fprintf (ErrConvertFloat value path);; mret v
                      | Some floatVal =>
                          mret (VStruct (<[i := SetFloat lib k floatVal]> vals))
                      end
                  | _ => Fprintf (ErrUnsupportedType path (Kind_of ft));; mret v
                  end
            | _, _ => panic NotAReflectValue
            end
        end
    | _, _ => panic NotAReflectValue
    end.

(** The navigation loop over all segments but the last, then the
    assignment.  [v] of type [t] is what [current] points to. *)
Fixpoint setValueByPath_elem (segments : list string) (lastSegment path value : string)
    (t : Ty) (v : Value) (canAddr : bool) {struct segments} : M Value :=
  match segments with
  | [] => setTarget lastSegment path value t v canAddr
  | segment :: segments' =>
      match t, v with
      | TStruct tname fields, VStruct vals =>
          let fieldName := findField fields (ToLower lib segment) in
          if Str.is_empty fieldName
          then Fprintf (ErrFieldNotFound segment path tname);; mret v
          else
            match FieldByName fields fieldName with
            | None => Fprintf (ErrInvalidField segment path);; mret v
            | Some i =>
                match fields !! i, vals !! i with
                | Some (field, ft), Some fieldValue =>
                    match ft, fieldValue with
                    | TPtr elem, VPtr target =>
                        if negb (IsExported field) then panic ObtainedUsingUnexported
                        else
                          p ← match target with
                              | None =>
                                  if canAddr then reflect_New elem
                                  else panic SetUnaddressable
                              | Some p => mret p
                              end;
                          x' ← setValueByPath_elem segments' lastSegment path value
                                 elem (snd p) true;
                          mret (VStruct (<[i := VPtr (Some (fst p, x'))]> vals))
                    | TPtr _, _ => panic NotAReflectValue
                    | TStruct _ _, _ =>
                        if negb canAddr then panic AddrOfUnaddressable
                        else if negb (IsExported field) then panic ObtainedUsingUnexported
                        else
                          x' ← setValueByPath_elem segments' lastSegment path value
                                 ft fieldValue true;
                          mret (VStruct (<[i := x']> vals))
                    | _, _ =>
                        Fprintf (ErrNotStructOrPointer segment path (Kind_of ft));;
                        mret v
                    end
                | _, _ => panic NotAReflectValue
                end
            end
      | TStruct _ _, _ => panic NotAReflectValue
      | _, _ => Fprintf (ErrCannotNavigate path segment (Kind_of t));; mret v
      end
  end.

(** [setValueByPath] from [current := config] on, for the value [v]
    that [config] points to. *)
Definition setValueByPath_from (t : Ty) (v : Value) (canAddr : bool)
    (path value : string) : M Value :=
  let segments := Split path "." in
  match splitLast segments with
  | None => Fprintf ErrEmptyPath;; mret v
  | Some (front, lastSegment) =>
      setValueByPath_elem front lastSegment path value t v canAddr
  end.

Definition setValueByPath (config : Ty * Value) (path value : string) : M Value :=
  match config with
  | (TPtr elem, VPtr (Some (a, x))) =>
      x' ← setValueByPath_from elem x true path value;
      mret (VPtr (Some (a, x')))
  | (TPtr _, VPtr None) =>
      (* [v.Elem()] is the zero Value, of kind Invalid *)
      match splitLast (Split path ".") with
      | None => Fprintf ErrEmptyPath;; mret (snd config)
      | Some ([], _) => panic TypeOfZeroValue
      | Some (segment :: _, _) =>
          Fprintf (ErrCannotNavigate path segment Kind.Invalid);; mret (snd config)
      end
  | (TPtr _, _) => panic NotAReflectValue
  | (t, v) => setValueByPath_from t v false path value
  end.

(** ** [applyFlagOverrides] (flag.go) *)

(** One turn of the loop over the [--from-env] entries. *)
Definition fromEnvPair (t : Ty) (v : Value) (canAddr : bool) (pair : string) : M Value :=
  let parts := SplitN2 pair "::" in
  if negb (Nat.eqb (length parts) 2)
  then Fprintf (WarnInvalidFromEnv pair);; mret v
  else
    let configPath := TrimSpace lib (nth 0 parts "") in
    let envVarName := TrimSpace lib (nth 1 parts "") in
    let envValue := Getenv env envVarName in
    if Str.is_empty envValue
    then Fprintf (WarnEnvNotSet envVarName);; mret v
    else setValueByPath_from t v canAddr configPath envValue.

Fixpoint fromEnvPairs (t : Ty) (v : Value) (canAddr : bool) (fromEnvPairs_ : list string)
  : M Value :=
  match fromEnvPairs_ with
  | [] => mret v
  | pair_ :: rest =>
      v' ← fromEnvPair t v canAddr pair_;
      fromEnvPairs t v' canAddr rest
  end.

(** The body of the loop over the fields; [rec] is
    [applyFlagOverrides] on what a pointer refers to. *)
Definition applyFlagOverrides_field (rec : Ty -> Value -> bool -> string -> M Value)
    (canAddr : bool) (prefix : string)
    (field : StructField) (ft : Ty) (fieldValue : Value) : M Value :=
  if negb (IsExported field) then mret fieldValue
  else
    let flagName := joinName prefix (tagName field) in
    match ft, fieldValue with
    | TPtr elem, VPtr target =>
        match target with
        | Some (a, x) =>
            x' ← rec elem x true flagName;
            mret (VPtr (Some (a, x')))
        | None => mret fieldValue
        end
    | TStruct _ _, VStruct _ =>
        if canAddr then rec ft fieldValue true flagName
        else panic AddrOfUnaddressable
    | TBasic Kind.String, VString _ =>
        cmd ← get_flags;
        if pflag.IsChanged cmd flagName then
          let val := pflag.GetString cmd flagName in
          let resolvedVal := resolveEnvVar env val in
          if canAddr then mret (VString resolvedVal)
          else panic SetUnaddressable
        else mret fieldValue
    | TBasic ((Kind.Int | Kind.Int8 | Kind.Int16 | Kind.Int32 | Kind.Int64) as k),
      VInt _ =>
        cmd ← get_flags;
        if pflag.IsChanged cmd flagName then
          let val := pflag.GetInt64 cmd flagName in
          if canAddr then mret (SetInt k val)
          else panic SetUnaddressable
        else mret fieldValue
    | TBasic Kind.Bool, VBool _ =>
        cmd ← get_flags;
        if pflag.IsChanged cmd flagName then
          let val := pflag.GetBool cmd flagName in
          if canAddr then mret (VBool val)
          else panic SetUnaddressable
        else mret fieldValue
    | TBasic ((Kind.Float32 | Kind.Float64) as k), VFloat _ =>
        cmd ← get_flags;
        if pflag.IsChanged cmd flagName then
          let val := pflag.GetFloat64 cmd flagName in
          if canAddr then mret (SetFloat lib k val)
          else panic SetUnaddressable
        else mret fieldValue
    | TBasic _, VOpaque _ => mret fieldValue
    | _, _ => panic NotAReflectValue
    end.

(** [applyFlagOverrides] for the value [v] that [config] points to:
    the [--from-env] entries first, for an empty prefix only, then
    the loop over the fields. *)
Fixpoint applyFlagOverrides_elem (t : Ty) (v : Value) (canAddr : bool) (prefix : string)
  {struct t} : M Value :=
  cmd ← get_flags;
  v ← (if (Str.is_empty prefix && pflag.IsChanged cmd "from-env")%bool
       then fromEnvPairs t v canAddr (pflag.GetStringSlice cmd "from-env")
       else mret v);
  match t, v with
  | TStruct _ fields, VStruct vals =>
      vals' ← forFields (applyFlagOverrides_field applyFlagOverrides_elem canAddr prefix)
                fields vals;
      mret (VStruct vals')
  | TStruct _ _, _ => panic NotAReflectValue
  | _, _ => mret v
  end.

Definition applyFlagOverrides (config : Ty * Value) (prefix : string) : M Value :=
  match config with
  | (TPtr elem, VPtr (Some (a, x))) =>
      x' ← applyFlagOverrides_elem elem x true prefix;
      mret (VPtr (Some (a, x')))
  | (TPtr _, VPtr None) => panic TypeOfZeroValue
  | (TPtr _, _) => panic NotAReflectValue
  | (t, v) => applyFlagOverrides_elem t v false prefix
  end.

(** ** [New] (config.go) *)

Definition New (configObject : Ty * Value) : M NewResult :=
  let t := fst configObject in
  set_flags [];;
  AddFlag "config" (pflag.StringValue "") "Path to config file";;
  AddFlag "from-env" (pflag.StringSliceValue [])
    "Set config values from environment variables in format 'config.path::ENV_VAR_NAME'";;
  obj ← registerFlags configObject "";
  cmd ← get_flags;
  match Execute w cmd with
  | inl e => mret {| object := obj; result := None; err := Some e |}
  | inr cmd' =>
      set_flags cmd';;
      let configFile := pflag.GetString cmd' "config" in
      if negb (Str.is_empty configFile) then
        match ReadFile w configFile with
        | inl e =>
            mret {| object := obj; result := None;
                    err := Some ("failed to read config file: " +:+ e) |}
        | inr data =>
            match Unmarshal w data (t, obj) with
            | (obj, Some e) =>
                mret {| object := obj; result := None;
                        err := Some ("failed to unmarshal config file: " +:+ e) |}
            | (obj, None) =>
                obj ← applyFlagOverrides (t, obj) "";
                mret {| object := obj; result := Some obj; err := None |}
            end
        end
      else
        obj ← applyFlagOverrides (t, obj) "";
        mret {| object := obj; result := Some obj; err := None |}
  end.

End Package.

(** ** Notions the properties are stated with *)

(** *** Inline substitution, as the specification words it *)

Definition lookupOrKeep (env : Environ) (name original : string) : string :=
  match env !! name with
  | Some value => if Str.is_empty name || Str.is_empty value then original else value
  | None => original
  end.

Definition resolveEnvVar_spec (env : Environ) (s : string) : string :=
  if (Nat.leb 4 (Str.len s) && String.prefix "${" s
      && bool_decide (Str.last s = Some "}"%char))%bool
  then lookupOrKeep env (Str.init (Str.drop 2 s)) s
  else if String.prefix "$" s
  then lookupOrKeep env (Str.drop 1 s) s
  else s.

(** *** Segment matching *)


(** *** Leaves and their flags *)

(** The kinds that get a flag and can be assigned by path. *)
Definition supported (k : Kind.t) : bool :=
  match k with
  | Kind.String | Kind.Bool | Kind.Float32 | Kind.Float64
  | Kind.Int | Kind.Int8 | Kind.Int16 | Kind.Int32 | Kind.Int64 => true
  | _ => false
  end.

(** The leaf at a position: the indices of the fields from the root
    struct down, through nested structs and non-nil pointers to them. *)
Fixpoint getLeaf (t : Ty) (v : Value) (pos : list nat) {struct pos}
  : option (Kind.t * Value) :=
  match pos, t, v with
  | i :: pos', TStruct _ fields, VStruct vals =>
      match fields !! i, vals !! i with
      | Some (_, ft), Some fv =>
          match ft, fv, pos' with
          | TBasic k, _, [] => if supported k then Some (k, fv) else None
          | TPtr elem, VPtr (Some (_, x)), _ :: _ => getLeaf elem x pos'
          | TStruct _ _, _, _ :: _ => getLeaf ft fv pos'
          | _, _, _ => None
          end
      | _, _ => None
      end
  | _, _, _ => None
  end.

(** The flag of the leaf at a position, as its name and the kind of the
    leaf: the name is the dot-joined names of the fields on the way, all
    of them exported. *)
Fixpoint flagAt (t : Ty) (pos : list nat) (prefix : string) {struct pos}
  : option (string * Kind.t) :=
  match pos, t with
  | i :: pos', TStruct _ fields =>
      match fields !! i with
      | Some (field, ft) =>
          if IsExported field then
            let flagName := joinName prefix (tagName field) in
            match ft, pos' with
            | TBasic k, [] => if supported k then Some (flagName, k) else None
            | TPtr elem, _ :: _ => flagAt elem pos' flagName
            | TStruct _ _, _ :: _ => flagAt ft pos' flagName
            | _, _ => None
            end
          else None
      | None => None
      end
  | _, _ => None
  end.

Definition flagNameAt (t : Ty) (pos : list nat) (prefix : string) : option string :=
  fst <$> flagAt t pos prefix.

(** The flag a leaf of kind [k] holding [x] is registered with. *)
Definition leafFlag (flagName : string) (k : Kind.t) (x : Value) : list pflag.Flag :=
  let mk value := [ {| pflag.Name := flagName; pflag.Usage := "Set " +:+ flagName;
                       pflag.Value := value; pflag.Changed := false |} ] in
  match k, x with
  | Kind.String, VString s => mk (pflag.StringValue s)
  | (Kind.Int | Kind.Int8 | Kind.Int16 | Kind.Int32 | Kind.Int64), VInt n =>
      mk (pflag.Int64Value n)
  | Kind.Bool, VBool b => mk (pflag.BoolValue b)
  | (Kind.Float32 | Kind.Float64), VFloat f => mk (pflag.Float64Value f)
  | _, _ => []
  end.

Section LeafFlags.
Context (rec : Ty -> Value -> string -> list pflag.Flag).

Definition leafFlags_field (prefix : string)
    (field : StructField) (ft : Ty) (fv : Value) : list pflag.Flag :=
  if IsExported field then
    let flagName := joinName prefix (tagName field) in
    match ft, fv with
    | TBasic k, _ => leafFlag flagName k fv
    | TPtr elem, VPtr (Some (_, x)) => rec elem x flagName
    | TPtr elem, _ => rec elem (zero elem) flagName
    | TStruct _ _, _ => rec ft fv flagName
    end
  else [].

Fixpoint leafFlags_fields (prefix : string)
    (fs : list (StructField * Ty)) (vs : list Value) : list pflag.Flag :=
  match fs, vs with
  | (field, ft) :: fs', fv :: vs' =>
      leafFlags_field prefix field ft fv ++ leafFlags_fields prefix fs' vs'
  | _, _ => []
  end.
End LeafFlags.

(** One flag for every exported leaf of a supported kind, in the order
    of the fields, an absent optional struct counting as an empty one. *)
Fixpoint leafFlags (t : Ty) (v : Value) (prefix : string) {struct t} : list pflag.Flag :=
  match t, v with
  | TStruct _ fields, VStruct vals => leafFlags_fields leafFlags prefix fields vals
  | _, _ => []
  end.

(** The value the flag-override walk stores in a leaf of kind [k] whose
    flag [flagName] was set. *)
Definition flagValue (lib : GoLib) (env : Environ) (cmd : pflag.FlagSet)
    (k : Kind.t) (flagName : string) : Value :=
  match k with
  | Kind.String => VString (resolveEnvVar env (pflag.GetString cmd flagName))
  | Kind.Bool => VBool (pflag.GetBool cmd flagName)
  | Kind.Float32 | Kind.Float64 => SetFloat lib k (pflag.GetFloat64 cmd flagName)
  | _ => SetInt k (pflag.GetInt64 cmd flagName)
  end.

(** The value a [--from-env] mapping stores in a leaf of kind [k]. *)
Definition convert (lib : GoLib) (k : Kind.t) (value : string) : option Value :=
  match k with
  | Kind.String => Some (VString value)
  | Kind.Bool => VBool <$> ParseBool value
  | Kind.Float32 | Kind.Float64 => SetFloat lib k <$> ParseFloat lib value
  | Kind.Int | Kind.Int8 | Kind.Int16 | Kind.Int32 | Kind.Int64 =>
      SetInt k <$> ParseInt value
  | _ => None
  end.

(** The leaf a dot-path names in a type, by the segments before the
    last and the last one. *)
Fixpoint pathTarget (lib : GoLib) (t : Ty) (front : list string) (lastSegment : string)
  {struct front} : option (list nat * Kind.t) :=
  match t with
  | TStruct _ fields =>
      match front with
      | [] =>
          let fieldName := findField lib fields (ToLower lib lastSegment) in
          if Str.is_empty fieldName then None
          else
            i ← FieldByName fields fieldName;
            ft ← fields !! i;
            match ft with
            | (field, TBasic k) =>
                if (IsExported field && supported k)%bool then Some ([i], k) else None
            | _ => None
            end
      | segment :: front' =>
          let fieldName := findField lib fields (ToLower lib segment) in
          if Str.is_empty fieldName then None
          else
            i ← FieldByName fields fieldName;
            ft ← fields !! i;
            match ft with
            | (_, TPtr elem) =>
                r ← pathTarget lib elem front' lastSegment; Some (i :: fst r, snd r)
            | (_, (TStruct _ _ as st)) =>
                r ← pathTarget lib st front' lastSegment; Some (i :: fst r, snd r)
            | _ => None
            end
      end
  | _ => None
  end.

(** What assigning the string [value] by path assigns: the position of
    the leaf and the value it gets, or nothing. *)
Definition assignment (lib : GoLib) (t : Ty) (front : list string)
    (lastSegment value : string) : option (list nat * Value) :=
  r ← pathTarget lib t front lastSegment;
  x ← convert lib (snd r) value;
  Some (fst r, x).

(** What one [--from-env] entry assigns, or nothing when the entry is
    skipped. *)
Definition pairAssigns (lib : GoLib) (env : Environ) (t : Ty) (pair_ : string)
  : option (list nat * Value) :=
  let parts := SplitN2 pair_ "::" in
  if Nat.eqb (length parts) 2 then
    let configPath := TrimSpace lib (nth 0 parts "") in
    let envVarName := TrimSpace lib (nth 1 parts "") in
    let envValue := Getenv env envVarName in
    if Str.is_empty envValue then None
    else
      segs ← splitLast (Split configPath ".");
      assignment lib t (fst segs) (snd segs) envValue
  else None.

(** The value of a leaf at [pos] that held [y], after an assignment. *)
Definition assignedAt (a : option (list nat * Value)) (pos : list nat) (y : Value) : Value :=
  match a with
  | Some (pos', x) => if bool_decide (pos' = pos) then x else y
  | None => y
  end.

(** The value the entries assign to the leaf at [pos], the last one
    winning, over the value [x0] the leaf held. *)
Fixpoint envAssigned (lib : GoLib) (env : Environ) (t : Ty) (pairs : list string)
    (pos : list nat) (x0 : Value) : Value :=
  match pairs with
  | [] => x0
  | pair_ :: rest =>
      envAssigned lib env t rest pos (assignedAt (pairAssigns lib env t pair_) pos x0)
  end.

(** The [--from-env] entries of a parsed flag set. *)
Definition fromEnvOf (cmd : pflag.FlagSet) : list string :=
  if pflag.IsChanged cmd "from-env" then pflag.GetStringSlice cmd "from-env" else [].

(** The value of the leaf at [pos] that held [y], after the walk that
    applies the flags that were set. *)
Definition flagAssigned (lib : GoLib) (env : Environ) (cmd : pflag.FlagSet)
    (t : Ty) (prefix : string) (pos : list nat) (y : Value) : Value :=
  match flagAt t pos prefix with
  | Some (flagName, k) =>
      if pflag.IsChanged cmd flagName then flagValue lib env cmd k flagName else y
  | None => y
  end.

(** The value of the leaf at [pos] that held [y], after
    [applyFlagOverrides]: the [--from-env] entries, for an empty prefix,
    then the flags. *)
Definition overrideAt (lib : GoLib) (env : Environ) (cmd : pflag.FlagSet)
    (t : Ty) (prefix : string) (pos : list nat) (y : Value) : Value :=
  flagAssigned lib env cmd t prefix pos
    (if Str.is_empty prefix then envAssigned lib env t (fromEnvOf cmd) pos y else y).

(** Field names are not empty. *)
Fixpoint named (t : Ty) : bool :=
  match t with
  | TBasic _ => true
  | TPtr elem => named elem
  | TStruct _ fields =>
      forallb (fun ft => negb (Str.is_empty (Name (fst ft))) && named (snd ft)) fields
  end.

(** *** How an object may change *)

(** [evolves t v v']: [v'] is [v] up to the changes a phase can make to
    an object of type [t].  A leaf may hold a new value; a nil pointer
    may stay nil or point to a new object that evolved from the zero
    value; a non-nil pointer keeps its address, its pointee evolving;
    an unexported field keeps its value. *)
Inductive evolves : Ty -> Value -> Value -> Prop :=
| ev_same t v : evolves t v v
| ev_leaf k v v' : evolves (TBasic k) v v'
| ev_alloc elem a x' :
    evolves elem (zero elem) x' ->
    evolves (TPtr elem) (VPtr None) (VPtr (Some (a, x')))
| ev_ptr elem a x x' :
    evolves elem x x' ->
    evolves (TPtr elem) (VPtr (Some (a, x))) (VPtr (Some (a, x')))
| ev_struct name fields vals vals' :
    evolves_fields fields vals vals' ->
    evolves (TStruct name fields) (VStruct vals) (VStruct vals')
with evolves_fields : list (StructField * Ty) -> list Value -> list Value -> Prop :=
| evf_nil : evolves_fields [] [] []
| evf_exported field ft fs v v' vs vs' :
    IsExported field = true ->
    evolves ft v v' ->
    evolves_fields fs vs vs' ->
    evolves_fields ((field, ft) :: fs) (v :: vs) (v' :: vs')
| evf_unexported field ft fs v vs vs' :
    IsExported field = false ->
    evolves_fields fs vs vs' ->
    evolves_fields ((field, ft) :: fs) (v :: vs) (v :: vs').

(** The field at a position, as its description and its value: the
    indices of the fields from the object down, a non-nil pointer
    standing for what it points to. *)
Definition indirect (tv : Ty * Value) : Ty * Value :=
  match tv with
  | (TPtr elem, VPtr (Some (_, x))) => (elem, x)
  | _ => tv
  end.

Fixpoint fieldAt (t : Ty) (v : Value) (pos : list nat) {struct pos}
  : option (StructField * Value) :=
  match pos with
  | [] => None
  | i :: pos' =>
      match indirect (t, v) with
      | (TStruct _ fields, VStruct vals) =>
          match fields !! i, vals !! i with
          | Some (field, ft), Some x =>
              match pos' with
              | [] => Some (field, x)
              | _ :: _ => fieldAt ft x pos'
              end
          | _, _ => None
          end
      | _ => None
      end
  end.

(** The number of non-nil pointers in a value. *)
Fixpoint live_ptrs (v : Value) : nat :=
  match v with
  | VPtr (Some (_, x)) => S (live_ptrs x)
  | VStruct vals => list_sum (map live_ptrs vals)
  | _ => O
  end.

(** No exported pointer field within reach is nil. *)
Fixpoint all_allocated (t : Ty) (v : Value) {struct t} : bool :=
  match t, v with
  | TStruct _ fields, VStruct vals =>
      (fix all (fs : list (StructField * Ty)) (vs : list Value) : bool :=
         match fs, vs with
         | (field, ft) :: fs', fv :: vs' =>
             (if IsExported field then
                match ft, fv with
                | TPtr elem, VPtr (Some (_, x)) => all_allocated elem x
                | TPtr _, _ => false
                | TStruct _ _, _ => all_allocated ft fv
                | _, _ => true
                end
              else true) && all fs' vs'
         | _, _ => true
         end) fields vals
  | _, _ => true
  end.

(** Every pointer field that the navigation of the segments passes is
    non-nil. *)
Fixpoint allocatedAlong (lib : GoLib) (t : Ty) (v : Value) (segments : list string)
  {struct segments} : bool :=
  match segments, t, v with
  | segment :: rest, TStruct _ fields, VStruct vals =>
      let fieldName := findField lib fields (ToLower lib segment) in
      if Str.is_empty fieldName then true
      else
        match FieldByName fields fieldName with
        | Some i =>
            match fields !! i, vals !! i with
            | Some (_, TPtr elem), Some (VPtr (Some (_, x))) =>
                allocatedAlong lib elem x rest
            | Some (_, TPtr _), _ => false
            | Some (_, (TStruct _ _ as st)), Some x => allocatedAlong lib st x rest
            | _, _ => true
            end
        | None => true
        end
  | _, _, _ => true
  end.

(** ** What the phases do

    The records and predicates the theorems about the three phases are
    stated with. *)

Local Close Scope Z_scope.

(** The state after [fmt.Fprintf(os.Stderr, ...)] of one diagnostic. *)
Definition log (d : Diagnostic) (s : State) : State :=
  {| flags := flags s; stderr := stderr s ++ [d]; next := next s |}.

(** The flag [registerFlags] adds for a leaf. *)
Definition flag (name : string) (value : pflag.FlagValue) : pflag.Flag :=
  {| pflag.Name := name; pflag.Usage := "Set " +:+ name;
     pflag.Value := value; pflag.Changed := false |}.

(** What a run of [registerFlags] on [v] that returned [v'] did. *)
Record registered (t : Ty) (v : Value) (canAddr : bool) (prefix : string)
    (s : State) (v' : Value) (s' : State) : Prop := {
  reg_evolves : evolves t v v';
  reg_stderr : stderr s' = stderr s;
  reg_next : (next s <= next s')%nat;
  reg_live : live_ptrs v' = (live_ptrs v + (next s' - next s))%nat;
  reg_flags : canAddr = true -> flags s' = flags s ++ leafFlags t v prefix;
  reg_alloc : canAddr = true -> all_allocated t v' = true;
  reg_type : has_type t v = true -> has_type t v' = true;
  reg_nodup : NoDup (pflag.names (flags s)) -> NoDup (pflag.names (flags s'));
  reg_leaf : forall pos k y, getLeaf t v pos = Some (k, y) -> getLeaf t v' pos = Some (k, y);
  reg_same : forall p, leafFlags t v' p = leafFlags t v p;
}.

(** The two statements about [registerFlags] that are shown by
    induction on the type: what a run that returned did, and that a
    run returns when no flag name is taken twice. *)
Definition registerFlags_elem_ok (t : Ty) : Prop :=
  forall v canAddr prefix s v' s',
    registerFlags_elem t v canAddr prefix s = Ok (v', s') ->
    registered t v canAddr prefix s v' s'.

Definition registerFlags_elem_returns (t : Ty) : Prop :=
  forall v prefix s,
    has_type t v = true ->
    NoDup (pflag.names (flags s) ++ pflag.names (leafFlags t v prefix)) ->
    exists v' s', registerFlags_elem t v true prefix s = Ok (v', s').

(** What a run of a phase on [v] that returned [v'] did; provided
    [ok], [f] gives the new value of the leaf at a position from the
    old one. *)
Record changed (ok : Prop) (f : list nat -> Value -> Value)
    (t : Ty) (v : Value) (s : State) (v' : Value) (s' : State) : Prop := {
  as_evolves : evolves t v v';
  as_flags : flags s' = flags s;
  as_stderr : exists l, stderr s' = stderr s ++ l;
  as_next : (next s <= next s')%nat;
  as_live : live_ptrs v' = (live_ptrs v + (next s' - next s))%nat;
  as_type : has_type t v' = true;
  as_leaf : ok ->
            forall pos k y,
              getLeaf t v pos = Some (k, y) ->
              getLeaf t v' pos = Some (k, f pos y);
}.

(** [changed] for an assignment by path: [a] is the position it
    assigns and the value it stores there, if any. *)
Abbreviation assigned a t v canAddr s v' s' :=
  (changed (canAddr = true) (assignedAt a) t v s v' s').

(** Induction on [evolves] and [evolves_fields] together. *)
Scheme evolves_mut := Minimality for evolves Sort Prop
  with evolves_fields_mut := Minimality for evolves_fields Sort Prop.

(** What a run of the override walk on a value of type [t] did. *)
Definition walked (lib : GoLib) (env : Environ) (t : Ty) : Prop :=
  forall v canAddr prefix s v' s',
    has_type t v = true ->
    applyFlagOverrides_elem lib env t v canAddr prefix s = Ok (v', s') ->
    changed (canAddr = true /\ named t = true)
      (overrideAt lib env (flags s) t prefix) t v s v' s'.

(** What the loop body did to the field at the head of a struct. *)
Definition field_walked (lib : GoLib) (env : Environ)
    (canAddr : bool) (prefix : string) (field : StructField) (ft : Ty) (x : Value) (s : State) (x' : Value) (s1 : State)
  : Prop :=
  evolves ft x x'
  /\ (IsExported field = false -> x' = x)
  /\ flags s1 = flags s
  /\ (exists l, stderr s1 = stderr s ++ l)
  /\ (next s <= next s1)%nat
  /\ live_ptrs x' = (live_ptrs x + (next s1 - next s))%nat
  /\ has_type ft x' = true
  /\ (canAddr = true -> Name field <> "" -> named ft = true ->
      forall name fs vs vs' pos k y,
        getLeaf (TStruct name ((field, ft) :: fs)) (VStruct (x :: vs)) (O :: pos)
        = Some (k, y) ->
        getLeaf (TStruct name ((field, ft) :: fs)) (VStruct (x' :: vs')) (O :: pos)
        = Some (k, flagAssigned lib env (flags s)
                     (TStruct name ((field, ft) :: fs)) prefix (O :: pos) y)).

(** No flag of a leaf of [t] was set on the command line. *)
Definition quiet (cmd : pflag.FlagSet) (t : Ty) (prefix : string) : Prop :=
  forall pos n k, flagAt t pos prefix = Some (n, k) -> pflag.IsChanged cmd n = false.

(** The [--from-env] phase at the head of [applyFlagOverrides]. *)
Definition fromEnvPhase (lib : GoLib) (env : Environ)
    (t : Ty) (v : Value) (canAddr : bool) (prefix : string) : M Value :=
  fun s =>
    (if (Str.is_empty prefix && pflag.IsChanged (flags s) "from-env")%bool
     then fromEnvPairs lib env t v canAddr (pflag.GetStringSlice (flags s) "from-env")
     else mret v) s.

(** With no flag of a leaf set, the walk is its [--from-env] phase. *)
Definition unwalked (lib : GoLib) (env : Environ) (t : Ty) : Prop :=
  forall v prefix s,
    has_type t v = true -> named t = true ->
    quiet (flags s) t prefix ->
    applyFlagOverrides_elem lib env t v true prefix s
    = fromEnvPhase lib env t v true prefix s.

(** The state [New] registers the fields' flags in: a fresh command
    with its two own flags. *)
Definition fresh (s : State) : State :=
  {| flags :=
       [ {| pflag.Name := "config"; pflag.Usage := "Path to config file";
            pflag.Value := pflag.StringValue ""; pflag.Changed := false |};
         {| pflag.Name := "from-env";
            pflag.Usage := "Set config values from environment variables in format 'config.path::ENV_VAR_NAME'";
            pflag.Value := pflag.StringSliceValue []; pflag.Changed := false |} ];
     stderr := stderr s; next := next s |}.

(** The state after [cmd.Execute] has parsed the command line. *)
Definition with_flags (cmd : pflag.FlagSet) (s : State) : State :=
  {| flags := cmd; stderr := stderr s; next := next s |}.

(** The file phase of [New], on the object [obj] that registration
    left: the object after it, and the error it ends with, if any. *)
Definition filePhase (w : World) (t : Ty) (cmd : pflag.FlagSet) (obj : Value)
  : Value * option string :=
  let configFile := pflag.GetString cmd "config" in
  if negb (Str.is_empty configFile) then
    match ReadFile w configFile with
    | inl e => (obj, Some ("failed to read config file: " +:+ e))
    | inr data =>
        match Unmarshal w data (t, obj) with
        | (obj', Some e) => (obj', Some ("failed to unmarshal config file: " +:+ e))
        | (obj', None) => (obj', None)
        end
    end
  else (obj, None).

(** The object and the parsed flags [New] applies the overrides to,
    when it gets that far. *)
Definition beforeOverrides (w : World) (configObject : Ty * Value) (s : State)
  : option (Value * pflag.FlagSet) :=
  match registerFlags configObject "" (fresh s) with
  | Ok (obj, s1) =>
      match Execute w (flags s1) with
      | inr cmd =>
          match filePhase w (fst configObject) cmd obj with
          | (obj', None) => Some (obj', cmd)
          | _ => None
          end
      | inl _ => None
      end
  | Panic _ => None
  end.

(** What a phase may do to the object: [evolves], with one non-nil
    pointer more for every [reflect.New]. *)
Definition grown (T : Ty) (obj : Value) (s : State) (obj' : Value) (s' : State) : Prop :=
  evolves T obj obj'
  /\ (next s <= next s')%nat
  /\ live_ptrs obj' = (live_ptrs obj + (next s' - next s))%nat.

(** The test [findFieldByNameOrTag] makes on an exported field. *)
Definition matchesb (lib : GoLib) (field : StructField) (nameLower : string) : bool :=
  (Str.eqb (ToLower lib (Name field)) nameLower
   || (negb (Str.is_empty (Tag_yaml field))
       && Str.eqb (ToLower lib (parts0 (Tag_yaml field))) nameLower)
   || (negb (Str.is_empty (Tag_json field))
       && Str.eqb (ToLower lib (parts0 (Tag_json field))) nameLower))%bool.

(** An entry that does not split in two on ["::"], or whose variable is
    unset or empty, with the warning it is skipped with. *)
Definition skipped (lib : GoLib) (env : Environ) (pair_ : string) : option Diagnostic :=
  let parts := SplitN2 pair_ "::" in
  if negb (Nat.eqb (length parts) 2) then Some (WarnInvalidFromEnv pair_)
  else
    let envVarName := TrimSpace lib (nth 1 parts "") in
    if Str.is_empty (Getenv env envVarName) then Some (WarnEnvNotSet envVarName)
    else None.

(** The state after several diagnostics. *)
Definition logs (l : list Diagnostic) (s : State) : State :=
  {| flags := flags s; stderr := stderr s ++ l; next := next s |}.


(** ** A configuration to run the model on *)

Module Example.

Definition exported (name yaml : string) : StructField :=
  {| Name := name; IsExported := true; Tag_yaml := yaml; Tag_json := "" |}.

(** [type Server struct { Host string `yaml:"host"`; Port int `yaml:"port"` }] *)
Definition Server : Ty :=
  TStruct "Server"
    [ (exported "Host" "host", TBasic Kind.String);
      (exported "Port" "port", TBasic Kind.Int) ].

(** [type Optional struct { Feature string `yaml:"feature"`;
                            Enabled bool `yaml:"enabled"` }] *)
Definition Optional : Ty :=
  TStruct "Optional"
    [ (exported "Feature" "feature", TBasic Kind.String);
      (exported "Enabled" "enabled", TBasic Kind.Bool) ].

(** [type Config struct { Server Server `yaml:"server"`;
                          Optional *Optional `yaml:"optional"`;
                          Timeout *int `yaml:"timeout"`;
                          secret string;
                          Debug bool }] *)
Definition Config : Ty :=
  TStruct "Config"
    [ (exported "Server" "server", Server);
      (exported "Optional" "optional", TPtr Optional);
      (exported "Timeout" "timeout", TPtr (TBasic Kind.Int));
      ({| Name := "secret"; IsExported := false; Tag_yaml := ""; Tag_json := "" |},
       TBasic Kind.String);
      (exported "Debug" "", TBasic Kind.Bool) ].

(** [var cfg Config], passed as [&cfg]. *)
Definition cfg : Ty * Value := (TPtr Config, VPtr (Some (O, zero Config))).

Definition start : State := {| flags := []; stderr := []; next := 1 |}.

(** Command lines, as the flags they set and the values parsed for
    them; a flag that is not registered is a parse error. *)
Fixpoint setFlag (name : string) (value : pflag.FlagValue) (f : pflag.FlagSet)
  : option pflag.FlagSet :=
  match f with
  | [] => None
  | fl :: rest =>
      if Str.eqb (pflag.Name fl) name
      then Some ({| pflag.Name := pflag.Name fl; pflag.Usage := pflag.Usage fl;
                    pflag.Value := value; pflag.Changed := true |} :: rest)
      else cons fl <$> setFlag name value rest
  end.

Fixpoint parse (args : list (string * pflag.FlagValue)) (f : pflag.FlagSet)
  : string + pflag.FlagSet :=
  match args with
  | [] => inr f
  | (name, value) :: rest =>
      match setFlag name value f with
      | Some f' => parse rest f'
      | None => inl ("unknown flag: --" +:+ name)
      end
  end.

(** One file, ["config.yaml"], holding [server: {host: filehost, port: 9000}]. *)
Definition document : string := "server: {host: filehost, port: 9000}".

Definition readFile (path : string) : string + string :=
  if Str.eqb path "config.yaml" then inr document
  else inl ("open " +:+ path +:+ ": no such file or directory").

Definition unmarshal (data : string) (config : Ty * Value) : Value * option string :=
  match snd config with
  | VPtr (Some (a, VStruct (VStruct [_; _] :: rest))) =>
      if Str.eqb data document
      then (VPtr (Some (a, VStruct (VStruct [VString "filehost"; VInt 9000] :: rest))),
            None)
      else (snd config, Some "yaml: unmarshal errors")
  | v => (v, Some "yaml: unmarshal errors")
  end.

Definition world (args : list (string * pflag.FlagValue)) : World :=
  {| Execute := parse args; ReadFile := readFile; Unmarshal := unmarshal |}.

Definition environ : Environ :=
  {[ "HOME" := "/root"; "MY_HOST" := "$HOME"; "MY_PORT" := "8000"; "WORD" := "yes" ]}.

End Example.

(** ** Notions of the further properties *)

Definition reported {A} (a : option A) (s s' : State) : Prop :=
  match a with
  | Some _ => stderr s' = stderr s
  | None => exists d, stderr s' = stderr s ++ [d]
  end.

(** The walk below the [--from-env] phase: when the phase is not run,
    a run that returns leaves the state as it was and as many non-nil
    pointers in the object. *)
Definition silent_walk (lib : GoLib) (env : Environ) (t : Ty) : Prop :=
  forall v canAddr prefix s v' s',
    (Str.is_empty prefix && pflag.IsChanged (flags s) "from-env")%bool = false ->
    pflag.IsChanged (flags s) "from-env" = false \/ named t = true ->
    applyFlagOverrides_elem lib env t v canAddr prefix s = Ok (v', s') ->
    s' = s /\ live_ptrs v' = live_ptrs v.

(** Registration on a value of its type returns, or panics in
    [AddFlag] on the name of one of the leaves. *)
Definition registerFlags_elem_redefines (t : Ty) : Prop :=
  forall v prefix s,
    has_type t v = true ->
    (exists v' s', registerFlags_elem t v true prefix s = Ok (v', s'))
    \/ (exists n, registerFlags_elem t v true prefix s = Panic (FlagRedefined n)
                  /\ n ∈ pflag.names (leafFlags t v prefix)).

Definition is_struct (t : Ty) : bool :=
  match t with TStruct _ _ => true | _ => false end.

(** Every exported pointer field within reach points to a struct. *)
Fixpoint navigable (t : Ty) : bool :=
  match t with
  | TBasic _ => true
  | TPtr elem => is_struct elem && navigable elem
  | TStruct _ fields =>
      forallb (fun ft => negb (IsExported (fst ft)) || navigable (snd ft)) fields
  end.

(** Go tells from its name whether a field is exported: two fields of
    a struct with the same name are exported alike. *)
Definition same_export (fields : list (StructField * Ty)) : bool :=
  forallb (fun f =>
             forallb (fun g =>
                        implb (Str.eqb (Name (fst f)) (Name (fst g)))
                          (Bool.eqb (IsExported (fst f)) (IsExported (fst g))))
               fields)
    fields.

Fixpoint exported_by_name (t : Ty) : bool :=
  match t with
  | TBasic _ => true
  | TPtr elem => exported_by_name elem
  | TStruct _ fields =>
      same_export fields && forallb (fun ft => exported_by_name (snd ft)) fields
  end.

(** The decoder leaves a pointer to an object of the type. *)
Definition decoder_typed (w : World) (t : Ty) : Prop :=
  forall data a v obj',
    has_type t v = true ->
    Unmarshal w data (TPtr t, VPtr (Some (a, v))) = (obj', None) ->
    exists a' v', obj' = VPtr (Some (a', v')) /\ has_type t v' = true.

Definition applyFlagOverrides_elem_returns (lib : GoLib) (env : Environ) (t : Ty) : Prop :=
  is_struct t = true -> navigable t = true -> exported_by_name t = true ->
  forall v prefix s,
    has_type t v = true ->
    exists v' s', applyFlagOverrides_elem lib env t v true prefix s = Ok (v', s').

Fixpoint dotfree (s : string) : bool :=
  match s with
  | EmptyString => true
  | String c s' => negb (Ascii.eqb c ".") && dotfree s'
  end.

(** The flag name [registerFlags] builds from a prefix and the
    segments of the fields on the way. *)
Definition joinAll (prefix : string) (segments : list string) : string :=
  fold_left joinName segments prefix.

(** Along the position every field has a name, contributes a segment
    without a dot, and is the field its own segment resolves to: no
    field before it in the struct answers to the segment, and none has
    its name. *)
Fixpoint resolvesAt (lib : GoLib) (t : Ty) (pos : list nat) {struct pos} : bool :=
  match pos, t with
  | i :: pos', TStruct _ fields =>
      match fields !! i with
      | Some (field, ft) =>
          negb (Str.is_empty (Name field))
          && dotfree (tagName field)
          && Str.eqb (findField lib fields (ToLower lib (tagName field))) (Name field)
          && bool_decide (FieldByName fields (Name field) = Some i)
          && match ft with
             | TPtr elem => resolvesAt lib elem pos'
             | TStruct _ _ => resolvesAt lib ft pos'
             | TBasic _ => true
             end
      | None => false
      end
  | _, _ => true
  end.

Definition is_int (k : Kind.t) : bool :=
  match k with
  | Kind.Int | Kind.Int8 | Kind.Int16 | Kind.Int32 | Kind.Int64 => true
  | _ => false
  end.

(** The width of an integer kind in bits. *)
Definition bitSize (k : Kind.t) : Z :=
  match k with
  | Kind.Int8 => 8
  | Kind.Int16 => 16
  | Kind.Int32 => 32
  | _ => 64
  end.

(** The entries that assign nothing. *)
Definition unassigned (lib : GoLib) (env : Environ) (t : Ty) (pairs : list string)
  : list string :=
  filter (fun p => pairAssigns lib env t p = None) pairs.

Definition registerFlags_elem_keeps (t : Ty) : Prop :=
  forall v canAddr prefix s v' s',
    all_allocated t v = true ->
    registerFlags_elem t v canAddr prefix s = Ok (v', s') ->
    v' = v /\ next s' = next s.

(** * Properties *)

(** ** Byte strings *)

Lemma Str_eqb_eq a b : Str.eqb a b = true <-> a = b.
Proof. apply String.eqb_eq. Qed.

Lemma Str_eqb_neq a b : Str.eqb a b = false <-> a <> b.
Proof. apply String.eqb_neq. Qed.

Lemma Str_is_empty_true s : Str.is_empty s = true <-> s = "".
Proof. destruct s; simpl; split; congruence. Qed.

Lemma Str_is_empty_false s : Str.is_empty s = false <-> s <> "".
Proof. destruct s; simpl; split; congruence. Qed.

Lemma Str_init_cons c d s :
  Str.init (String c (String d s)) = String c (Str.init (String d s)).
Proof. reflexivity. Qed.

Lemma Str_last_cons c d s : Str.last (String c (String d s)) = Str.last (String d s).
Proof. reflexivity. Qed.

Lemma Str_len_cons c s : Str.len (String c s) = S (Str.len s).
Proof. reflexivity. Qed.

Lemma Str_take_init s : Str.take (Str.len s - 1) s = Str.init s.
Proof.
  induction s as [|c s IH]; [reflexivity|].
  destruct s as [|d s]; [reflexivity|].
  rewrite Str_init_cons, <- IH, !Str_len_cons.
  simpl. rewrite Nat.sub_0_r. reflexivity.
Qed.

Lemma Str_get_last s : String.get (Str.len s - 1) s = Str.last s.
Proof.
  induction s as [|c s IH]; [reflexivity|].
  destruct s as [|d s]; [reflexivity|].
  rewrite Str_last_cons, <- IH, !Str_len_cons.
  simpl. rewrite Nat.sub_0_r. reflexivity.
Qed.

Lemma Str_prefix_take p s :
  String.prefix p s = Str.eqb (Str.take (Str.len p) s) p.
Proof.
  revert s. induction p as [|a p IH]; intros s; [destruct s; reflexivity|].
  destruct s as [|b s]; [reflexivity|].
  cbn [String.prefix Str.len String.length Str.take]. unfold Str.eqb in *.
  cbn [String.eqb]. destruct (ascii_dec a b) as [->|Hne].
  - rewrite Ascii.eqb_refl. apply IH.
  - destruct (Ascii.eqb b a) eqn:E; [|reflexivity].
    apply Ascii.eqb_eq in E. congruence.
Qed.

Lemma Getenv_lookupOrKeep env name original :
  (if negb (Str.is_empty (Getenv env name)) then Getenv env name else original)
  = lookupOrKeep env name original.
Proof.
  unfold Getenv, lookupOrKeep.
  destruct (Str.is_empty name) eqn:Hn; simpl.
  - destruct (env !! name); reflexivity.
  - destruct (env !! name) as [value|]; simpl; [|reflexivity].
    destruct (Str.is_empty value); reflexivity.
Qed.

(** C2.  Inline substitution is the rule of the specification: for a
    string of at least four bytes that begins with "${" and ends with
    "}", the enclosed name is looked up and its value returned when it
    is set and not empty, the string itself otherwise; else for a string
    that begins with "$" the same with everything after the "$" as
    the name; any other string, the empty one included, is returned as
    it is. *)
Theorem resolveEnvVar_rule (env : Environ) (s : string) :
  resolveEnvVar env s = resolveEnvVar_spec env s.
Proof.
  unfold resolveEnvVar, resolveEnvVar_spec.
  destruct (Nat.eqb (Str.len s) 0) eqn:H0.
  { apply Nat.eqb_eq in H0. destruct s; [reflexivity | discriminate]. }
  assert (Hdollar : match Str.at_ s 0 with
                    | Some c => Ascii.eqb c "$"
                    | None => false
                    end = String.prefix "$" s).
  { rewrite Str_prefix_take. destruct s as [|c s]; [reflexivity|].
    unfold Str.eqb. cbn. destruct (Ascii.eqb c "$"); reflexivity. }
  assert (Hclose : match Str.at_ s (Str.len s - 1) with
                   | Some c => Ascii.eqb c "}"
                   | None => false
                   end = bool_decide (Str.last s = Some "}"%char)).
  { unfold Str.at_. rewrite Str_get_last.
    destruct (Str.last s) as [c|].
    - destruct (Ascii.eqb c "}") eqn:E.
      + apply Ascii.eqb_eq in E. subst c. reflexivity.
      + symmetry. apply bool_decide_eq_false. intros [= ->]. discriminate.
    - reflexivity. }
  rewrite Hdollar, Hclose, !Getenv_lookupOrKeep.
  replace (Nat.ltb 3 (Str.len s)) with (Nat.leb 4 (Str.len s)) by reflexivity.
  replace (Str.eqb (Str.slice 0 2 s) "${") with (String.prefix "${" s)
    by (rewrite Str_prefix_take; reflexivity).
  destruct (Nat.leb 4 (Str.len s)) eqn:Hlen; [|reflexivity].
  replace (Str.slice 2 (Str.len s - 1) s) with (Str.init (Str.drop 2 s)); [reflexivity|].
  apply Nat.leb_le in Hlen. unfold Str.slice.
  rewrite <- Str_take_init. f_equal.
  destruct s as [|c1 [|c2 s]]; simpl in *; lia.
Qed.

(** ** Computations *)

Lemma bind_Ok {A B} (m : M A) (f : A -> M B) s b s' :
  (m ≫= f) s = Ok (b, s') ->
  exists a s1, m s = Ok (a, s1) /\ f a s1 = Ok (b, s').
Proof.
  unfold mbind, M_bind. destruct (m s) as [[a s1]|r]; [|discriminate].
  intros H. exists a, s1. split; [reflexivity | exact H].
Qed.

Lemma bind_Ok_intro {A B} (m : M A) (f : A -> M B) s a s1 :
  m s = Ok (a, s1) -> (m ≫= f) s = f a s1.
Proof. unfold mbind, M_bind. intros ->. reflexivity. Qed.

Lemma ret_Ok {A} (a b : A) s s' : (mret a : M A) s = Ok (b, s') -> b = a /\ s' = s.
Proof. unfold mret, M_ret. intros [= -> ->]. split; reflexivity. Qed.

Lemma panic_Ok {A} r s (b : A) s' : panic r s = Ok (b, s') -> False.
Proof. discriminate. Qed.

Lemma Fprintf_Ok d s : Fprintf d s = Ok (tt, log d s).
Proof. reflexivity. Qed.

Lemma get_flags_Ok s : get_flags s = Ok (flags s, s).
Proof. reflexivity. Qed.

(** Inversion of a run that returned. *)
Ltac inv_run :=
  repeat match goal with
  | H : (_ ≫= _) _ = Ok (_, _) |- _ =>
      let a := fresh "a" in let s1 := fresh "s" in
      let H1 := fresh "Hrun" in let H2 := fresh "Hrun" in
      apply bind_Ok in H; destruct H as (a & s1 & H1 & H2)
  | H : mret _ _ = Ok (_, _) |- _ =>
      apply ret_Ok in H; destruct H as [? ?]; subst
  | H : panic _ _ = Ok (_, _) |- _ => discriminate H
  | H : Panic _ = Ok _ |- _ => discriminate H
  | H : Fprintf _ _ = Ok (_, _) |- _ =>
      rewrite Fprintf_Ok in H; injection H as ? ?; subst
  | H : get_flags _ = Ok (_, _) |- _ =>
      rewrite get_flags_Ok in H; injection H as ? ?; subst
  | H : Ok _ = Ok _ |- _ => injection H as ? ?; subst
  end.

(** ** Induction on types *)

Lemma Ty_ind' (P : Ty -> Prop) :
  (forall k, P (TBasic k)) ->
  (forall elem, P elem -> P (TPtr elem)) ->
  (forall name fields, Forall (fun ft => P (snd ft)) fields -> P (TStruct name fields)) ->
  forall t, P t.
Proof.
  intros Hbasic Hptr Hstruct.
  fix IH 1. intros [k|elem|name fields].
  - apply Hbasic.
  - apply Hptr, IH.
  - apply Hstruct. induction fields as [|[field ft] fields IHf].
    + constructor.
    + constructor; [apply IH | exact IHf].
Qed.

(** ** The loop over the fields *)

Lemma forFields_cons_Ok body field ft fs x vs s r s' :
  forFields body ((field, ft) :: fs) (x :: vs) s = Ok (r, s') ->
  exists x' s1 rest,
    body field ft x s = Ok (x', s1)
    /\ forFields body fs vs s1 = Ok (rest, s')
    /\ r = x' :: rest.
Proof.
  cbn [forFields]. intros H. inv_run. eauto 10.
Qed.

Lemma forFields_Ok_length body fs vs s r s' :
  forFields body fs vs s = Ok (r, s') ->
  length vs = length fs /\ length r = length fs.
Proof.
  revert vs s r. induction fs as [|[field ft] fs IH]; intros [|x vs] s r H;
    try discriminate.
  - cbn in H. inv_run. split; reflexivity.
  - apply forFields_cons_Ok in H. destruct H as (x' & s1 & rest & _ & H & ->).
    apply IH in H. simpl. lia.
Qed.

Lemma registerFlags_elem_struct name fields vals canAddr prefix :
  registerFlags_elem (TStruct name fields) (VStruct vals) canAddr prefix
  = (forFields (registerFlags_field registerFlags_elem canAddr prefix) fields vals
       ≫= fun vals' => mret (VStruct vals')).
Proof. reflexivity. Qed.

(** Induction for the walks, which step from a pointer field to the
    type it points to. *)
Lemma Ty_walk_ind (P : Ty -> Prop) :
  (forall k, P (TBasic k)) ->
  (forall elem, P elem -> P (TPtr elem)) ->
  (forall name fields,
      Forall (fun ft => P (snd ft) /\ forall elem, snd ft = TPtr elem -> P elem) fields ->
      P (TStruct name fields)) ->
  forall t, P t.
Proof.
  intros Hbasic Hptr Hstruct t.
  enough (H : P t /\ forall elem, t = TPtr elem -> P elem) by exact (proj1 H).
  induction t as [k|elem IH|name fields IH] using Ty_ind'.
  - split; [apply Hbasic | discriminate].
  - destruct IH as [IH _]. split; [apply Hptr, IH | intros ? [= <-]; exact IH].
  - split; [apply Hstruct, IH | discriminate].
Qed.

(** ** Values *)

Lemma has_type_struct_cons name field ft fs x vs :
  has_type (TStruct name ((field, ft) :: fs)) (VStruct (x :: vs))
  = (has_type ft x && has_type (TStruct name fs) (VStruct vs))%bool.
Proof. reflexivity. Qed.

Lemma all_allocated_struct_cons name field ft fs x vs :
  all_allocated (TStruct name ((field, ft) :: fs)) (VStruct (x :: vs))
  = ((if IsExported field then
        match ft, x with
        | TPtr elem, VPtr (Some (_, y)) => all_allocated elem y
        | TPtr _, _ => false
        | TStruct _ _, _ => all_allocated ft x
        | _, _ => true
        end
      else true) && all_allocated (TStruct name fs) (VStruct vs))%bool.
Proof. reflexivity. Qed.

Lemma leafFlags_struct name fields vals prefix :
  leafFlags (TStruct name fields) (VStruct vals) prefix
  = leafFlags_fields leafFlags prefix fields vals.
Proof. reflexivity. Qed.

Lemma live_ptrs_zero t : live_ptrs (zero t) = 0%nat.
Proof.
  induction t as [k|elem IH|name fields IH] using Ty_ind'.
  - destruct k; reflexivity.
  - reflexivity.
  - simpl. induction IH as [|[field ft] fs Hft _ IHfs]; [reflexivity|].
    simpl in *. rewrite Hft, IHfs. reflexivity.
Qed.

Lemma has_type_zero t : has_type t (zero t) = true.
Proof.
  induction t as [k|elem IH|name fields IH] using Ty_ind'.
  - destruct k; reflexivity.
  - reflexivity.
  - induction IH as [|[field ft] fs Hft _ IHfs]; [reflexivity|].
    change (zero (TStruct name ((field, ft) :: fs)))
      with (VStruct (zero ft :: map (fun ft => zero (snd ft)) fs)).
    rewrite has_type_struct_cons. simpl in Hft. rewrite Hft. exact IHfs.
Qed.

Lemma evolves_fields_refl fs vs : length vs = length fs -> evolves_fields fs vs vs.
Proof.
  revert vs. induction fs as [|[field ft] fs IH]; intros [|x vs] Hlen; try discriminate.
  - constructor.
  - destruct (IsExported field) eqn:E.
    + apply evf_exported; [exact E | apply ev_same | apply IH; simpl in Hlen; lia].
    + apply evf_unexported; [exact E | apply IH; simpl in Hlen; lia].
Qed.

(** ** Flag registration *)

Lemma Lookup_None f name : pflag.Lookup f name = None <-> name ∉ pflag.names f.
Proof.
  unfold pflag.names. induction f as [|fl f IH]; simpl.
  - split; [intros _; apply not_elem_of_nil | reflexivity].
  - rewrite not_elem_of_cons. destruct (Str.eqb (pflag.Name fl) name) eqn:E.
    + apply Str_eqb_eq in E. split; [discriminate | intros [H _]; congruence].
    + apply Str_eqb_neq in E. rewrite IH. split; [intros H; split; congruence | tauto].
Qed.

Lemma Lookup_Some_name f name fl : pflag.Lookup f name = Some fl -> pflag.Name fl = name.
Proof.
  induction f as [|fl' f IH]; simpl; [discriminate|].
  destruct (Str.eqb (pflag.Name fl') name) eqn:E; [|exact IH].
  apply Str_eqb_eq in E. intros [= <-]. exact E.
Qed.

Lemma names_app f g : pflag.names (f ++ g) = pflag.names f ++ pflag.names g.
Proof. apply map_app. Qed.

Lemma AddFlag_Ok name value usage s u s' :
  AddFlag name value usage s = Ok (u, s') ->
  pflag.Lookup (flags s) name = None
  /\ s' = {| flags := flags s ++ [ {| pflag.Name := name; pflag.Usage := usage;
                                      pflag.Value := value; pflag.Changed := false |} ];
             stderr := stderr s; next := next s |}.
Proof.
  unfold AddFlag. destruct (pflag.Lookup (flags s) name); [discriminate|].
  intros [= <- <-]. split; reflexivity.
Qed.

Lemma reflect_New_Ok t s p s' :
  reflect_New t s = Ok (p, s') ->
  p = (next s, zero t)
  /\ s' = {| flags := flags s; stderr := stderr s; next := S (next s) |}.
Proof. intros [= <- <-]. split; reflexivity. Qed.

Lemma registered_same t v canAddr prefix s :
  (canAddr = true -> leafFlags t v prefix = []) ->
  (canAddr = true -> all_allocated t v = true) ->
  registered t v canAddr prefix s v s.
Proof.
  intros Hf Ha. constructor; auto using ev_same; try lia.
  intros Hc. rewrite Hf by exact Hc. rewrite app_nil_r. reflexivity.
Qed.

Ltac head_leaf :=
  let H := fresh "H" in
  intros ? ? ? ? ?pos ? ? H; cbn [getLeaf lookup list_lookup] in *;
  first [ exact H | discriminate H
        | destruct pos; [discriminate H | solve [eauto]] ].

Ltac same_flags :=
  intros ?p; unfold leafFlags_field;
  repeat match goal with H : IsExported _ = _ |- _ => rewrite H end;
  first [ reflexivity | solve [eauto] ].

Lemma registerFlags_elem_registered t : registerFlags_elem_ok t.
Proof.
  induction t as [k|elem IH|name fields IH] using Ty_walk_ind;
    intros v canAddr prefix s v' s' Hrun.
  - cbn in Hrun. inv_run. apply registered_same; reflexivity.
  - cbn in Hrun. inv_run. apply registered_same; reflexivity.
  - destruct v as [| | | | | |vals]; try discriminate Hrun.
    rewrite registerFlags_elem_struct in Hrun.
    apply bind_Ok in Hrun. destruct Hrun as (vals' & sf & Hrun & Hret).
    apply ret_Ok in Hret. destruct Hret as [-> ->].
    enough (H : evolves_fields fields vals vals'
                /\ registered (TStruct name fields) (VStruct vals) canAddr prefix s
                     (VStruct vals') sf) by exact (proj2 H).
    rename sf into s'.
    revert vals s vals' s' Hrun.
    induction IH as [|[field ft] fs [Hft Helem] _ IHfs]; intros vals s vals' s' Hrun.
    + destruct vals; [|discriminate]. cbn in Hrun. inv_run.
      split; [constructor | apply registered_same; reflexivity].
    + destruct vals as [|x vals]; [discriminate|].
      apply forFields_cons_Ok in Hrun.
      destruct Hrun as (x' & s1 & rest & Hx & Hrest & ->).
      apply IHfs in Hrest. clear IHfs. simpl in Hft, Helem.
      destruct Hrest as [Hfs Hrest].
      assert (Hfield : evolves ft x x'
                /\ (IsExported field = false -> x' = x)
                /\ stderr s1 = stderr s /\ (next s <= next s1)%nat
                /\ live_ptrs x' = (live_ptrs x + (next s1 - next s))%nat
                /\ (canAddr = true ->
                    flags s1 = flags s ++ leafFlags_field leafFlags prefix field ft x)
                /\ (canAddr = true ->
                    (if IsExported field then
                       match ft, x' with
                       | TPtr elem, VPtr (Some (_, y)) => all_allocated elem y
                       | TPtr _, _ => false
                       | TStruct _ _, _ => all_allocated ft x'
                       | _, _ => true
                       end
                     else true) = true)
                /\ (has_type ft x = true -> has_type ft x' = true)
                /\ (NoDup (pflag.names (flags s)) ->
                    NoDup (pflag.names (flags s1)))
                /\ (forall name fs vs vs' pos k y,
                      getLeaf (TStruct name ((field, ft) :: fs)) (VStruct (x :: vs))
                        (O :: pos) = Some (k, y) ->
                      getLeaf (TStruct name ((field, ft) :: fs)) (VStruct (x' :: vs'))
                        (O :: pos) = Some (k, y))
                /\ (forall p, leafFlags_field leafFlags p field ft x'
                              = leafFlags_field leafFlags p field ft x)).
      { clear Hrest. unfold registerFlags_field, leafFlags_field in *.
        destruct (IsExported field) eqn:Hexp; cbn [negb] in Hx.
        2:{ inv_run. repeat split; auto using ev_same; try lia; try discriminate; try head_leaf; try same_flags.
            intros _. rewrite app_nil_r. reflexivity. }
        destruct ft as [k|elem|sname sfields].
        - (* a leaf, or a kind that gets no flag *)
          assert (Hk : (exists value, AddFlag (joinName prefix (tagName field)) value
                            ("Set " +:+ joinName prefix (tagName field)) s = Ok (tt, s1)
                            /\ leafFlag (joinName prefix (tagName field)) k x
                               = [flag (joinName prefix (tagName field)) value])
                       \/ (s1 = s /\ leafFlag (joinName prefix (tagName field)) k x = [])).
          { destruct k, x; try discriminate Hx; inv_run;
              try (right; split; reflexivity);
              left; destruct a; eexists; (split; [eassumption | reflexivity]). }
          assert (Hx' : x' = x).
          { destruct k, x; try discriminate Hx; inv_run; reflexivity. }
          subst x'. clear Hx.
          destruct Hk as [(value & Hadd & Hleaf)|[-> Hleaf]].
          + apply AddFlag_Ok in Hadd. destruct Hadd as [Hfresh ->]. simpl.
            repeat split; auto using ev_same; try lia; try head_leaf; try same_flags.
            * intros _. rewrite Hleaf. reflexivity.
            * intros Hnd. rewrite names_app. apply NoDup_app.
              split; [exact Hnd|]. split; [|apply NoDup_singleton].
              intros y Hy ->%list_elem_of_singleton. revert Hy.
              apply Lookup_None, Hfresh.
          + repeat split; auto using ev_same; try lia; try head_leaf; try same_flags.
            intros _. rewrite Hleaf, app_nil_r. reflexivity.
        - (* a pointer *)
          destruct x as [| | | | |target|]; try discriminate Hx.
          inv_run. destruct target as [[a0 x0]|].
          + inv_run. apply (Helem elem eq_refl) in Hrun. destruct Hrun.
            repeat split; auto; try discriminate; try head_leaf; try same_flags.
            * apply ev_ptr. assumption.
            * simpl. lia.
          + destruct canAddr.
            * inv_run. apply reflect_New_Ok in Hrun1. destruct Hrun1 as [-> ->].
              inv_run. apply (Helem elem eq_refl) in Hrun. destruct Hrun. simpl in *.
              repeat split; auto; try discriminate; try lia; try head_leaf; try same_flags.
              -- apply ev_alloc. assumption.
              -- rewrite live_ptrs_zero in *. lia.
              -- intros _. apply reg_type0, has_type_zero.
            * inv_run. repeat split; auto using ev_same; try lia; try discriminate; try head_leaf; try same_flags.
        - (* a struct *)
          destruct x as [| | | | | |svals]; try discriminate Hx.
          destruct canAddr; [|discriminate Hx].
          apply Hft in Hx. destruct Hx.
          repeat split; auto; try discriminate; try head_leaf; try same_flags. }
      destruct Hfield
        as (Hev & Hunexp & Hstderr & Hnext & Hlive & Hflags & Halloc & Htype & Hnodup
            & Hleaf & Hsame).
      destruct Hrest as [Rev Rstderr Rnext Rlive Rflags Ralloc Rtype Rnodup Rleaf Rsame].
      assert (Hfs' : evolves_fields ((field, ft) :: fs) (x :: vals) (x' :: rest)).
      { destruct (IsExported field) eqn:Hexp.
        - apply evf_exported; assumption.
        - rewrite (Hunexp eq_refl). apply evf_unexported; assumption. }
      split; [exact Hfs'|]. constructor.
      * apply ev_struct, Hfs'.
      * congruence.
      * lia.
      * simpl in *. lia.
      * intros Hc. rewrite leafFlags_struct in *. cbn [leafFlags_fields].
        rewrite (Rflags Hc), (Hflags Hc), app_assoc. reflexivity.
      * intros Hc. rewrite all_allocated_struct_cons, (Halloc Hc). apply Ralloc, Hc.
      * rewrite !has_type_struct_cons. intros [H1 H2]%andb_prop.
        rewrite (Htype H1), (Rtype H2). reflexivity.
      * auto.
      * intros [|[|j] pos] k y Hpos; [discriminate| |].
        -- eapply Hleaf, Hpos.
        -- apply (Rleaf (j :: pos) k y Hpos).
      * intros p. specialize (Rsame p). rewrite !leafFlags_struct in *.
        cbn [leafFlags_fields]. rewrite Hsame, Rsame. reflexivity.
Qed.

Lemma AddFlag_fresh name value usage s :
  name ∉ pflag.names (flags s) ->
  AddFlag name value usage s
  = Ok (tt, {| flags := flags s ++ [ {| pflag.Name := name; pflag.Usage := usage;
                                        pflag.Value := value; pflag.Changed := false |} ];
               stderr := stderr s; next := next s |}).
Proof.
  intros H%Lookup_None. unfold AddFlag. rewrite H. reflexivity.
Qed.

Lemma leafFlag_names flagName k x :
  pflag.names (leafFlag flagName k x) = [] \/ pflag.names (leafFlag flagName k x) = [flagName].
Proof. destruct k, x; simpl; auto. Qed.

Lemma registerFlags_elem_total t : registerFlags_elem_returns t.
Proof.
  induction t as [k|elem IH|name fields IH] using Ty_walk_ind;
    intros v prefix s Hty Hnd.
  - destruct k, v; try discriminate Hty; cbn; eauto.
  - destruct v as [| | | | |target|]; try discriminate Hty. cbn. eauto.
  - destruct v as [| | | | | |vals]; try discriminate Hty.
    rewrite registerFlags_elem_struct.
    enough (H : exists vals' s',
               forFields (registerFlags_field registerFlags_elem true prefix) fields vals s
               = Ok (vals', s')).
    { destruct H as (vals' & s' & H). exists (VStruct vals'), s'.
      rewrite (bind_Ok_intro _ _ _ _ _ H). reflexivity. }
    rewrite leafFlags_struct in Hnd.
    revert vals s Hty Hnd.
    induction IH as [|[field ft] fs [Hft Helem] _ IHfs]; intros vals s Hty Hnd.
    + destruct vals; [|discriminate]. cbn. eauto.
    + destruct vals as [|x vals]; [discriminate|].
      rewrite has_type_struct_cons in Hty. apply andb_prop in Hty as [Hx Hvals].
      cbn [leafFlags_fields] in Hnd. rewrite names_app, app_assoc in Hnd.
      cbn [snd] in Hft, Helem.
      assert (Hfield : exists x' s1,
                 registerFlags_field registerFlags_elem true prefix field ft x s
                 = Ok (x', s1)
                 /\ flags s1 = flags s ++ leafFlags_field leafFlags prefix field ft x).
      { apply NoDup_app in Hnd as (Hnd & _ & _).
        unfold registerFlags_field, leafFlags_field in *.
        destruct (IsExported field); cbn [negb].
        2:{ exists x, s. rewrite app_nil_r. split; reflexivity. }
        destruct ft as [k|elem|sname sfields].
        - assert (Hfresh : forall value,
                     leafFlag (joinName prefix (tagName field)) k x
                     = [flag (joinName prefix (tagName field)) value] ->
                     joinName prefix (tagName field) ∉ pflag.names (flags s)).
          { intros value Hv. rewrite Hv in Hnd. apply NoDup_app in Hnd as (_ & Hnd & _).
            intros Hin. apply (Hnd _ Hin). simpl. apply list_elem_of_singleton.
            reflexivity. }
          destruct k, x; try discriminate Hx; cbn;
            try (eexists _, _; split; [reflexivity | rewrite app_nil_r; reflexivity]);
            (eexists _, _; rewrite (bind_Ok_intro _ _ _ _ _
               (AddFlag_fresh _ _ _ _ (Hfresh _ eq_refl))); split; reflexivity).
        - destruct x as [| | | | |target|]; try discriminate Hx.
          destruct target as [[a0 x0]|].
          + destruct (Helem elem eq_refl x0 (joinName prefix (tagName field)) s Hx Hnd)
              as (x' & s1 & Hrun).
            exists (VPtr (Some (a0, x'))), s1. cbn.
            erewrite bind_Ok_intro by reflexivity. cbn beta iota.
            rewrite (bind_Ok_intro _ _ _ _ _ Hrun). split; [reflexivity|].
            apply registerFlags_elem_registered in Hrun. apply Hrun. reflexivity.
          + set (s0 := {| flags := flags s; stderr := stderr s; next := S (next s) |}).
            destruct (Helem elem eq_refl (zero elem) (joinName prefix (tagName field)) s0
                        (has_type_zero elem) Hnd) as (x' & s1 & Hrun).
            exists (VPtr (Some (next s, x'))), s1. cbn.
            erewrite bind_Ok_intro by reflexivity. cbn beta iota. fold s0.
            rewrite (bind_Ok_intro _ _ _ _ _ Hrun). split; [reflexivity|].
            apply registerFlags_elem_registered in Hrun.
            apply (reg_flags _ _ _ _ _ _ _ Hrun). reflexivity.
        - destruct x as [| | | | | |svals]; try discriminate Hx.
          destruct (Hft _ (joinName prefix (tagName field)) s Hx Hnd) as (x' & s1 & Hrun).
          exists x', s1. split; [exact Hrun|].
          apply registerFlags_elem_registered in Hrun. apply Hrun. reflexivity. }
      destruct Hfield as (x' & s1 & Hrun & Hflags).
      rewrite <- names_app, <- Hflags in Hnd.
      destruct (IHfs vals s1 Hvals Hnd) as (rest & s' & Hrest).
      exists (x' :: rest), s'. cbn [forFields].
      rewrite (bind_Ok_intro _ _ _ _ _ Hrun), (bind_Ok_intro _ _ _ _ _ Hrest).
      reflexivity.
Qed.

(** ** Struct values and their fields *)

Lemma has_type_struct name fields vals :
  has_type (TStruct name fields) (VStruct vals) = true
  <-> Forall2 (fun ft x => has_type (snd ft) x = true) fields vals.
Proof.
  revert vals. induction fields as [|[field ft] fs IH]; intros [|x vals].
  - split; [constructor | reflexivity].
  - split; [discriminate | inversion 1].
  - split; [discriminate | inversion 1].
  - rewrite has_type_struct_cons, andb_true_iff, IH. split.
    + intros [H1 H2]. constructor; assumption.
    + inversion 1; subst. split; assumption.
Qed.

Lemma has_type_field name fields vals i field ft :
  has_type (TStruct name fields) (VStruct vals) = true ->
  fields !! i = Some (field, ft) ->
  exists x, vals !! i = Some x /\ has_type ft x = true.
Proof.
  intros H%has_type_struct Hi.
  destruct (Forall2_lookup_l _ _ _ _ _ H Hi) as (x & Hx & Hty). eauto.
Qed.

Lemma has_type_insert name fields vals i field ft x :
  has_type (TStruct name fields) (VStruct vals) = true ->
  fields !! i = Some (field, ft) ->
  has_type ft x = true ->
  has_type (TStruct name fields) (VStruct (<[i := x]> vals)) = true.
Proof.
  rewrite !has_type_struct. intros H Hi Hx.
  rewrite <- (list_insert_id fields i (field, ft)) by exact Hi.
  apply Forall2_insert; assumption.
Qed.

Lemma has_type_length name fields vals :
  has_type (TStruct name fields) (VStruct vals) = true -> length vals = length fields.
Proof. intros H%has_type_struct. symmetry. eapply Forall2_length, H. Qed.

Lemma evolves_fields_insert fields vals i field ft x x' :
  length vals = length fields ->
  fields !! i = Some (field, ft) ->
  vals !! i = Some x ->
  IsExported field = true ->
  evolves ft x x' ->
  evolves_fields fields vals (<[i := x']> vals).
Proof.
  revert vals i. induction fields as [|[f0 ft0] fs IH]; intros [|x0 vals] i Hlen Hi Hx Hexp Hev;
    try discriminate.
  destruct i as [|i]; simpl in *.
  - injection Hi as -> ->. injection Hx as ->.
    apply evf_exported; [exact Hexp | exact Hev |].
    apply evolves_fields_refl. lia.
  - destruct (IsExported f0) eqn:E.
    + apply evf_exported; [exact E | apply ev_same |]. eapply IH; eauto.
    + apply evf_unexported; [exact E|]. eapply IH; eauto.
Qed.

Lemma live_ptrs_insert vals i x x' :
  vals !! i = Some x ->
  (live_ptrs (VStruct (<[i := x']> vals)) + live_ptrs x
   = live_ptrs (VStruct vals) + live_ptrs x')%nat.
Proof.
  revert i. induction vals as [|x0 vals IH]; intros [|i] Hi; try discriminate.
  - injection Hi as ->. simpl. lia.
  - simpl in *. specialize (IH i Hi). lia.
Qed.

Lemma FieldByName_Some fields name i :
  FieldByName fields name = Some i ->
  exists field ft, fields !! i = Some (field, ft) /\ Name field = name.
Proof.
  revert i. induction fields as [|[field ft] fs IH]; intros i; simpl; [discriminate|].
  destruct (Str.eqb (Name field) name) eqn:E.
  - intros [= <-]. apply Str_eqb_eq in E. eauto.
  - destruct (FieldByName fs name) as [j|]; [|discriminate].
    intros [= <-]. apply (IH j eq_refl).
Qed.

(** ** Assignment by path *)

Section Assignment.
Context (lib : GoLib).

Lemma assigned_skip a t v canAddr s d :
  has_type t v = true ->
  (canAddr = true -> a = None) ->
  assigned a t v canAddr s v (log d s).
Proof.
  intros Hty Hnone. constructor; simpl; auto using ev_same; try lia.
  - eauto.
  - intros Hc pos k y Hleaf. rewrite (Hnone Hc). exact Hleaf.
Qed.

Lemma getLeaf_insert_here name fields vals i field k x :
  fields !! i = Some (field, TBasic k) ->
  is_Some (vals !! i) ->
  supported k = true ->
  forall pos k' y,
    getLeaf (TStruct name fields) (VStruct vals) pos = Some (k', y) ->
    getLeaf (TStruct name fields) (VStruct (<[i := x]> vals)) pos
    = Some (k', if bool_decide ([i] = pos) then x else y).
Proof.
  intros Hi Hsome Hk pos k' y Hleaf.
  destruct pos as [|j pos]; [discriminate|]. cbn [getLeaf] in *.
  destruct (decide (i = j)) as [<-|Hne].
  - rewrite Hi in *. rewrite list_lookup_insert_eq
      by (apply lookup_lt_is_Some; exact Hsome).
    destruct Hsome as [x0 Hx0]. rewrite Hx0 in Hleaf.
    destruct pos; [|discriminate]. rewrite Hk in *. injection Hleaf as <- <-.
    rewrite bool_decide_eq_true_2 by reflexivity. reflexivity.
  - rewrite list_lookup_insert_ne by exact Hne.
    rewrite bool_decide_eq_false_2 by congruence. exact Hleaf.
Qed.

Lemma setTarget_unaddressable lastSegment path value t v s v' s' :
  setTarget lib lastSegment path value t v false s = Ok (v', s') ->
  exists d, v' = v /\ s' = log d s.
Proof.
  intros Hrun. unfold setTarget in Hrun.
  apply bind_Ok in Hrun. destruct Hrun as (fieldName & s0 & Hfind & Hrun).
  destruct t as [k|elem|name fields]; try discriminate Hfind.
  cbn in Hfind. apply ret_Ok in Hfind. destruct Hfind as [-> ->].
  destruct (Str.is_empty _); [inv_run; eauto|].
  destruct v as [| | | | | |vals]; try discriminate Hrun.
  destruct (FieldByName _ _) as [i|]; [|inv_run; eauto].
  destruct (fields !! i) as [[field ft]|]; [|discriminate Hrun].
  destruct (vals !! i); [|discriminate Hrun].
  cbn in Hrun. inv_run. eauto.
Qed.

Lemma setTarget_assigned lastSegment path value t v canAddr s v' s' :
  has_type t v = true ->
  setTarget lib lastSegment path value t v canAddr s = Ok (v', s') ->
  assigned (assignment lib t [] lastSegment value) t v canAddr s v' s'.
Proof.
  intros Hty Hrun. destruct canAddr.
  2:{ apply setTarget_unaddressable in Hrun. destruct Hrun as (d & -> & ->).
      apply assigned_skip; [exact Hty | discriminate]. }
  unfold setTarget in Hrun.
  apply bind_Ok in Hrun. destruct Hrun as (fieldName & s0 & Hfind & Hrun).
  destruct t as [k|elem|name fields]; try discriminate Hfind.
  cbn in Hfind. apply ret_Ok in Hfind. destruct Hfind as [-> ->].
  assert (Hasg : assignment lib (TStruct name fields) [] lastSegment value
            = (let fieldName := findField lib fields (ToLower lib lastSegment) in
               if Str.is_empty fieldName then None
               else
                 i ← FieldByName fields fieldName;
                 ft ← fields !! i;
                 match ft with
                 | (field, TBasic k) =>
                     if (IsExported field && supported k)%bool
                     then x ← convert lib k value; Some ([i], x)
                     else None
                 | _ => None
                 end)).
  { unfold assignment. cbn [pathTarget].
    destruct (Str.is_empty (findField lib fields (ToLower lib lastSegment)));
      [reflexivity|].
    destruct (FieldByName fields (findField lib fields (ToLower lib lastSegment)));
      [|reflexivity].
    cbn [mbind option_bind]. destruct (fields !! n) as [[field [k| |]]|]; try reflexivity.
    cbn [mbind option_bind].
    destruct (IsExported field && supported k)%bool; reflexivity. }
  cbn zeta in Hasg.
  destruct (Str.is_empty (findField lib fields (ToLower lib lastSegment))) eqn:Hempty.
  { inv_run. apply assigned_skip; [exact Hty | intros _; exact Hasg]. }
  destruct v as [| | | | | |vals]; try discriminate Hrun.
  destruct (FieldByName fields (findField lib fields (ToLower lib lastSegment)))
    as [i|] eqn:Hi.
  2:{ inv_run. apply assigned_skip; [exact Hty | intros _; exact Hasg]. }
  cbn [mbind option_bind] in Hasg.
  destruct (fields !! i) as [[field ft]|] eqn:Hfi; [|discriminate Hrun].
  destruct (has_type_field _ _ _ _ _ _ Hty Hfi) as (x0 & Hx0 & Htx0).
  rewrite Hx0 in Hrun. cbn [mbind option_bind andb] in Hasg.
  destruct (IsExported field) eqn:Hexp; cbn [negb andb] in Hrun, Hasg.
  2:{ inv_run. apply assigned_skip; [exact Hty|]. intros _. rewrite Hasg.
      destruct ft; reflexivity. }
  assert (Hcase :
    (exists d, v' = VStruct vals /\ s' = log d s
               /\ (match ft with
                   | TBasic k => if supported k then convert lib k value else None
                   | _ => None
                   end) = None)
    \/ (exists k x, ft = TBasic k /\ supported k = true /\ convert lib k value = Some x
                    /\ has_type ft x = true
                    /\ v' = VStruct (<[i := x]> vals) /\ s' = s)).
  { clear Hasg. destruct ft as [k|elem|sname sfields].
    - destruct k; cbn [supported convert];
        try (inv_run; left; eexists; repeat split; reflexivity);
        try (right; inv_run; eexists _, _; repeat split; reflexivity).
      all: cbn [fmap option_fmap option_map].
      all: match goal with
           | H : match ?p with _ => _ end _ = _ |- _ => destruct p eqn:Hp
           end;
           inv_run;
           try (left; eexists; repeat split; reflexivity);
           right; eexists _, _; repeat split; try reflexivity;
           cbn [convert]; rewrite Hp; reflexivity.
    - inv_run. left. eexists. repeat split; reflexivity.
    - inv_run. left. eexists. repeat split; reflexivity. }
  destruct Hcase as [(d & -> & -> & Hnone)|(k & x & -> & Hk & Hconv & Htx & -> & ->)].
  - apply assigned_skip; [exact Hty|]. intros _. rewrite Hasg.
    destruct ft as [k| |]; try reflexivity.
    destruct (supported k); [|reflexivity]. rewrite Hnone. reflexivity.
  - rewrite Hk, Hconv in Hasg. cbn [mbind option_bind] in Hasg.
    constructor; auto; try lia.
    + apply ev_struct. eapply evolves_fields_insert; eauto using ev_leaf.
      eapply has_type_length, Hty.
    + exists []. rewrite app_nil_r. reflexivity.
    + pose proof (live_ptrs_insert vals i x0 x Hx0) as Hl.
      assert (live_ptrs x0 = 0%nat /\ live_ptrs x = 0%nat) as [H0 H1].
      { destruct k, x0, x; try discriminate; split; reflexivity. }
      lia.
    + eapply has_type_insert; eauto.
    + intros _ pos k' y Hleaf. rewrite Hasg. cbn [assignedAt].
      eapply getLeaf_insert_here; eauto.
Qed.

Lemma assignment_cons name fields segment front lastSegment value i field ft et :
  Str.is_empty (findField lib fields (ToLower lib segment)) = false ->
  FieldByName fields (findField lib fields (ToLower lib segment)) = Some i ->
  fields !! i = Some (field, ft) ->
  (ft = TPtr et \/ (ft = et /\ exists n fs, et = TStruct n fs)) ->
  assignment lib (TStruct name fields) (segment :: front) lastSegment value
  = match assignment lib et front lastSegment value with
    | Some (pos, x) => Some (i :: pos, x)
    | None => None
    end.
Proof.
  intros Hempty Hi Hfi Hft. unfold assignment. cbn [pathTarget].
  rewrite Hempty, Hi. cbn [mbind option_bind]. rewrite Hfi. cbn [mbind option_bind].
  assert (Hpt : (match ft with
                 | TPtr elem | (TStruct _ _ as elem) =>
                     pathTarget lib elem front lastSegment
                       ≫= fun r => Some (i :: fst r, snd r)
                 | _ => None
                 end) = pathTarget lib et front lastSegment
                          ≫= fun r => Some (i :: fst r, snd r)).
  { destruct Hft as [->|[-> (n & fs & ->)]]; reflexivity. }
  transitivity ((pathTarget lib et front lastSegment
                   ≫= fun r => Some (i :: fst r, snd r))
                  ≫= fun r => convert lib (snd r) value ≫= fun x => Some (fst r, x)).
  { rewrite <- Hpt. destruct ft; reflexivity. }
  destruct (pathTarget lib et front lastSegment) as [[pos k]|]; [|reflexivity].
  cbn [mbind option_bind fst snd]. destruct (convert lib k value); reflexivity.
Qed.

Lemma assigned_descend name fields vals segment front lastSegment value
    canAddr s s0 s' i field ft fv et ev ev' (wrap_ : Value -> Value) :
  has_type (TStruct name fields) (VStruct vals) = true ->
  Str.is_empty (findField lib fields (ToLower lib segment)) = false ->
  FieldByName fields (findField lib fields (ToLower lib segment)) = Some i ->
  fields !! i = Some (field, ft) ->
  vals !! i = Some fv ->
  IsExported field = true ->
  (ft = TPtr et \/ (ft = et /\ exists n fs, et = TStruct n fs)) ->
  (* the state the descent starts in *)
  flags s0 = flags s -> stderr s0 = stderr s -> (next s <= next s0)%nat ->
  assigned (assignment lib et front lastSegment value) et ev true s0 ev' s' ->
  has_type ft (wrap_ ev') = true ->
  evolves ft fv (wrap_ ev') ->
  live_ptrs (wrap_ ev') = (live_ptrs fv + (next s' - next s))%nat ->
  (forall pos k y,
      getLeaf (TStruct name fields) (VStruct vals) (i :: pos) = Some (k, y) ->
      getLeaf et ev pos = Some (k, y)) ->
  (forall vals' pos,
      pos <> [] -> vals' !! i = Some (wrap_ ev') ->
      getLeaf (TStruct name fields) (VStruct vals') (i :: pos) = getLeaf et ev' pos) ->
  assigned (assignment lib (TStruct name fields) (segment :: front) lastSegment value)
    (TStruct name fields) (VStruct vals)
    canAddr s (VStruct (<[i := wrap_ ev']> vals)) s'.
Proof.
  intros Hty Hempty Hi Hfi Hvi Hexp Hft Hfl Hse Hne [Aev Afl [l Ase] Ane Ali Aty Ale]
    Hwty Hwev Hwlive Hget Hget'.
  constructor.
  - apply ev_struct. eapply evolves_fields_insert; eauto.
    eapply has_type_length, Hty.
  - congruence.
  - exists l. congruence.
  - lia.
  - pose proof (live_ptrs_insert vals i fv (wrap_ ev') Hvi). lia.
  - eapply has_type_insert; eauto.
  - intros _ pos k y Hleaf.
    rewrite (assignment_cons _ _ _ _ _ _ _ _ _ _ Hempty Hi Hfi Hft).
    destruct pos as [|j pos]; [discriminate|].
    destruct (decide (i = j)) as [<-|Hij].
    + assert (Hpos : pos <> []).
      { intros ->. cbn [getLeaf] in Hleaf. rewrite Hfi, Hvi in Hleaf.
        destruct Hft as [->|[-> (n & fs & ->)]]; [|discriminate].
        destruct fv as [| | | | |[[? ?]|]|]; discriminate. }
      rewrite Hget'; [|exact Hpos|].
      2:{ apply list_lookup_insert_eq. eapply lookup_lt_Some, Hvi. }
      rewrite (Ale eq_refl _ _ _ (Hget _ _ _ Hleaf)). f_equal. f_equal.
      destruct (assignment lib et front lastSegment value) as [[p x]|]; [|reflexivity].
      cbn [assignedAt]. destruct (decide (p = pos)) as [->|Hp].
      * rewrite !bool_decide_eq_true_2; reflexivity.
      * rewrite !bool_decide_eq_false_2; congruence.
    + assert (Hsame : getLeaf (TStruct name fields) (VStruct (<[i := wrap_ ev']> vals))
                        (j :: pos)
                      = getLeaf (TStruct name fields) (VStruct vals) (j :: pos)).
      { cbn [getLeaf]. rewrite list_lookup_insert_ne by exact Hij. reflexivity. }
      rewrite Hsame, Hleaf. f_equal. f_equal.
      destruct (assignment lib et front lastSegment value) as [[p x]|]; [|reflexivity].
      cbn [assignedAt]. rewrite bool_decide_eq_false_2; congruence.
Qed.

End Assignment.

Section AssignmentByPath.
Context (lib : GoLib).

Lemma assignment_not_struct t front lastSegment value :
  (forall name fields, t <> TStruct name fields) ->
  assignment lib t front lastSegment value = None.
Proof.
  intros Ht. unfold assignment. destruct front; destruct t; try reflexivity;
    exfalso; eapply Ht; reflexivity.
Qed.

Lemma assignment_skip name fields segment front lastSegment value :
  (Str.is_empty (findField lib fields (ToLower lib segment)) = true
   \/ FieldByName fields (findField lib fields (ToLower lib segment)) = None
   \/ exists i field k,
        FieldByName fields (findField lib fields (ToLower lib segment)) = Some i
        /\ fields !! i = Some (field, TBasic k)) ->
  assignment lib (TStruct name fields) (segment :: front) lastSegment value = None.
Proof.
  unfold assignment. cbn [pathTarget].
  intros [->|[H|(i & field & k & Hi & Hfi)]]; [reflexivity| |].
  - destruct (Str.is_empty _); [reflexivity|]. rewrite H. reflexivity.
  - destruct (Str.is_empty _); [reflexivity|]. rewrite Hi. cbn [mbind option_bind].
    rewrite Hfi. reflexivity.
Qed.

Lemma setValueByPath_elem_assigned front :
  forall lastSegment path value t v canAddr s v' s',
    has_type t v = true ->
    setValueByPath_elem lib front lastSegment path value t v canAddr s = Ok (v', s') ->
    assigned (assignment lib t front lastSegment value) t v canAddr s v' s'.
Proof.
  induction front as [|segment front IH];
    intros lastSegment path value t v canAddr s v' s' Hty Hrun.
  { eapply setTarget_assigned; eauto. }
  cbn [setValueByPath_elem] in Hrun.
  destruct t as [k|elem|name fields].
  { destruct v; inv_run;
      (apply assigned_skip; [exact Hty | intros _; apply assignment_not_struct; discriminate]). }
  { destruct v; inv_run;
      (apply assigned_skip; [exact Hty | intros _; apply assignment_not_struct; discriminate]). }
  destruct v as [| | | | | |vals]; try discriminate Hrun.
  destruct (Str.is_empty (findField lib fields (ToLower lib segment))) eqn:Hempty.
  { inv_run. apply assigned_skip; [exact Hty | intros _; apply assignment_skip; auto]. }
  destruct (FieldByName fields (findField lib fields (ToLower lib segment)))
    as [i|] eqn:Hi.
  2:{ inv_run. apply assigned_skip; [exact Hty | intros _; apply assignment_skip; auto]. }
  destruct (fields !! i) as [[field ft]|] eqn:Hfi; [|discriminate Hrun].
  destruct (has_type_field _ _ _ _ _ _ Hty Hfi) as (fv & Hvi & Htf).
  rewrite Hvi in Hrun.
  destruct ft as [k|elem|sname sfields].
  - (* neither a struct nor a pointer *)
    assert (Hd : Fprintf (ErrNotStructOrPointer segment path k) s = Ok (tt, log (ErrNotStructOrPointer segment path k) s)
                 /\ v' = VStruct vals /\ s' = log (ErrNotStructOrPointer segment path k) s).
    { destruct fv; inv_run; repeat split; reflexivity. }
    destruct Hd as (_ & -> & ->).
    apply assigned_skip; [exact Hty | intros _; apply assignment_skip; eauto 10].
  - (* a pointer: allocate when nil, then descend *)
    destruct fv as [| | | | |target|]; try discriminate Htf.
    destruct (IsExported field) eqn:Hexp; [|discriminate Hrun]. cbn [negb] in Hrun.
    apply bind_Ok in Hrun. destruct Hrun as ([a x0] & s0 & Halloc & Hrun).
    apply bind_Ok in Hrun. destruct Hrun as (x' & s1 & Hrec & Hret).
    apply ret_Ok in Hret. destruct Hret as [-> ->]. cbn [fst snd] in *.
    assert (Hs0 : flags s0 = flags s /\ stderr s0 = stderr s
                  /\ (next s <= next s0)%nat
                  /\ has_type elem x0 = true
                  /\ (target = Some (a, x0) /\ s0 = s
                      \/ target = None /\ x0 = zero elem /\ next s0 = S (next s))).
    { destruct target as [[a1 x1]|].
      - inv_run. injection H as -> ->. repeat split; auto.
      - destruct canAddr; [|discriminate Halloc].
        apply reflect_New_Ok in Halloc. destruct Halloc as [[= -> ->] ->]. simpl.
        repeat split; auto using has_type_zero. }
    destruct Hs0 as (Hfl & Hse & Hne & Htx & Hcase).
    pose proof (IH _ _ _ _ _ _ _ _ _ Htx Hrec) as Hrec'.
    eapply (assigned_descend lib name fields vals segment front lastSegment value
              canAddr s s0 s1 i field (TPtr elem) (VPtr target) elem x0 x'
              (fun y => VPtr (Some (a, y)))); eauto.
    + apply (as_type _ _ _ _ _ _ _ Hrec').
    + destruct Hcase as [[-> ->]|(-> & -> & _)].
      * apply ev_ptr, Hrec'.
      * apply ev_alloc, Hrec'.
    + pose proof (as_live _ _ _ _ _ _ _ Hrec') as Hl.
      pose proof (as_next _ _ _ _ _ _ _ Hrec') as Hn.
      destruct Hcase as [[-> ->]|(-> & -> & Hs)]; simpl.
      * lia.
      * rewrite live_ptrs_zero in Hl. lia.
    + intros pos k y. cbn [getLeaf]. rewrite Hfi, Hvi.
      destruct Hcase as [[-> ->]|(-> & -> & _)]; [|discriminate].
      destruct pos; [discriminate|]. auto.
    + intros vals' pos Hpos Hv. cbn [getLeaf]. rewrite Hfi, Hv.
      destruct pos; [congruence | reflexivity].
  - (* a struct: descend *)
    assert (Hs : exists svals, fv = VStruct svals).
    { destruct fv; try discriminate Htf. eauto. }
    destruct Hs as [svals ->].
    destruct canAddr; [|discriminate Hrun]. cbn [negb] in Hrun.
    destruct (IsExported field) eqn:Hexp; [|discriminate Hrun]. cbn [negb] in Hrun.
    apply bind_Ok in Hrun. destruct Hrun as (x' & s1 & Hrec & Hret).
    apply ret_Ok in Hret. destruct Hret as [-> ->].
    pose proof (IH _ _ _ _ _ _ _ _ _ Htf Hrec) as Hrec'.
    eapply (assigned_descend lib name fields vals segment front lastSegment value
              true s s s1 i field (TStruct sname sfields) (VStruct svals)
              (TStruct sname sfields) (VStruct svals) x' (fun y => y)); eauto.
    + apply (as_type _ _ _ _ _ _ _ Hrec').
    + apply Hrec'.
    + apply Hrec'.
    + intros pos k y. cbn [getLeaf]. rewrite Hfi, Hvi.
      destruct pos; [discriminate|]. auto.
    + intros vals' pos Hpos Hv. cbn [getLeaf]. rewrite Hfi, Hv.
      destruct pos; [congruence | reflexivity].
Qed.

End AssignmentByPath.

(** ** Composition of changes *)

Lemma evolves_trans t v1 v2 v3 : evolves t v1 v2 -> evolves t v2 v3 -> evolves t v1 v3.
Proof.
  intros H. revert v3.
  induction H using evolves_mut with
    (P0 := fun fs vs1 vs2 =>
             forall vs3, evolves_fields fs vs2 vs3 -> evolves_fields fs vs1 vs3);
    intros w Hw.
  - exact Hw.
  - apply ev_leaf.
  - inversion Hw; subst.
    + apply ev_alloc. assumption.
    + apply ev_alloc. auto.
  - inversion Hw; subst.
    + apply ev_ptr. assumption.
    + apply ev_ptr. auto.
  - inversion Hw; subst.
    + apply ev_struct. assumption.
    + apply ev_struct. auto.
  - exact Hw.
  - inversion Hw; subst; try congruence. apply evf_exported; auto.
  - inversion Hw; subst; try congruence. apply evf_unexported; auto.
Qed.

Lemma changed_compose ok f g t v s v1 s1 v2 s2 :
  changed ok f t v s v1 s1 ->
  changed ok g t v1 s1 v2 s2 ->
  changed ok (fun pos y => g pos (f pos y)) t v s v2 s2.
Proof.
  intros [Fev Ffl [l1 Fse] Fne Fli Fty Fle] [Gev Gfl [l2 Gse] Gne Gli Gty Gle].
  constructor.
  - eapply evolves_trans; eassumption.
  - congruence.
  - exists (l1 ++ l2). rewrite Gse, Fse, app_assoc. reflexivity.
  - lia.
  - lia.
  - exact Gty.
  - intros Hc pos k y Hleaf. apply (Gle Hc), (Fle Hc), Hleaf.
Qed.

Lemma changed_same ok f t v s :
  has_type t v = true ->
  (ok -> forall pos y, f pos y = y) ->
  changed ok f t v s v s.
Proof.
  intros Hty Hf. constructor; auto using ev_same; try lia.
  - exists []. rewrite app_nil_r. reflexivity.
  - intros Hok pos k y Hleaf. rewrite Hf by exact Hok. exact Hleaf.
Qed.

Lemma changed_ext (ok ok' : Prop) f g t v s v' s' :
  (ok' -> ok) ->
  (ok' -> forall pos y, f pos y = g pos y) ->
  changed ok f t v s v' s' -> changed ok' g t v s v' s'.
Proof.
  intros Hok Hfg [Fev Ffl Fse Fne Fli Fty Fle]. constructor; auto.
  intros Hc pos k y Hleaf. rewrite <- Hfg by exact Hc. auto.
Qed.

(** ** The [--from-env] entries *)

Section FromEnv.
Context (lib : GoLib) (env : Environ).

Lemma setValueByPath_from_assigned t v canAddr path value s v' s' :
  has_type t v = true ->
  setValueByPath_from lib t v canAddr path value s = Ok (v', s') ->
  assigned (segs ← splitLast (Split path ".");
            assignment lib t (fst segs) (snd segs) value) t v canAddr s v' s'.
Proof.
  intros Hty Hrun. unfold setValueByPath_from in Hrun.
  destruct (splitLast (Split path ".")) as [[front lastSegment]|].
  - eapply setValueByPath_elem_assigned; eauto.
  - inv_run. apply assigned_skip; auto.
Qed.

Lemma fromEnvPair_assigned t v canAddr pair_ s v' s' :
  has_type t v = true ->
  fromEnvPair lib env t v canAddr pair_ s = Ok (v', s') ->
  assigned (pairAssigns lib env t pair_) t v canAddr s v' s'.
Proof.
  intros Hty Hrun. unfold fromEnvPair, pairAssigns in *.
  destruct (Nat.eqb (length (SplitN2 pair_ "::")) 2); cbn [negb] in Hrun.
  2:{ inv_run. apply assigned_skip; auto. }
  destruct (Str.is_empty _).
  { inv_run. apply assigned_skip; auto. }
  eapply setValueByPath_from_assigned; eauto.
Qed.

Lemma fromEnvPairs_changed pairs :
  forall t v canAddr s v' s',
    has_type t v = true ->
    fromEnvPairs lib env t v canAddr pairs s = Ok (v', s') ->
    changed (canAddr = true) (envAssigned lib env t pairs) t v s v' s'.
Proof.
  induction pairs as [|pair_ rest IH]; intros t v canAddr s v' s' Hty Hrun.
  - cbn in Hrun. inv_run. apply changed_same; auto.
  - cbn [fromEnvPairs] in Hrun.
    apply bind_Ok in Hrun. destruct Hrun as (v1 & s1 & Hpair & Hrest).
    apply fromEnvPair_assigned in Hpair; [|exact Hty].
    apply IH in Hrest; [|apply Hpair].
    eapply changed_ext; [| |eapply changed_compose; eassumption]; auto.
Qed.

End FromEnv.

(** ** The override walk *)

Lemma named_struct_cons name field ft fs :
  named (TStruct name ((field, ft) :: fs))
  = (negb (Str.is_empty (Name field)) && named ft && named (TStruct name fs))%bool.
Proof. reflexivity. Qed.

Lemma append_nonempty a b : a <> "" -> a +:+ b <> "".
Proof. destruct a; [congruence | discriminate]. Qed.

Lemma joinName_nonempty prefix field :
  Name field <> "" -> Str.is_empty (joinName prefix (tagName field)) = false.
Proof.
  intros Hname. apply Str_is_empty_false.
  assert (Htag : tagName field <> "").
  { unfold tagName. destruct (Str.is_empty (Tag_yaml field)); cbn [negb]; [exact Hname|].
    destruct (Str.is_empty (parts0 (Tag_yaml field))) eqn:E; cbn [negb]; [exact Hname|].
    apply Str_is_empty_false, E. }
  unfold joinName. destruct (Str.is_empty prefix) eqn:E; cbn [negb]; [exact Htag|].
  apply append_nonempty, Str_is_empty_false, E.
Qed.

Lemma applyFlagOverrides_elem_unfold lib env t v canAddr prefix :
  applyFlagOverrides_elem lib env t v canAddr prefix
  = (cmd ← get_flags;
     v ← (if (Str.is_empty prefix && pflag.IsChanged cmd "from-env")%bool
          then fromEnvPairs lib env t v canAddr (pflag.GetStringSlice cmd "from-env")
          else mret v);
     match t, v with
     | TStruct _ fields, VStruct vals =>
         vals' ← forFields
                   (applyFlagOverrides_field lib env (applyFlagOverrides_elem lib env)
                      canAddr prefix) fields vals;
         mret (VStruct vals')
     | TStruct _ _, _ => panic NotAReflectValue
     | _, _ => mret v
     end).
Proof. destruct t; reflexivity. Qed.

Section Walk.
Context (lib : GoLib) (env : Environ).

Lemma flagAssigned_not_struct cmd t prefix pos y :
  (forall name fields, t <> TStruct name fields) ->
  flagAssigned lib env cmd t prefix pos y = y.
Proof.
  intros Ht. unfold flagAssigned.
  destruct pos, t; try reflexivity. exfalso. eapply Ht. reflexivity.
Qed.

(** The [--from-env] phase at the head of [applyFlagOverrides]. *)
Lemma fromEnv_phase t v canAddr prefix s v1 s1 :
  has_type t v = true ->
  (if (Str.is_empty prefix && pflag.IsChanged (flags s) "from-env")%bool
   then fromEnvPairs lib env t v canAddr (pflag.GetStringSlice (flags s) "from-env")
   else mret v) s = Ok (v1, s1) ->
  changed (canAddr = true)
    (fun pos y =>
       if Str.is_empty prefix then envAssigned lib env t (fromEnvOf (flags s)) pos y
       else y) t v s v1 s1.
Proof.
  intros Hty Hrun. unfold fromEnvOf.
  destruct (Str.is_empty prefix); cbn [andb] in Hrun.
  - destruct (pflag.IsChanged (flags s) "from-env").
    + eapply fromEnvPairs_changed; eauto.
    + inv_run. apply changed_same; auto.
  - inv_run. apply changed_same; auto.
Qed.

Lemma field_walked_same canAddr prefix field ft x s :
  has_type ft x = true ->
  (IsExported field = true -> forall k, ft = TBasic k -> supported k = true ->
     pflag.IsChanged (flags s) (joinName prefix (tagName field)) = false) ->
  (IsExported field = true -> forall n fs, ft = TStruct n fs -> False) ->
  (IsExported field = true -> forall elem p, ft = TPtr elem -> x = VPtr (Some p) -> False) ->
  field_walked lib env canAddr prefix field ft x s x s.
Proof.
  intros Hty Hbasic Hstruct Hptr. unfold field_walked.
  repeat split; auto using ev_same; try lia.
  - exists []. rewrite app_nil_r. reflexivity.
  - intros _ _ _ name fs vs vs' pos k y Hleaf.
    cbn [getLeaf lookup list_lookup] in *. rewrite Hleaf. f_equal. f_equal.
    unfold flagAssigned. cbn [flagAt lookup list_lookup].
    destruct (IsExported field) eqn:Hexp; [|reflexivity].
    destruct ft as [k0|elem|sname sfields].
    + destruct pos; [|destruct x; discriminate].
      destruct (supported k0) eqn:Hk; [|reflexivity].
      rewrite (Hbasic eq_refl k0 eq_refl Hk). reflexivity.
    + destruct x as [| | | | |[p|]|]; try discriminate Hleaf.
      exfalso. eapply Hptr; eauto.
    + exfalso. eapply Hstruct; eauto.
Qed.

Lemma field_walked_leaf canAddr prefix field k x s :
  IsExported field = true ->
  has_type (TBasic k) x = true ->
  supported k = true ->
  pflag.IsChanged (flags s) (joinName prefix (tagName field)) = true ->
  field_walked lib env canAddr prefix field (TBasic k) x s
    (flagValue lib env (flags s) k (joinName prefix (tagName field))) s.
Proof.
  intros Hexp Hty Hk Hch. unfold field_walked.
  assert (Hty' : has_type (TBasic k)
                   (flagValue lib env (flags s) k (joinName prefix (tagName field)))
                 = true).
  { destruct k; try discriminate Hk; reflexivity. }
  repeat split; auto using ev_leaf; try lia; try congruence.
  - exists []. rewrite app_nil_r. reflexivity.
  - destruct k; try discriminate Hk; destruct x; try discriminate Hty; simpl; lia.
  - intros _ _ _ name fs vs vs' pos k' y Hleaf.
    cbn [getLeaf lookup list_lookup] in *.
    destruct pos; [|destruct x; discriminate].
    rewrite Hk in *. injection Hleaf as <- <-. f_equal. f_equal.
    unfold flagAssigned. cbn [flagAt lookup list_lookup]. rewrite Hexp, Hk, Hch.
    reflexivity.
Qed.

Lemma field_walked_descend canAddr prefix field ft x s x' s1 et ev ev' :
  IsExported field = true ->
  has_type ft x' = true ->
  (forall pos, pos <> [] ->
     forall name fs vs,
       getLeaf (TStruct name ((field, ft) :: fs)) (VStruct (x :: vs)) (O :: pos)
       = getLeaf et ev pos) ->
  (forall pos, pos <> [] ->
     forall name fs vs,
       getLeaf (TStruct name ((field, ft) :: fs)) (VStruct (x' :: vs)) (O :: pos)
       = getLeaf et ev' pos) ->
  (forall k, ft <> TBasic k) ->
  (forall pos, pos <> [] ->
     forall name fs prefix,
       flagAt (TStruct name ((field, ft) :: fs)) (O :: pos) prefix
       = flagAt et pos (joinName prefix (tagName field))) ->
  (named ft = true -> named et = true) ->
  (evolves et ev ev' -> evolves ft x x') ->
  live_ptrs x' + live_ptrs ev = live_ptrs x + live_ptrs ev' ->
  changed (true = true /\ named et = true)
    (overrideAt lib env (flags s) et (joinName prefix (tagName field))) et ev s ev' s1 ->
  field_walked lib env canAddr prefix field ft x s x' s1.
Proof.
  intros Hexp Hty' Hget Hget' Hnb Hflag Hnamed Hev Hlive [Cev Cfl Cse Cne Cli Cty Cle].
  unfold field_walked. repeat split; auto; try lia; try congruence.
  intros _ Hname Hnft name fs vs vs' pos k y Hleaf.
  assert (Hpos : pos <> []).
  { intros ->. cbn [getLeaf lookup list_lookup] in Hleaf.
    destruct ft as [k0| |]; [exfalso; eapply Hnb; reflexivity| |];
      destruct x as [| | | | |[[? ?]|]|]; discriminate Hleaf. }
  rewrite Hget in Hleaf by exact Hpos. rewrite Hget' by exact Hpos.
  rewrite (Cle (conj eq_refl (Hnamed Hnft)) _ _ _ Hleaf). f_equal. f_equal.
  unfold overrideAt. rewrite (joinName_nonempty _ _ Hname).
  unfold flagAssigned. rewrite Hflag by exact Hpos. reflexivity.
Qed.

(** The loop body, for the field at the head of the struct. *)
Lemma applyFlagOverrides_field_changed canAddr prefix field ft x s x' s1 :
  walked lib env ft ->
  (forall elem, ft = TPtr elem -> walked lib env elem) ->
  has_type ft x = true ->
  applyFlagOverrides_field lib env (applyFlagOverrides_elem lib env) canAddr prefix
    field ft x s = Ok (x', s1) ->
  field_walked lib env canAddr prefix field ft x s x' s1.
Proof.
  intros Hft Helem Hty Hrun. unfold applyFlagOverrides_field in Hrun.
  destruct (IsExported field) eqn:Hexp; cbn [negb] in Hrun.
  2:{ inv_run. apply field_walked_same; auto; intros; congruence. }
  destruct ft as [k|elem|sname sfields].
  - (* a leaf *)
    set (flagName := joinName prefix (tagName field)) in *.
    assert (Hcase : (x' = x /\ s1 = s
                     /\ (supported k = true -> pflag.IsChanged (flags s) flagName = false))
                    \/ (x' = flagValue lib env (flags s) k flagName /\ s1 = s
                        /\ supported k = true
                        /\ pflag.IsChanged (flags s) flagName = true)).
    { destruct k, x; try discriminate Hty; inv_run;
        try (left; repeat split; (reflexivity || discriminate));
        match goal with
        | H : (if pflag.IsChanged ?f ?n then _ else _) _ = _ |- _ =>
            destruct (pflag.IsChanged f n) eqn:Hch
        end;
        try (destruct canAddr; [|discriminate]);
        inv_run; auto 10. }
    destruct Hcase as [(-> & -> & Hnc)|(-> & -> & Hk & Hch)].
    + apply field_walked_same; auto; try discriminate.
      intros _ k0 [= <-]. exact Hnc.
    + apply field_walked_leaf; auto.
  - (* a pointer *)
    destruct x as [| | | | |[[a x0]|]|]; try discriminate Hty.
    + apply bind_Ok in Hrun. destruct Hrun as (x0' & s2 & Hrec & Hret).
      apply ret_Ok in Hret. destruct Hret as [-> ->].
      apply (Helem elem eq_refl) in Hrec; [|exact Hty].
      eapply (field_walked_descend _ _ _ _ _ _ _ _ elem x0 x0'); eauto.
      * apply Hrec.
      * intros pos Hpos name fs vs. cbn [getLeaf lookup list_lookup].
        destruct pos; [congruence | reflexivity].
      * intros pos Hpos name fs vs. cbn [getLeaf lookup list_lookup].
        destruct pos; [congruence | reflexivity].
      * intros pos Hpos name fs prefix'. cbn [flagAt lookup list_lookup].
        rewrite Hexp. destruct pos; [congruence | reflexivity].
      * apply ev_ptr.
      * simpl. lia.
    + inv_run. apply field_walked_same; auto; discriminate.
  - (* a struct *)
    destruct x as [| | | | | |svals]; try discriminate Hty.
    destruct canAddr; [|discriminate Hrun].
    apply Hft in Hrun; [|exact Hty].
    eapply (field_walked_descend _ _ _ _ _ _ _ _ (TStruct sname sfields)
              (VStruct svals) x'); eauto.
    + apply Hrun.
    + intros pos Hpos name fs vs. cbn [getLeaf lookup list_lookup].
      destruct pos; [congruence | reflexivity].
    + intros pos Hpos name fs vs. cbn [getLeaf lookup list_lookup].
      destruct pos; [congruence | reflexivity].
    + intros pos Hpos name fs prefix'. cbn [flagAt lookup list_lookup].
      rewrite Hexp. destruct pos; [congruence | reflexivity].
    + lia.
Qed.

End Walk.

Section WalkAll.
Context (lib : GoLib) (env : Environ).

Lemma applyFlagOverrides_fields_changed fs :
  Forall (fun ft => walked lib env (snd ft)
                    /\ forall elem, snd ft = TPtr elem -> walked lib env elem) fs ->
  forall name vs canAddr prefix s vs' s',
    has_type (TStruct name fs) (VStruct vs) = true ->
    forFields (applyFlagOverrides_field lib env (applyFlagOverrides_elem lib env)
                 canAddr prefix) fs vs s = Ok (vs', s') ->
    evolves_fields fs vs vs'
    /\ changed (canAddr = true /\ named (TStruct name fs) = true)
         (flagAssigned lib env (flags s) (TStruct name fs) prefix)
         (TStruct name fs) (VStruct vs) s (VStruct vs') s'.
Proof.
  induction 1 as [|[field ft] fs [Hft Helem] _ IHfs];
    intros name vs canAddr prefix s vs' s' Hty Hrun.
  - destruct vs; [|discriminate]. cbn in Hrun. inv_run.
    split; [constructor|]. apply changed_same; [exact Hty|].
    intros _ pos y. unfold flagAssigned. destruct pos as [|[|i] pos]; reflexivity.
  - destruct vs as [|x vs]; [discriminate|].
    rewrite has_type_struct_cons in Hty. apply andb_prop in Hty as [Hx Hvs].
    apply forFields_cons_Ok in Hrun.
    destruct Hrun as (x' & s1 & rest & Hfield & Hrest & ->).
    cbn [snd] in Hft, Helem.
    apply applyFlagOverrides_field_changed in Hfield; auto.
    destruct Hfield as (Fev & Fun & Ffl & [l1 Fse] & Fne & Fli & Fty & Fle).
    destruct (IHfs name vs canAddr prefix s1 rest s' Hvs Hrest)
      as [Rfs [Rev Rfl [l2 Rse] Rne Rli Rty Rle]].
    assert (Hfs' : evolves_fields ((field, ft) :: fs) (x :: vs) (x' :: rest)).
    { destruct (IsExported field) eqn:Hexp.
      - apply evf_exported; assumption.
      - rewrite (Fun eq_refl). apply evf_unexported; assumption. }
    split; [exact Hfs'|]. constructor.
    + apply ev_struct, Hfs'.
    + congruence.
    + exists (l1 ++ l2). rewrite Rse, Fse, app_assoc. reflexivity.
    + lia.
    + simpl in *. lia.
    + rewrite has_type_struct_cons, Fty, Rty. reflexivity.
    + intros [Hc Hnamed] pos k y Hleaf.
      rewrite named_struct_cons in Hnamed.
      apply andb_prop in Hnamed as [[Hname Hnft]%andb_prop Hnfs].
      apply negb_true_iff, Str_is_empty_false in Hname.
      destruct pos as [|[|j] pos]; [discriminate| |].
      * eapply Fle; eauto.
      * change (getLeaf (TStruct name fs) (VStruct vs) (j :: pos) = Some (k, y)) in Hleaf.
        change (getLeaf (TStruct name fs) (VStruct rest) (j :: pos)
                = Some (k, flagAssigned lib env (flags s) (TStruct name fs) prefix
                             (j :: pos) y)).
        rewrite <- Ffl. apply Rle; auto.
Qed.

Lemma applyFlagOverrides_elem_walked t : walked lib env t.
Proof.
  induction t as [k|elem IH|name fields IH] using Ty_walk_ind;
    intros v canAddr prefix s v' s' Hty Hrun;
    rewrite applyFlagOverrides_elem_unfold in Hrun;
    apply bind_Ok in Hrun; destruct Hrun as (cmd & s0 & Hget & Hrun);
    rewrite get_flags_Ok in Hget; injection Hget as <- <-;
    apply bind_Ok in Hrun; destruct Hrun as (v1 & s1 & Henv & Hrun);
    apply fromEnv_phase in Henv; try exact Hty.
  - assert (v' = v1 /\ s' = s1) as [-> ->] by (destruct v1; inv_run; auto).
    eapply changed_ext; [| |exact Henv]; [tauto|].
    intros _ pos y. unfold overrideAt.
    rewrite flagAssigned_not_struct by discriminate. reflexivity.
  - assert (v' = v1 /\ s' = s1) as [-> ->] by (destruct v1; inv_run; auto).
    eapply changed_ext; [| |exact Henv]; [tauto|].
    intros _ pos y. unfold overrideAt.
    rewrite flagAssigned_not_struct by discriminate. reflexivity.
  - destruct v1 as [| | | | | |vals1]; try discriminate Hrun.
    apply bind_Ok in Hrun. destruct Hrun as (vals' & s2 & Hloop & Hret).
    apply ret_Ok in Hret. destruct Hret as [-> ->].
    eapply applyFlagOverrides_fields_changed in Hloop; [|exact IH|apply Henv].
    destruct Hloop as [_ Hloop].
    rewrite (as_flags _ _ _ _ _ _ _ Henv) in Hloop.
    eapply changed_ext; [| |eapply changed_compose; [|exact Hloop]].
    + intros H. exact H.
    + intros _ pos y. reflexivity.
    + eapply changed_ext; [| |exact Henv]; [tauto | reflexivity].
Qed.

End WalkAll.

(** ** Leaves, kinds and flags *)

Lemma getLeaf_flagAt_kind t :
  forall v pos prefix k y n k',
    getLeaf t v pos = Some (k, y) ->
    flagAt t pos prefix = Some (n, k') ->
    k' = k.
Proof.
  intros v pos. revert t v. induction pos as [|i pos IH]; intros t v prefix k y n k' Hleaf Hflag.
  - destruct t; discriminate.
  - destruct t as [| |name fields]; try discriminate.
    destruct v as [| | | | | |vals]; try discriminate.
    cbn [getLeaf flagAt] in *.
    destruct (fields !! i) as [[field ft]|]; [|discriminate].
    destruct (vals !! i) as [x|]; [|discriminate].
    destruct (IsExported field); [|discriminate].
    destruct ft as [k0|elem|sname sfields].
    + destruct pos; [|destruct x; discriminate].
      destruct (supported k0); [|discriminate]. congruence.
    + destruct x as [| | | | |[[a x0]|]|]; try discriminate.
      destruct pos; [discriminate|]. eapply IH; eauto.
    + destruct pos; [discriminate|]. eapply IH; eauto.
Qed.

(** ** The walk when no flag of a leaf was set *)

Section WalkUnchanged.
Context (lib : GoLib) (env : Environ).

Lemma quiet_head cmd name field ft fs prefix :
  quiet cmd (TStruct name ((field, ft) :: fs)) prefix ->
  IsExported field = true ->
  (forall k, ft = TBasic k -> supported k = true ->
     pflag.IsChanged cmd (joinName prefix (tagName field)) = false)
  /\ (forall elem, ft = TPtr elem -> quiet cmd elem (joinName prefix (tagName field)))
  /\ (forall n fs', ft = TStruct n fs' -> quiet cmd ft (joinName prefix (tagName field))).
Proof.
  intros Hq Hexp. repeat split.
  - intros k -> Hk. apply (Hq [O] _ k). cbn. rewrite Hexp, Hk. reflexivity.
  - intros elem -> pos n k Hflag. destruct pos as [|j pos]; [destruct elem; discriminate|].
    apply (Hq (O :: j :: pos) n k). cbn [flagAt lookup list_lookup].
    rewrite Hexp. exact Hflag.
  - intros sn sfs -> pos n k Hflag. destruct pos as [|j pos]; [discriminate|].
    apply (Hq (O :: j :: pos) n k). cbn [flagAt lookup list_lookup].
    rewrite Hexp. exact Hflag.
Qed.

Lemma quiet_tail cmd name field ft fs prefix :
  quiet cmd (TStruct name ((field, ft) :: fs)) prefix ->
  quiet cmd (TStruct name fs) prefix.
Proof.
  intros Hq pos n k Hflag. destruct pos as [|j pos]; [discriminate|].
  apply (Hq (S j :: pos) n k). exact Hflag.
Qed.

Lemma fromEnvPhase_nested t v canAddr prefix s :
  Str.is_empty prefix = false -> fromEnvPhase lib env t v canAddr prefix s = Ok (v, s).
Proof. intros H. unfold fromEnvPhase. rewrite H. reflexivity. Qed.

Lemma applyFlagOverrides_fields_unwalked fs :
  Forall (fun ft => unwalked lib env (snd ft)
                    /\ forall elem, snd ft = TPtr elem -> unwalked lib env elem) fs ->
  forall name vals prefix s,
    has_type (TStruct name fs) (VStruct vals) = true ->
    named (TStruct name fs) = true ->
    quiet (flags s) (TStruct name fs) prefix ->
    forFields (applyFlagOverrides_field lib env (applyFlagOverrides_elem lib env)
                 true prefix) fs vals s = Ok (vals, s).
Proof.
  induction 1 as [|[field ft] fs [Hft Helem] _ IHfs];
    intros name vals prefix s Hty Hnamed Hquiet.
  - destruct vals; [reflexivity | discriminate].
  - destruct vals as [|x vals]; [discriminate|].
    rewrite has_type_struct_cons in Hty. apply andb_prop in Hty as [Hx Hvals].
    rewrite named_struct_cons in Hnamed.
    apply andb_prop in Hnamed as [[Hname Hnft]%andb_prop Hnfs].
    apply negb_true_iff, Str_is_empty_false in Hname.
    cbn [snd] in Hft, Helem. cbn [forFields].
    assert (Hfield : applyFlagOverrides_field lib env (applyFlagOverrides_elem lib env)
                       true prefix field ft x s = Ok (x, s)).
    { unfold applyFlagOverrides_field.
      destruct (IsExported field) eqn:Hexp; [|reflexivity]. cbn [negb].
      destruct (quiet_head _ _ _ _ _ _ Hquiet Hexp) as (Hqb & Hqp & Hqs).
      destruct ft as [k|elem|sname sfields].
      - destruct k, x; try discriminate Hx; try reflexivity;
          unfold mbind, M_bind; rewrite get_flags_Ok;
          rewrite (Hqb _ eq_refl eq_refl); reflexivity.
      - destruct x as [| | | | |[[a x0]|]|]; try discriminate Hx; [|reflexivity].
        assert (Hrec := Helem elem eq_refl x0 _ s Hx Hnft (Hqp _ eq_refl)).
        rewrite fromEnvPhase_nested in Hrec by auto using joinName_nonempty.
        rewrite (bind_Ok_intro _ _ _ _ _ Hrec). reflexivity.
      - destruct x as [| | | | | |svals]; try discriminate Hx.
        rewrite Hft; auto.
        + apply fromEnvPhase_nested. auto using joinName_nonempty.
        + eapply Hqs. reflexivity. }
    rewrite (bind_Ok_intro _ _ _ _ _ Hfield).
    rewrite (bind_Ok_intro _ _ _ _ _
               (IHfs name vals prefix s Hvals Hnfs (quiet_tail _ _ _ _ _ _ Hquiet))).
    reflexivity.
Qed.

Lemma applyFlagOverrides_elem_phase t v canAddr prefix s :
  applyFlagOverrides_elem lib env t v canAddr prefix s
  = match fromEnvPhase lib env t v canAddr prefix s with
    | Ok (v1, s1) =>
        match t, v1 with
        | TStruct _ fields, VStruct vals =>
            vals' ← forFields
                      (applyFlagOverrides_field lib env (applyFlagOverrides_elem lib env)
                         canAddr prefix) fields vals;
            mret (VStruct vals')
        | TStruct _ _, _ => panic NotAReflectValue
        | _, _ => mret v1
        end s1
    | Panic r => Panic r
    end.
Proof. rewrite applyFlagOverrides_elem_unfold. reflexivity. Qed.

Lemma applyFlagOverrides_elem_unwalked t : unwalked lib env t.
Proof.
  induction t as [k|elem IH|name fields IH] using Ty_walk_ind;
    intros v prefix s Hty Hnamed Hquiet;
    rewrite applyFlagOverrides_elem_phase.
  - destruct (fromEnvPhase lib env _ v true prefix s) as [[v1 s1]|]; [|reflexivity].
    destruct v1; reflexivity.
  - destruct (fromEnvPhase lib env _ v true prefix s) as [[v1 s1]|]; [|reflexivity].
    destruct v1; reflexivity.
  - destruct (fromEnvPhase lib env _ v true prefix s) as [[v1 s1]|] eqn:Hphase; [|reflexivity].
    unfold fromEnvPhase in Hphase. apply fromEnv_phase in Hphase; [|exact Hty].
    pose proof (as_type _ _ _ _ _ _ _ Hphase) as Hty1.
    pose proof (as_flags _ _ _ _ _ _ _ Hphase) as Hfl1.
    destruct v1 as [| | | | | |vals1]; try discriminate Hty1.
    rewrite <- Hfl1 in Hquiet.
    rewrite (bind_Ok_intro _ _ _ _ _
               (applyFlagOverrides_fields_unwalked _ IH name vals1 prefix s1
                  Hty1 Hnamed Hquiet)).
    reflexivity.
Qed.

End WalkUnchanged.

(** ** The entry point *)

Section Entry.
Context (lib : GoLib) (env : Environ) (w : World).

Lemma New_unfold configObject s :
  New lib env w configObject s
  = match registerFlags configObject "" (fresh s) with
    | Ok (obj, s1) =>
        match Execute w (flags s1) with
        | inl e => Ok ({| object := obj; result := None; err := Some e |}, s1)
        | inr cmd =>
            match filePhase w (fst configObject) cmd obj with
            | (obj', Some e) =>
                Ok ({| object := obj'; result := None; err := Some e |}, with_flags cmd s1)
            | (obj', None) =>
                match applyFlagOverrides lib env (fst configObject, obj') ""
                        (with_flags cmd s1) with
                | Ok (obj'', s') =>
                    Ok ({| object := obj''; result := Some obj''; err := None |}, s')
                | Panic r => Panic r
                end
            end
        end
    | Panic r => Panic r
    end.
Proof.
  unfold New.
  erewrite bind_Ok_intro by reflexivity.
  erewrite bind_Ok_intro by reflexivity.
  erewrite bind_Ok_intro by reflexivity.
  change {| flags := _; stderr := _; next := _ |} with (fresh s).
  unfold mbind at 1, M_bind at 1.
  destruct (registerFlags configObject "" (fresh s)) as [[obj s1]|r]; [|reflexivity].
  unfold mbind at 1, M_bind at 1. rewrite get_flags_Ok.
  destruct (Execute w (flags s1)) as [e|cmd]; [reflexivity|].
  unfold mbind at 1, M_bind at 1. cbn [set_flags]. fold (with_flags cmd s1).
  unfold filePhase.
  destruct (negb (Str.is_empty (pflag.GetString cmd "config"))).
  - destruct (ReadFile w (pflag.GetString cmd "config")) as [e|data]; [reflexivity|].
    destruct (Unmarshal w data (fst configObject, obj)) as [obj' [e|]]; reflexivity.
  - reflexivity.
Qed.




End Entry.

(** ** The three phases on the object behind [config] *)

Ltac inv_bind_ret H x :=
  let s1 := fresh "s" in
  let Hret := fresh "Hret" in
  apply bind_Ok in H; destruct H as (x & s1 & H & Hret);
  apply ret_Ok in Hret; destruct Hret as [-> ->].

Section Phases.
Context (lib : GoLib) (env : Environ).

Lemma grown_ptr t a v s v' s' :
  evolves t v v' -> (next s <= next s')%nat ->
  live_ptrs v' = (live_ptrs v + (next s' - next s))%nat ->
  grown (TPtr t) (VPtr (Some (a, v))) s (VPtr (Some (a, v'))) s'.
Proof.
  intros Hev Hne Hli. repeat split; [apply ev_ptr, Hev | exact Hne | simpl; lia].
Qed.

Lemma registerFlags_grown T obj prefix s obj' s' :
  registerFlags (T, obj) prefix s = Ok (obj', s') ->
  grown T obj s obj' s'.
Proof.
  unfold registerFlags. intros Hrun.
  assert (Helem : forall c, registerFlags_elem T obj c prefix s = Ok (obj', s') ->
                            grown T obj s obj' s').
  { intros c H. apply registerFlags_elem_registered in H. destruct H.
    repeat split; assumption. }
  destruct T as [k|t|name fields]; eauto.
  destruct obj as [| | | | |[[a v]|]|]; try discriminate Hrun.
  inv_bind_ret Hrun v'. apply registerFlags_elem_registered in Hrun. destruct Hrun.
  apply grown_ptr; assumption.
Qed.

Lemma changed_grown ok f t v s v' s' :
  changed ok f t v s v' s' -> grown t v s v' s'.
Proof. intros [Hev _ _ Hne Hli _ _]. repeat split; assumption. Qed.

Lemma setValueByPath_grown T obj path value s obj' s' :
  has_type T obj = true ->
  setValueByPath lib (T, obj) path value s = Ok (obj', s') ->
  grown T obj s obj' s'.
Proof.
  unfold setValueByPath. intros Hty Hrun.
  assert (Helem : forall c, setValueByPath_from lib T obj c path value s = Ok (obj', s') ->
                            grown T obj s obj' s').
  { intros c H. apply setValueByPath_from_assigned in H; [|exact Hty].
    eapply changed_grown, H. }
  destruct T as [k|t|name fields]; eauto.
  destruct obj as [| | | | |[[a v]|]|]; try discriminate Hrun.
  - inv_bind_ret Hrun v'. apply setValueByPath_from_assigned in Hrun; [|exact Hty].
    apply changed_grown in Hrun. destruct Hrun as (? & ? & ?). apply grown_ptr; assumption.
  - destruct (splitLast (Split path ".")) as [[[|segment front] lastSegment]|];
      inv_run; (repeat split; [apply ev_same | simpl; lia | simpl; lia]).
Qed.

Lemma applyFlagOverrides_grown T obj prefix s obj' s' :
  has_type T obj = true ->
  applyFlagOverrides lib env (T, obj) prefix s = Ok (obj', s') ->
  grown T obj s obj' s'.
Proof.
  unfold applyFlagOverrides. intros Hty Hrun.
  assert (Helem : forall c, applyFlagOverrides_elem lib env T obj c prefix s = Ok (obj', s') ->
                            grown T obj s obj' s').
  { intros c H. apply applyFlagOverrides_elem_walked in H; [|exact Hty].
    eapply changed_grown, H. }
  destruct T as [k|t|name fields]; eauto.
  destruct obj as [| | | | |[[a v]|]|]; try discriminate Hrun.
  inv_bind_ret Hrun v'. apply applyFlagOverrides_elem_walked in Hrun; [|exact Hty].
  apply changed_grown in Hrun. destruct Hrun as (? & ? & ?). apply grown_ptr; assumption.
Qed.


End Phases.

(** ** Fields by position *)

Lemma evolves_fields_lookup fs vs vs' i field ft x :
  evolves_fields fs vs vs' ->
  fs !! i = Some (field, ft) ->
  vs !! i = Some x ->
  exists x', vs' !! i = Some x'
             /\ (if IsExported field then evolves ft x x' else x' = x).
Proof.
  intros H. revert i. induction H as [|f0 ft0 fs v v' vs vs' Hexp Hev _ IH
                                        |f0 ft0 fs v vs vs' Hexp _ IH]; intros i Hi Hx.
  - discriminate.
  - destruct i as [|i]; simpl in *.
    + injection Hi as -> ->. injection Hx as ->. exists v'. rewrite Hexp. auto.
    + eauto.
  - destruct i as [|i]; simpl in *.
    + injection Hi as -> ->. injection Hx as ->. exists x. rewrite Hexp. auto.
    + eauto.
Qed.

Lemma evolves_fieldAt pos :
  forall t v v' field x,
    evolves t v v' ->
    fieldAt t v pos = Some (field, x) ->
    exists x', fieldAt t v' pos = Some (field, x')
               /\ (IsExported field = false -> x' = x).
Proof.
  induction pos as [|i pos IH]; intros t v v' field x Hev Hat; [discriminate|].
  assert (Hstep : forall t0 v0 v0',
             evolves t0 v0 v0' ->
             match t0, v0 with
             | TStruct _ fields, VStruct vals =>
                 match fields !! i, vals !! i with
                 | Some (field, ft), Some x =>
                     match pos with
                     | [] => Some (field, x)
                     | _ :: _ => fieldAt ft x pos
                     end
                 | _, _ => None
                 end
             | _, _ => None
             end = Some (field, x) ->
             exists x',
               match t0, v0' with
               | TStruct _ fields, VStruct vals =>
                   match fields !! i, vals !! i with
                   | Some (field, ft), Some x =>
                       match pos with
                       | [] => Some (field, x)
                       | _ :: _ => fieldAt ft x pos
                       end
                   | _, _ => None
                   end
               | _, _ => None
               end = Some (field, x')
               /\ (IsExported field = false -> x' = x)).
  { intros t0 v0 v0' Hev0 H0.
    inversion Hev0 as [| | | |name fields vals vals' Hfs]; subst; eauto; try discriminate.
    destruct (fields !! i) as [[f ft]|] eqn:Hfi; [|discriminate].
    destruct (vals !! i) as [y|] eqn:Hvi; [|discriminate].
    destruct (evolves_fields_lookup _ _ _ _ _ _ _ Hfs Hfi Hvi) as (y' & Hvi' & Hy).
    rewrite Hvi'. destruct pos as [|j pos].
    - injection H0 as -> ->. exists y'. split; [reflexivity|].
      intros Hexp. rewrite Hexp in Hy. exact Hy.
    - destruct (IsExported f) eqn:Hexp.
      + eapply IH; eauto.
      + subst y'. eauto. }
  cbn [fieldAt] in *.
  inversion Hev as [| |elem a x'|elem a x0 x0'|]; subst; eauto;
    cbn [indirect] in *; try discriminate;
    match goal with
    | H : evolves ?t0 ?a ?b |- _ => exact (Hstep t0 a b H Hat)
    end.
Qed.

(** ** Resolving a segment *)

Section Segments.
Context (lib : GoLib).


Lemma findField_cons field ft rest nameLower :
  findField lib ((field, ft) :: rest) nameLower
  = if (IsExported field && matchesb lib field nameLower)%bool then Name field
    else findField lib rest nameLower.
Proof.
  cbn [findField]. unfold matchesb.
  destruct (IsExported field); [|reflexivity]. cbn [negb andb].
  destruct (Str.eqb (ToLower lib (Name field)) nameLower); [reflexivity|].
  cbn [orb].
  destruct (negb (Str.is_empty (Tag_yaml field))
            && Str.eqb (ToLower lib (parts0 (Tag_yaml field))) nameLower)%bool;
    [reflexivity|].
  cbn [orb].
  destruct (negb (Str.is_empty (Tag_json field))
            && Str.eqb (ToLower lib (parts0 (Tag_json field))) nameLower)%bool;
    reflexivity.
Qed.



End Segments.

(** ** Unexported fields *)

Lemma leafFlags_fields_unexported rec prefix fs1 field ft fs2 vs1 x vs2 :
  length vs1 = length fs1 ->
  IsExported field = false ->
  leafFlags_fields rec prefix (fs1 ++ (field, ft) :: fs2) (vs1 ++ x :: vs2)
  = leafFlags_fields rec prefix (fs1 ++ fs2) (vs1 ++ vs2).
Proof.
  revert vs1. induction fs1 as [|[f0 ft0] fs1 IH]; intros [|x0 vs1] Hlen Hexp;
    try discriminate.
  - cbn [app leafFlags_fields]. unfold leafFlags_field. rewrite Hexp. reflexivity.
  - cbn [app leafFlags_fields]. rewrite IH; auto.
Qed.

Section Unexported.
Context (lib : GoLib) (env : Environ).

(** C9.  Unexported fields.  Resolving a segment never yields an
    unexported field: the result is empty or the name of an exported
    field of the struct.  No phase writes to one: wherever it sits in
    the object, an unexported field holds after registration, after
    an assignment by path and after the override walk the value it
    held before.  And no flag is registered for it or for anything
    below it: the flags registered for a struct are those of the
    struct without the field. *)
Theorem unexported_fields_untouched :
  (forall fields nameLower,
      findField lib fields nameLower = ""
      \/ exists field ft,
           In (field, ft) fields /\ IsExported field = true
           /\ Name field = findField lib fields nameLower)
  /\ (forall T obj prefix path value s obj' s',
        has_type T obj = true ->
        registerFlags (T, obj) prefix s = Ok (obj', s')
        \/ setValueByPath lib (T, obj) path value s = Ok (obj', s')
        \/ applyFlagOverrides lib env (T, obj) prefix s = Ok (obj', s') ->
        forall pos field x,
          fieldAt T obj pos = Some (field, x) ->
          IsExported field = false ->
          fieldAt T obj' pos = Some (field, x))
  /\ (forall name fs1 field ft fs2 vs1 x vs2 prefix s v' s',
        length vs1 = length fs1 ->
        IsExported field = false ->
        registerFlags_elem (TStruct name (fs1 ++ (field, ft) :: fs2))
          (VStruct (vs1 ++ x :: vs2)) true prefix s = Ok (v', s') ->
        flags s' = flags s
                   ++ leafFlags (TStruct name (fs1 ++ fs2)) (VStruct (vs1 ++ vs2)) prefix).
Proof.
  split; [|split].
  - intros fields nameLower. induction fields as [|[field ft] rest IH]; [left; reflexivity|].
    rewrite findField_cons.
    destruct (IsExported field && matchesb lib field nameLower)%bool eqn:E.
    + apply andb_prop in E as [Hexp _]. right. exists field, ft.
      repeat split; [left; reflexivity | exact Hexp].
    + destruct IH as [IH|(f & t & Hin & Hexp & Hname)]; [left; exact IH|].
      right. exists f, t. repeat split; [right; exact Hin | exact Hexp | exact Hname].
  - intros T obj prefix path value s obj' s' Hty Hphase pos field x Hat Hexp.
    assert (Hev : evolves T obj obj').
    { destruct Hphase as [H|[H|H]].
      - eapply registerFlags_grown, H.
      - eapply setValueByPath_grown; eauto.
      - eapply applyFlagOverrides_grown; eauto. }
    destruct (evolves_fieldAt _ _ _ _ _ _ Hev Hat) as (x' & Hat' & Hx').
    rewrite Hat', (Hx' Hexp). reflexivity.
  - intros name fs1 field ft fs2 vs1 x vs2 prefix s v' s' Hlen Hexp Hrun.
    apply registerFlags_elem_registered in Hrun.
    rewrite (reg_flags _ _ _ _ _ _ _ Hrun eq_refl), !leafFlags_struct.
    rewrite leafFlags_fields_unexported by assumption. reflexivity.
Qed.

End Unexported.

(** ** Entries that are skipped *)

Section Skipped.
Context (lib : GoLib) (env : Environ) (w : World).

Lemma fromEnvPair_skipped t v canAddr pair_ d s :
  skipped lib env pair_ = Some d ->
  fromEnvPair lib env t v canAddr pair_ s = Ok (v, log d s).
Proof.
  unfold skipped, fromEnvPair.
  destruct (negb (Nat.eqb (length (SplitN2 pair_ "::")) 2)).
  - intros [= <-]. reflexivity.
  - destruct (Str.is_empty _); [|discriminate]. intros [= <-]. reflexivity.
Qed.

Lemma fromEnvPairs_skipped t v canAddr pairs :
  forall s,
    Forall (fun p => is_Some (skipped lib env p)) pairs ->
    exists l, length l = length pairs
              /\ fromEnvPairs lib env t v canAddr pairs s = Ok (v, logs l s).
Proof.
  induction pairs as [|p pairs IH]; intros s Hall.
  - exists []. split; [reflexivity|]. cbn. unfold logs. rewrite app_nil_r.
    destruct s; reflexivity.
  - apply Forall_cons in Hall as [[d Hd] Hall].
    destruct (IH (log d s) Hall) as (l & Hlen & Hrun).
    exists (d :: l). split; [simpl; lia|].
    cbn [fromEnvPairs]. rewrite (bind_Ok_intro _ _ _ _ _ (fromEnvPair_skipped _ _ _ _ _ _ Hd)).
    rewrite Hrun. unfold logs, log. cbn [flags stderr next].
    rewrite <- app_assoc. reflexivity.
Qed.

(** C6.  An entry of [--from-env] that is malformed, or whose
    variable is unset or empty, is skipped with its warning: the turn
    of the loop returns the object as it was, with the warning on the
    diagnostic stream, and the loop goes on with the next entry.  A
    list of such entries leaves the object as it was; and when [New]
    gets nothing but such entries (no flag of a leaf set, no file),
    it returns the object as registration left it, with a nil
    error. *)
Theorem skipped_entries_change_nothing t v canAddr pair_ d :
  skipped lib env pair_ = Some d ->
  (forall s rest,
      fromEnvPair lib env t v canAddr pair_ s = Ok (v, log d s)
      /\ fromEnvPairs lib env t v canAddr (pair_ :: rest) s
         = fromEnvPairs lib env t v canAddr rest (log d s))
  /\ (forall s pairs,
        Forall (fun p => is_Some (skipped lib env p)) pairs ->
        exists l, length l = length pairs
                  /\ fromEnvPairs lib env t v canAddr pairs s = Ok (v, logs l s))
  /\ (forall a v0 s v1 s1 cmd,
        named t = true ->
        registerFlags (TPtr t, VPtr (Some (a, v0))) "" (fresh s)
        = Ok (VPtr (Some (a, v1)), s1) ->
        has_type t v1 = true ->
        Execute w (flags s1) = inr cmd ->
        pflag.GetString cmd "config" = "" ->
        quiet cmd t "" ->
        Forall (fun p => is_Some (skipped lib env p)) (fromEnvOf cmd) ->
        exists l,
          length l = length (fromEnvOf cmd)
          /\ New lib env w (TPtr t, VPtr (Some (a, v0))) s
             = Ok ({| object := VPtr (Some (a, v1));
                      result := Some (VPtr (Some (a, v1)));
                      err := None |}, logs l (with_flags cmd s1))).
Proof.
  intros Hd. split; [|split].
  - intros s rest. split; [apply fromEnvPair_skipped, Hd|].
    cbn [fromEnvPairs].
    rewrite (bind_Ok_intro _ _ _ _ _ (fromEnvPair_skipped _ _ _ _ _ _ Hd)). reflexivity.
  - intros s pairs. apply fromEnvPairs_skipped.
  - intros a v0 s v1 s1 cmd Hnamed Hreg Hty Hexec Hconfig Hquiet Hall.
    destruct (fromEnvPairs_skipped t v1 true (fromEnvOf cmd) (with_flags cmd s1) Hall)
      as (l & Hlen & Hrun).
    exists l. split; [exact Hlen|].
    rewrite New_unfold, Hreg, Hexec. unfold filePhase. rewrite Hconfig. cbn [Str.is_empty negb fst].
    unfold applyFlagOverrides.
    assert (Hwalk : applyFlagOverrides_elem lib env t v1 true "" (with_flags cmd s1)
                    = Ok (v1, logs l (with_flags cmd s1))).
    { rewrite applyFlagOverrides_elem_unwalked by assumption.
      rewrite <- Hrun. unfold fromEnvPhase, fromEnvOf. cbn [Str.is_empty andb flags with_flags].
      destruct (pflag.IsChanged cmd "from-env"); reflexivity. }
    rewrite (bind_Ok_intro _ _ _ _ _ Hwalk). reflexivity.
Qed.

End Skipped.

(** ** Where inline substitution happens *)

Lemma getLeaf_pathTarget_kind lib front :
  forall t v lastSegment pos k k' y,
    pathTarget lib t front lastSegment = Some (pos, k) ->
    getLeaf t v pos = Some (k', y) ->
    k' = k.
Proof.
  induction front as [|segment front IH]; intros t v lastSegment pos k k' y Hpath Hleaf;
    destruct t as [| |name fields]; try discriminate Hpath; cbn [pathTarget] in Hpath;
    destruct (Str.is_empty _); try discriminate Hpath;
    destruct (FieldByName fields _) as [i|]; try discriminate Hpath;
    cbn [mbind option_bind] in Hpath;
    destruct (fields !! i) as [[field ft]|] eqn:Hfi; try discriminate Hpath;
    cbn [mbind option_bind] in Hpath.
  - destruct ft as [k0| |]; try discriminate Hpath.
    destruct (IsExported field && supported k0)%bool; [|discriminate Hpath].
    injection Hpath as <- <-.
    destruct v as [| | | | | |vals]; try discriminate Hleaf. cbn [getLeaf] in Hleaf.
    rewrite Hfi in Hleaf. destruct (vals !! i); [|discriminate Hleaf].
    destruct (supported k0); congruence.
  - assert (Hsub : exists et pos',
               pathTarget lib et front lastSegment = Some (pos', k) /\ pos = i :: pos'
               /\ (ft = TPtr et \/ (ft = et /\ exists n fs, et = TStruct n fs))).
    { destruct ft as [k0|elem|sname sfields]; [discriminate Hpath| |].
      - destruct (pathTarget lib elem front lastSegment) as [[pos' k1]|] eqn:E;
          [|discriminate Hpath].
        injection Hpath as <- <-. eauto 10.
      - destruct (pathTarget lib (TStruct sname sfields) front lastSegment)
          as [[pos' k1]|] eqn:E; [|discriminate Hpath].
        injection Hpath as <- <-. eauto 10. }
    destruct Hsub as (et & pos' & Hsub & -> & Hft).
    destruct v as [| | | | | |vals]; try discriminate Hleaf. cbn [getLeaf] in Hleaf.
    rewrite Hfi in Hleaf. destruct (vals !! i) as [x|]; [|discriminate Hleaf].
    destruct Hft as [->|[-> (n & fs & ->)]].
    + destruct x as [| | | | |[[a x0]|]|]; try discriminate Hleaf.
      destruct pos'; [discriminate Hleaf|]. eapply IH; eauto.
    + destruct pos'; [discriminate Hleaf|]. eapply IH; eauto.
Qed.

Section Substitution.
Context (lib : GoLib) (env : Environ).

(** C3, as the code has it.  A [--from-env] entry stores in a text
    leaf the value of its environment variable as it is, with no
    inline substitution; it is the override walk that substitutes,
    in the value of a text leaf's own flag. *)
Theorem fromEnv_value_stored_as_is t v s v' s' pos y :
  has_type t v = true ->
  getLeaf t v pos = Some (Kind.String, y) ->
  (forall pair_ x,
      fromEnvPair lib env t v true pair_ s = Ok (v', s') ->
      pairAssigns lib env t pair_ = Some (pos, x) ->
      x = VString (Getenv env (TrimSpace lib (nth 1 (SplitN2 pair_ "::") "")))
      /\ getLeaf t v' pos = Some (Kind.String, x))
  /\ (forall n,
        named t = true ->
        applyFlagOverrides_elem lib env t v true "" s = Ok (v', s') ->
        flagNameAt t pos "" = Some n ->
        pflag.IsChanged (flags s) n = true ->
        getLeaf t v' pos
        = Some (Kind.String,
                VString (resolveEnvVar env (pflag.GetString (flags s) n)))).
Proof.
  intros Hty Hleaf. split.
  - intros pair_ x Hrun Hassign.
    pose proof (fromEnvPair_assigned lib env _ _ _ _ _ _ _ Hty Hrun) as Hch.
    rewrite (as_leaf _ _ _ _ _ _ _ Hch eq_refl _ _ _ Hleaf), Hassign.
    cbn [assignedAt]. rewrite bool_decide_eq_true_2 by reflexivity.
    split; [|reflexivity].
    unfold pairAssigns in Hassign.
    destruct (Nat.eqb (length (SplitN2 pair_ "::")) 2); [|discriminate Hassign].
    destruct (Str.is_empty _); [discriminate Hassign|].
    destruct (splitLast _) as [[front lastSegment]|]; [|discriminate Hassign].
    cbn [mbind option_bind fst snd] in Hassign. unfold assignment in Hassign.
    destruct (pathTarget lib t front lastSegment) as [[pos' k]|] eqn:Hpath;
      [|discriminate Hassign].
    cbn [mbind option_bind fst snd] in Hassign.
    destruct (convert lib k _) as [x'|] eqn:Hconv; [|discriminate Hassign].
    injection Hassign as -> ->.
    rewrite <- (getLeaf_pathTarget_kind _ _ _ _ _ _ _ _ _ Hpath Hleaf) in Hconv.
    cbn [convert] in Hconv. congruence.
  - intros n Hnamed Hrun Hname Hch.
    apply applyFlagOverrides_elem_walked in Hrun; [|exact Hty].
    rewrite (as_leaf _ _ _ _ _ _ _ Hrun (conj eq_refl Hnamed) _ _ _ Hleaf).
    f_equal. f_equal. unfold overrideAt, flagAssigned, flagNameAt in *.
    destruct (flagAt t pos "") as [[n' k']|] eqn:Hflag; [|discriminate Hname].
    injection Hname as ->.
    rewrite (getLeaf_flagAt_kind _ _ _ _ _ _ _ _ Hleaf Hflag), Hch. reflexivity.
Qed.

End Substitution.

(** C3 as stated fails: with [MY_HOST=$HOME] and
    [HOME=/root], [--from-env server.host::MY_HOST] leaves ["$HOME"] in
    [Server.Host], not what substitution makes of it, ["/root"]. *)
Lemma fromEnv_value_not_substituted :
  exists r s' v',
    New ascii_lib Example.environ
      (Example.world [("from-env", pflag.StringSliceValue ["server.host::MY_HOST"])])
      Example.cfg Example.start = Ok (r, s')
    /\ object r = VPtr (Some (O, v'))
    /\ Getenv Example.environ "MY_HOST" = "$HOME"
    /\ getLeaf Example.Config v' [O; O] = Some (Kind.String, VString "$HOME")
    /\ VString (resolveEnvVar Example.environ "$HOME") <> VString "$HOME".
Proof.
  eexists _, _, _. split; [vm_compute; reflexivity|].
  split; [reflexivity|]. split; [vm_compute; reflexivity|].
  split; [vm_compute; reflexivity|]. vm_compute. discriminate.
Qed.

(** C5 fails on a path that goes below a pointer to a value that is
    not a struct: with [Timeout *int], [--from-env timeout.x::HOME]
    makes [New] panic in [findFieldByNameOrTag] (NumField of a
    non-struct type) where it should warn, skip the entry and return
    the object with a nil error. *)
Lemma New_panics_below_pointer_to_int :
  New ascii_lib Example.environ
    (Example.world [("from-env", pflag.StringSliceValue ["timeout.x::HOME"])])
    Example.cfg Example.start = Panic NumFieldOfNonStruct.
Proof. vm_compute. reflexivity. Qed.

(** ** Allocation without assignment *)

Lemma setValueByPath_elem_allocates lib front :
  forall lastSegment path value t v canAddr s v' s',
    has_type t v = true ->
    setValueByPath_elem lib front lastSegment path value t v canAddr s = Ok (v', s') ->
    allocatedAlong lib t v' front = true.
Proof.
  induction front as [|segment front IH];
    intros lastSegment path value t v canAddr s v' s' Hty Hrun; [reflexivity|].
  cbn [setValueByPath_elem] in Hrun.
  destruct t as [k|elem|name fields]; [destruct v'; reflexivity..|].
  destruct v as [| | | | | |vals]; try discriminate Hrun.
  cbn [allocatedAlong]; cbv zeta.
  destruct (Str.is_empty (findField lib fields (ToLower lib segment))) eqn:Hempty.
  { inv_run. cbn [allocatedAlong]; cbv zeta. rewrite ?Hempty. reflexivity. }
  destruct (FieldByName fields (findField lib fields (ToLower lib segment)))
    as [i|] eqn:Hi.
  2:{ inv_run. cbn [allocatedAlong]; cbv zeta. rewrite ?Hempty, ?Hi. reflexivity. }
  destruct (fields !! i) as [[field ft]|] eqn:Hfi; [|discriminate Hrun].
  destruct (has_type_field _ _ _ _ _ _ Hty Hfi) as (fv & Hvi & Htf).
  rewrite Hvi in Hrun.
  assert (Hlt : (i < length vals)%nat) by (eapply lookup_lt_Some, Hvi).
  destruct ft as [k|elem|sname sfields].
  - assert (v' = VStruct vals) as -> by (destruct fv; inv_run; reflexivity).
    cbn [allocatedAlong]; cbv zeta. rewrite ?Hempty, ?Hi, ?Hfi. reflexivity.
  - destruct fv as [| | | | |target|]; try discriminate Htf.
    destruct (IsExported field); [|discriminate Hrun]. cbn [negb] in Hrun.
    apply bind_Ok in Hrun. destruct Hrun as ([a x0] & s0 & Halloc & Hrun).
    apply bind_Ok in Hrun. destruct Hrun as (x' & s1 & Hrec & Hret).
    apply ret_Ok in Hret. destruct Hret as [-> ->]. cbn [fst snd] in *.
    assert (Htx : has_type elem x0 = true).
    { destruct target as [[a1 x1]|].
      - inv_run. injection H as -> ->. exact Htf.
      - destruct canAddr; [|discriminate Halloc].
        apply reflect_New_Ok in Halloc. destruct Halloc as [[= -> ->] _].
        apply has_type_zero. }
    cbn [allocatedAlong]; cbv zeta. rewrite ?Hempty, ?Hi, ?Hfi.
    rewrite list_lookup_insert_eq by exact Hlt. eapply IH; eauto.
  - assert (Hs : exists svals, fv = VStruct svals).
    { destruct fv; try discriminate Htf. eauto. }
    destruct Hs as [svals ->].
    destruct canAddr; [|discriminate Hrun]. cbn [negb] in Hrun.
    destruct (IsExported field); [|discriminate Hrun]. cbn [negb] in Hrun.
    apply bind_Ok in Hrun. destruct Hrun as (x' & s1 & Hrec & Hret).
    apply ret_Ok in Hret. destruct Hret as [-> ->].
    cbn [allocatedAlong]; cbv zeta. rewrite ?Hempty, ?Hi, ?Hfi.
    rewrite list_lookup_insert_eq by exact Hlt. eapply IH; eauto.
Qed.

(** The flags as registration leaves them: none is marked changed. *)
Lemma leafFlags_unchanged t :
  forall v prefix, Forall (fun fl => pflag.Changed fl = false) (leafFlags t v prefix).
Proof.
  induction t as [k|elem IH|name fields IH] using Ty_walk_ind; intros v prefix;
    try (destruct v; constructor).
  destruct v as [| | | | | |vals]; try constructor.
  rewrite leafFlags_struct. revert vals.
  induction IH as [|[field ft] fs [Hft Helem] _ IHfs]; intros vals; [constructor|].
  destruct vals as [|x vals]; [constructor|].
  cbn [leafFlags_fields]. apply Forall_app. split; [|apply IHfs].
  unfold leafFlags_field. cbn [snd] in *. destruct (IsExported field); [|constructor].
  destruct ft as [k|elem|sname sfields].
  - destruct k, x; repeat constructor.
  - destruct x as [| | | | |[[a y]|]|]; apply (Helem elem eq_refl).
  - apply Hft.
Qed.

Lemma IsChanged_unchanged f name :
  Forall (fun fl => pflag.Changed fl = false) f -> pflag.IsChanged f name = false.
Proof.
  unfold pflag.IsChanged. induction 1 as [|fl f Hfl _ IH]; [reflexivity|].
  cbn [pflag.Lookup]. destruct (Str.eqb (pflag.Name fl) name); [exact Hfl | exact IH].
Qed.

Section Allocation.
Context (lib : GoLib) (env : Environ) (w : World).

Lemma New_without_arguments t a v0 s :
  has_type t v0 = true ->
  named t = true ->
  NoDup (pflag.names (flags (fresh s)) ++ pflag.names (leafFlags t v0 "")) ->
  (forall f, Execute w f = inr f) ->
  exists v1 s',
    New lib env w (TPtr t, VPtr (Some (a, v0))) s
    = Ok ({| object := VPtr (Some (a, v1)); result := Some (VPtr (Some (a, v1)));
             err := None |}, s')
    /\ all_allocated t v1 = true
    /\ (forall pos k y, getLeaf t v0 pos = Some (k, y) -> getLeaf t v1 pos = Some (k, y))
    /\ (all_allocated t v0 = false -> v1 <> v0).
Proof.
  intros Hty Hnamed Hnd Hexec.
  destruct (registerFlags_elem_total t v0 "" (fresh s) Hty Hnd) as (v1 & s1 & Hreg).
  pose proof (registerFlags_elem_registered _ _ _ _ _ _ _ Hreg) as R.
  pose proof (reg_flags _ _ _ _ _ _ _ R eq_refl) as Hflags.
  assert (Hunch : forall n, pflag.IsChanged (flags s1) n = false).
  { intros n. apply IsChanged_unchanged. rewrite Hflags. apply Forall_app. split.
    - repeat constructor.
    - apply leafFlags_unchanged. }
  assert (Hwalk : applyFlagOverrides_elem lib env t v1 true "" (with_flags (flags s1) s1)
                  = Ok (v1, with_flags (flags s1) s1)).
  { rewrite applyFlagOverrides_elem_unwalked.
    - unfold fromEnvPhase. cbn [flags with_flags]. rewrite Hunch, andb_false_r.
      reflexivity.
    - apply R, Hty.
    - exact Hnamed.
    - intros pos n k _. apply Hunch. }
  exists v1, (with_flags (flags s1) s1). split; [|split; [|split]].
  - rewrite New_unfold. unfold registerFlags.
    rewrite (bind_Ok_intro _ _ _ _ _ Hreg). cbn [mret M_ret].
    rewrite Hexec. unfold filePhase.
    replace (pflag.GetString (flags s1) "config") with "".
    2:{ rewrite Hflags. reflexivity. }
    cbn [Str.is_empty negb fst]. unfold applyFlagOverrides.
    rewrite (bind_Ok_intro _ _ _ _ _ Hwalk). reflexivity.
  - apply R. reflexivity.
  - apply R.
  - intros Hnil ->. rewrite (reg_alloc _ _ _ _ _ _ _ R eq_refl) in Hnil. discriminate.
Qed.

(** C10.  Resolution changes the object without assigning a leaf.
    Registration leaves no exported pointer within reach nil, and the
    leaves as they were; so [New] without arguments (no flag set, no
    file, no mapping) returns, with a nil error, an object whose
    optional structs are all allocated, a different object when one
    of them was nil.  And an assignment by path that returns leaves
    every pointer on the way of its navigation non-nil, whatever
    became of its last segment: with [Optional] nil, a path to an
    unknown field of it, or one to a leaf of it with a value that
    does not convert, leaves [Optional] allocated and nothing
    assigned. *)
Theorem allocation_without_assignment :
  (forall t a v prefix s obj' s',
      registerFlags (TPtr t, VPtr (Some (a, v))) prefix s = Ok (obj', s') ->
      exists v',
        obj' = VPtr (Some (a, v'))
        /\ all_allocated t v' = true
        /\ forall pos k y, getLeaf t v pos = Some (k, y) -> getLeaf t v' pos = Some (k, y))
  /\ (forall t a v0 s,
        has_type t v0 = true ->
        named t = true ->
        NoDup (pflag.names (flags (fresh s)) ++ pflag.names (leafFlags t v0 "")) ->
        (forall f, Execute w f = inr f) ->
        exists v1 s',
          New lib env w (TPtr t, VPtr (Some (a, v0))) s
          = Ok ({| object := VPtr (Some (a, v1)); result := Some (VPtr (Some (a, v1)));
                   err := None |}, s')
          /\ all_allocated t v1 = true
          /\ (forall pos k y,
                getLeaf t v0 pos = Some (k, y) -> getLeaf t v1 pos = Some (k, y))
          /\ (all_allocated t v0 = false -> v1 <> v0))
  /\ (forall front lastSegment path value t v canAddr s v' s',
        has_type t v = true ->
        setValueByPath_elem lib front lastSegment path value t v canAddr s = Ok (v', s') ->
        allocatedAlong lib t v' front = true)
  /\ (let v := VStruct [VStruct [VString "h"; VInt 1]; VPtr None; VPtr None;
                        VString ""; VBool false] in
      let v' := VStruct [VStruct [VString "h"; VInt 1];
                         VPtr (Some (7%nat, VStruct [VString ""; VBool false]));
                         VPtr None; VString ""; VBool false] in
      let s := {| flags := []; stderr := []; next := 7 |} in
      setValueByPath ascii_lib (TPtr Example.Config, VPtr (Some (O, v)))
        "optional.nope" "yes" s
      = Ok (VPtr (Some (O, v')),
            {| flags := [];
               stderr := [ErrFieldNotFound "nope" "optional.nope" "Optional"];
               next := 8 |})
      /\ setValueByPath ascii_lib (TPtr Example.Config, VPtr (Some (O, v)))
           "optional.enabled" "yes" s
         = Ok (VPtr (Some (O, v')),
               {| flags := [];
                  stderr := [ErrConvertBool "yes" "optional.enabled"];
                  next := 8 |})).
Proof.
  split; [|split; [|split]].
  - intros t a v prefix s obj' s' Hrun. unfold registerFlags in Hrun.
    inv_bind_ret Hrun v'. apply registerFlags_elem_registered in Hrun.
    exists v'. split; [reflexivity|]. split; [apply Hrun; reflexivity | apply Hrun].
  - apply New_without_arguments.
  - intros. eapply setValueByPath_elem_allocates; eauto.
  - split; vm_compute; reflexivity.
Qed.

End Allocation.

(** ** One flag for each leaf *)









(** ** The errors of [New] *)

(** X2.  When [New] returns, its error is that of the command line, of
    reading the file or of decoding it, the last two with their phase
    in front; in every other case it is nil and the result is the
    object. *)
Lemma New_error_cases lib env w configObject s r s' :
  New lib env w configObject s = Ok (r, s') ->
  match err r with
  | Some e =>
      result r = None
      /\ exists obj s1,
          registerFlags configObject "" (fresh s) = Ok (obj, s1)
          /\ (Execute w (flags s1) = inl e
              \/ exists cmd,
                  Execute w (flags s1) = inr cmd
                  /\ pflag.GetString cmd "config" <> ""
                  /\ ((exists e',
                          ReadFile w (pflag.GetString cmd "config") = inl e'
                          /\ e = "failed to read config file: " +:+ e')
                      \/ (exists data obj' e',
                             ReadFile w (pflag.GetString cmd "config") = inr data
                             /\ Unmarshal w data (fst configObject, obj) = (obj', Some e')
                             /\ e = "failed to unmarshal config file: " +:+ e')))
  | None => result r = Some (object r)
  end.
Proof.
  rewrite New_unfold.
  destruct (registerFlags configObject "" (fresh s)) as [[obj s1]|]; [|discriminate].
  destruct (Execute w (flags s1)) as [e|cmd] eqn:Hexec.
  { intros [= <- <-]. cbn [err result]. split; [reflexivity|]. exists obj, s1. auto. }
  unfold filePhase.
  destruct (Str.is_empty (pflag.GetString cmd "config")) eqn:Hempty; cbn [negb].
  - destruct (applyFlagOverrides lib env _ "" _) as [[obj' s'']|]; [|discriminate].
    intros [= <- <-]. reflexivity.
  - apply Str_is_empty_false in Hempty.
    destruct (ReadFile w (pflag.GetString cmd "config")) as [e|data] eqn:Hread.
    { intros [= <- <-]. cbn [err result]. split; [reflexivity|]. exists obj, s1.
      split; [reflexivity|]. right. exists cmd. eauto 10. }
    destruct (Unmarshal w data (fst configObject, obj)) as [obj' [e|]] eqn:Hdecode.
    { intros [= <- <-]. cbn [err result]. split; [reflexivity|]. exists obj, s1.
      split; [reflexivity|]. right. exists cmd. eauto 12. }
    destruct (applyFlagOverrides lib env _ "" _) as [[obj'' s'']|]; [|discriminate].
    intros [= <- <-]. reflexivity.
Qed.

(** ** The theorems at work on the example *)


(** [--from-env server.host::MY_HOST] on the zero object. *)
Lemma fromEnv_value_stored_as_is_example :
  let t := Example.Config in
  let v := zero Example.Config in
  let s := Example.start in
  let pos := [O; O] in
  exists v' s',
    fromEnvPair ascii_lib Example.environ t v true "server.host::MY_HOST" s = Ok (v', s')
    /\ has_type t v = true
    /\ getLeaf t v pos = Some (Kind.String, VString "")
    /\ (forall pair_ x,
          fromEnvPair ascii_lib Example.environ t v true pair_ s = Ok (v', s') ->
          pairAssigns ascii_lib Example.environ t pair_ = Some (pos, x) ->
          x = VString (Getenv Example.environ
                         (TrimSpace ascii_lib (nth 1 (SplitN2 pair_ "::") "")))
          /\ getLeaf t v' pos = Some (Kind.String, x))
    /\ (forall n,
          named t = true ->
          applyFlagOverrides_elem ascii_lib Example.environ t v true "" s = Ok (v', s') ->
          flagNameAt t pos "" = Some n ->
          pflag.IsChanged (flags s) n = true ->
          getLeaf t v' pos
          = Some (Kind.String,
                  VString (resolveEnvVar Example.environ (pflag.GetString (flags s) n)))).
Proof.
  intros t v s pos. eexists _, _. split; [vm_compute; reflexivity|].
  split; [vm_compute; reflexivity|]. split; [vm_compute; reflexivity|].
  eapply (fromEnv_value_stored_as_is ascii_lib Example.environ t v s);
    vm_compute; reflexivity.
Defined.


(** The entry [onlyonepart], which has no ["::"]. *)
Lemma skipped_entries_example :
  let lib := ascii_lib in
  let env := Example.environ in
  let w := Example.world [] in
  let t := Example.Config in
  let v := zero Example.Config in
  let pair_ := "onlyonepart" in
  let d := WarnInvalidFromEnv "onlyonepart" in
  skipped lib env pair_ = Some d
  /\ (forall s rest,
        fromEnvPair lib env t v true pair_ s = Ok (v, log d s)
        /\ fromEnvPairs lib env t v true (pair_ :: rest) s
           = fromEnvPairs lib env t v true rest (log d s))
  /\ (forall s pairs,
        Forall (fun p => is_Some (skipped lib env p)) pairs ->
        exists l, length l = length pairs
                  /\ fromEnvPairs lib env t v true pairs s = Ok (v, logs l s)).
Proof.
  intros lib env w t v pair_ d. split; [vm_compute; reflexivity|].
  destruct (skipped_entries_change_nothing lib env w t v true pair_ d) as (H1 & H2 & _);
    [vm_compute; reflexivity|].
  split; [exact H1 | exact H2].
Defined.



(** The unexported [secret] of the example keeps its value through
    registration. *)
Lemma unexported_fields_example :
  let T := fst Example.cfg in
  let obj := snd Example.cfg in
  let s := Example.start in
  exists obj' s' field,
    has_type T obj = true
    /\ registerFlags (T, obj) "" s = Ok (obj', s')
    /\ fieldAt T obj [3%nat] = Some (field, VString "")
    /\ IsExported field = false
    /\ fieldAt T obj' [3%nat] = Some (field, VString "").
Proof.
  intros T obj s. eexists _, _, _. split; [vm_compute; reflexivity|].
  split; [vm_compute; reflexivity|]. split; [vm_compute; reflexivity|].
  split; [reflexivity|].
  destruct (unexported_fields_untouched ascii_lib Example.environ) as (_ & Hkeep & _).
  eapply (Hkeep T obj "" "" "" s);
    [vm_compute; reflexivity | left; vm_compute; reflexivity
     | vm_compute; reflexivity | reflexivity].
Defined.

(** [New] without arguments on the zero object of the example. *)
Lemma allocation_without_assignment_example :
  let w := Example.world [] in
  let t := Example.Config in
  let v0 := zero Example.Config in
  let s := Example.start in
  all_allocated t v0 = false
  /\ exists v1 s',
      New ascii_lib Example.environ w (TPtr t, VPtr (Some (O, v0))) s
      = Ok ({| object := VPtr (Some (O, v1)); result := Some (VPtr (Some (O, v1)));
               err := None |}, s')
      /\ all_allocated t v1 = true
      /\ (forall pos k y,
            getLeaf t v0 pos = Some (k, y) -> getLeaf t v1 pos = Some (k, y))
      /\ (all_allocated t v0 = false -> v1 <> v0).
Proof.
  intros w t v0 s. split; [vm_compute; reflexivity|].
  destruct (allocation_without_assignment ascii_lib Example.environ w) as (_ & Hnew & _).
  apply (Hnew t O v0 s); [vm_compute; reflexivity | vm_compute; reflexivity | | reflexivity].
  refine (bool_decide_unpack _ _). vm_compute. exact I.
Defined.

(** * Further properties of the package *)

(** ** [resolveEnvVar] *)

Lemma Getenv_found env name :
  Str.is_empty (Getenv env name) = false -> env !! name = Some (Getenv env name).
Proof.
  unfold Getenv. destruct (Str.is_empty name); [discriminate|].
  destruct (env !! name) as [x|]; [reflexivity | discriminate].
Qed.

(** X1.  [resolveEnvVar] makes nothing up and loses nothing: what it
    returns is its argument or the non-empty value of a variable of the
    environment, and it returns the empty string for the empty string
    only. *)
Theorem resolveEnvVar_keeps_or_looks_up env s :
  (resolveEnvVar env s = s
   \/ exists name, env !! name = Some (resolveEnvVar env s))
  /\ (resolveEnvVar env s = "" <-> s = "").
Proof.
  assert (Hlook : forall name,
             (if negb (Str.is_empty (Getenv env name)) then Getenv env name else s) = s
             \/ exists n, env !! n
                          = Some (if negb (Str.is_empty (Getenv env name))
                                  then Getenv env name else s)).
  { intros name. destruct (Str.is_empty (Getenv env name)) eqn:E; cbn [negb]; [left; reflexivity|].
    right. exists name. apply Getenv_found, E. }
  assert (Hempty : forall name,
             (if negb (Str.is_empty (Getenv env name)) then Getenv env name else s) = ""
             -> s = "").
  { intros name. destruct (Str.is_empty (Getenv env name)) eqn:E; cbn [negb]; [auto|].
    intros H. apply Str_is_empty_false in E. contradiction. }
  unfold resolveEnvVar. cbv zeta.
  destruct (Nat.eqb (Str.len s) 0) eqn:Hlen.
  { split; [left; reflexivity|]. split; [auto|]. intros ->. reflexivity. }
  assert (Hs : s <> "") by (intros ->; discriminate Hlen).
  split.
  - destruct (_ && _ && _)%bool; [apply Hlook|].
    destruct (match Str.at_ s 0 with Some c => _ | None => _ end);
      [apply Hlook | left; reflexivity].
  - split; [|intros ->; contradiction].
    destruct (_ && _ && _)%bool; [apply Hempty|].
    destruct (match Str.at_ s 0 with Some c => _ | None => _ end); [apply Hempty | auto].
Qed.

(** ** Assignment by path: the leaf and the diagnostics *)

Section Reports.
Context (lib : GoLib).

Lemma reported_log {A} d s : reported (None : option A) s (log d s).
Proof. exists d. reflexivity. Qed.

Lemma setTarget_reports lastSegment path value t v s v' s' :
  has_type t v = true ->
  setTarget lib lastSegment path value t v true s = Ok (v', s') ->
  reported (assignment lib t [] lastSegment value) s s'.
Proof.
  intros Hty Hrun. unfold setTarget in Hrun.
  apply bind_Ok in Hrun. destruct Hrun as (fieldName & s0 & Hfind & Hrun).
  destruct t as [k|elem|name fields]; try discriminate Hfind.
  cbn in Hfind. apply ret_Ok in Hfind. destruct Hfind as [-> ->].
  unfold assignment. cbn [pathTarget].
  destruct (Str.is_empty (findField lib fields (ToLower lib lastSegment))) eqn:Hempty.
  { inv_run. apply reported_log. }
  destruct v as [| | | | | |vals]; try discriminate Hrun.
  destruct (FieldByName fields (findField lib fields (ToLower lib lastSegment)))
    as [i|] eqn:Hi.
  2:{ inv_run. apply reported_log. }
  cbn [mbind option_bind].
  destruct (fields !! i) as [[field ft]|] eqn:Hfi; [|discriminate Hrun].
  destruct (has_type_field _ _ _ _ _ _ Hty Hfi) as (x0 & Hx0 & Htx0).
  rewrite Hx0 in Hrun. cbn [mbind option_bind andb].
  destruct (IsExported field) eqn:Hexp; cbn [negb andb] in Hrun |- *.
  2:{ inv_run. destruct ft; apply reported_log. }
  destruct ft as [k|elem|sname sfields]; [|inv_run; apply reported_log..].
  destruct k; cbn [supported convert mbind option_bind fst snd];
    try (inv_run; apply reported_log);
    try (inv_run; reflexivity).
  all: cbn [fmap option_fmap option_map].
  all: match goal with
       | H : match ?p with _ => _ end _ = _ |- _ => destruct p eqn:Hp
       end;
       inv_run; first [reflexivity | apply reported_log].
Qed.

Lemma setValueByPath_elem_reports front :
  forall lastSegment path value t v s v' s',
    has_type t v = true ->
    setValueByPath_elem lib front lastSegment path value t v true s = Ok (v', s') ->
    reported (assignment lib t front lastSegment value) s s'.
Proof.
  induction front as [|segment front IH];
    intros lastSegment path value t v s v' s' Hty Hrun.
  { eapply setTarget_reports; eauto. }
  cbn [setValueByPath_elem] in Hrun.
  destruct t as [k|elem|name fields].
  { rewrite assignment_not_struct by discriminate.
    destruct v; inv_run; apply reported_log. }
  { rewrite assignment_not_struct by discriminate.
    destruct v; inv_run; apply reported_log. }
  destruct v as [| | | | | |vals]; try discriminate Hrun.
  destruct (Str.is_empty (findField lib fields (ToLower lib segment))) eqn:Hempty.
  { rewrite assignment_skip by auto. inv_run. apply reported_log. }
  destruct (FieldByName fields (findField lib fields (ToLower lib segment)))
    as [i|] eqn:Hi.
  2:{ rewrite assignment_skip by auto. inv_run. apply reported_log. }
  destruct (fields !! i) as [[field ft]|] eqn:Hfi; [|discriminate Hrun].
  destruct (has_type_field _ _ _ _ _ _ Hty Hfi) as (fv & Hvi & Htf).
  rewrite Hvi in Hrun.
  destruct ft as [k|elem|sname sfields].
  - rewrite assignment_skip by eauto 10.
    destruct fv; inv_run; apply reported_log.
  - destruct fv as [| | | | |target|]; try discriminate Htf.
    destruct (IsExported field) eqn:Hexp; [|discriminate Hrun]. cbn [negb] in Hrun.
    apply bind_Ok in Hrun. destruct Hrun as ([a x0] & s0 & Halloc & Hrun).
    apply bind_Ok in Hrun. destruct Hrun as (x' & s1 & Hrec & Hret).
    apply ret_Ok in Hret. destruct Hret as [-> ->]. cbn [fst snd] in *.
    assert (Hs0 : stderr s0 = stderr s /\ has_type elem x0 = true).
    { destruct target as [[a1 x1]|].
      - inv_run. injection H as -> ->. auto.
      - apply reflect_New_Ok in Halloc. destruct Halloc as [[= -> ->] ->].
        auto using has_type_zero. }
    destruct Hs0 as [Hse Htx].
    pose proof (IH _ _ _ _ _ _ _ _ Htx Hrec) as Hrec'.
    erewrite assignment_cons by eauto.
    destruct (assignment lib elem front lastSegment value) as [[pos x]|];
      cbn [reported] in *; rewrite <- Hse; exact Hrec'.
  - assert (Hs : exists svals, fv = VStruct svals).
    { destruct fv; try discriminate Htf. eauto. }
    destruct Hs as [svals ->]. cbn [negb] in Hrun.
    destruct (IsExported field) eqn:Hexp; [|discriminate Hrun]. cbn [negb] in Hrun.
    apply bind_Ok in Hrun. destruct Hrun as (x' & s1 & Hrec & Hret).
    apply ret_Ok in Hret. destruct Hret as [-> ->].
    pose proof (IH _ _ _ _ _ _ _ _ Htf Hrec) as Hrec'.
    erewrite assignment_cons by eauto 10.
    destruct (assignment lib (TStruct sname sfields) front lastSegment value) as [[pos x]|];
      exact Hrec'.
Qed.

(** X3.  An assignment by path that returns assigns the leaf its path
    names the value its string converts to, and leaves every other
    leaf and the flags as they were; it writes no diagnostic when it
    assigns, and exactly one when it does not. *)
Theorem setValueByPath_assigns_or_reports t a v path value s obj' s' :
  has_type t v = true ->
  setValueByPath lib (TPtr t, VPtr (Some (a, v))) path value s = Ok (obj', s') ->
  let target := segs ← splitLast (Split path "."); pathTarget lib t (fst segs) (snd segs) in
  let assigns := r ← target; x ← convert lib (snd r) value; Some (fst r, x) in
  exists v',
    obj' = VPtr (Some (a, v'))
    /\ flags s' = flags s
    /\ (forall pos k y,
          getLeaf t v pos = Some (k, y) ->
          getLeaf t v' pos
          = Some (k, match assigns with
                     | Some (pos', x) => if bool_decide (pos' = pos) then x else y
                     | None => y
                     end))
    /\ match assigns with
       | Some _ => stderr s' = stderr s
       | None => exists d, stderr s' = stderr s ++ [d]
       end.
Proof.
  intros Hty Hrun target assigns. cbn [setValueByPath] in Hrun.
  apply bind_Ok in Hrun. destruct Hrun as (v' & s1 & Hrun & Hret).
  apply ret_Ok in Hret. destruct Hret as [-> ->].
  exists v'. split; [reflexivity|].
  pose proof (setValueByPath_from_assigned lib _ _ _ _ _ _ _ _ Hty Hrun) as Hch.
  assert (Heq : assigns = (segs ← splitLast (Split path ".");
                           assignment lib t (fst segs) (snd segs) value)).
  { unfold assigns, target, assignment.
    destruct (splitLast (Split path ".")) as [[front lastSegment]|]; reflexivity. }
  split; [apply Hch|]. split.
  - intros pos k y Hleaf.
    rewrite (as_leaf _ _ _ _ _ _ _ Hch eq_refl _ _ _ Hleaf), Heq. reflexivity.
  - rewrite Heq. unfold setValueByPath_from in Hrun.
    destruct (splitLast (Split path ".")) as [[front lastSegment]|];
      cbn [mbind option_bind fst snd].
    + apply (setValueByPath_elem_reports _ _ _ _ _ _ _ _ _ Hty Hrun).
    + inv_run. eexists. reflexivity.
Qed.

End Reports.

(** ** The order of the [--from-env] entries *)

Section Entries.
Context (lib : GoLib) (env : Environ).

Lemma envAssigned_app t l1 l2 pos x0 :
  envAssigned lib env t (l1 ++ l2) pos x0
  = envAssigned lib env t l2 pos (envAssigned lib env t l1 pos x0).
Proof. revert x0. induction l1 as [|p l1 IH]; intros x0; [reflexivity | apply IH]. Qed.

Lemma envAssigned_elsewhere t l pos x0 :
  Forall (fun q => forall x, pairAssigns lib env t q <> Some (pos, x)) l ->
  envAssigned lib env t l pos x0 = x0.
Proof.
  intros H. revert x0. induction H as [|q l Hq _ IH]; intros x0; [reflexivity|].
  cbn [envAssigned]. rewrite IH. unfold assignedAt.
  destruct (pairAssigns lib env t q) as [[pos' x]|]; [|reflexivity].
  rewrite bool_decide_eq_false_2; [reflexivity|].
  intros ->. exact (Hq x eq_refl).
Qed.

(** X4.  Among the entries of [--from-env] that assign the same leaf,
    the last one wins: after the loop the leaf holds the value of the
    entry that no later entry assigns over, whatever the entries
    before it stored. *)
Theorem last_entry_wins t v before pair_ after s v' s' pos x k y :
  has_type t v = true ->
  fromEnvPairs lib env t v true (before ++ pair_ :: after) s = Ok (v', s') ->
  pairAssigns lib env t pair_ = Some (pos, x) ->
  Forall (fun q => forall x', pairAssigns lib env t q <> Some (pos, x')) after ->
  getLeaf t v pos = Some (k, y) ->
  getLeaf t v' pos = Some (k, x).
Proof.
  intros Hty Hrun Hpair Hafter Hleaf.
  pose proof (fromEnvPairs_changed lib env _ _ _ _ _ _ _ Hty Hrun) as Hch.
  rewrite (as_leaf _ _ _ _ _ _ _ Hch eq_refl _ _ _ Hleaf).
  rewrite envAssigned_app. cbn [envAssigned].
  rewrite envAssigned_elsewhere by exact Hafter.
  rewrite Hpair. cbn [assignedAt]. rewrite bool_decide_eq_true_2 by reflexivity.
  reflexivity.
Qed.

End Entries.

(** ** The override walk without [--from-env] *)

Section Silent.
Context (lib : GoLib) (env : Environ).

Lemma applyFlagOverrides_fields_silent fs :
  Forall (fun ft => silent_walk lib env (snd ft)
                    /\ forall elem, snd ft = TPtr elem -> silent_walk lib env elem) fs ->
  forall vs canAddr prefix s vs' s',
    pflag.IsChanged (flags s) "from-env" = false
    \/ forallb (fun ft => negb (Str.is_empty (Name (fst ft))) && named (snd ft)) fs = true ->
    forFields (applyFlagOverrides_field lib env (applyFlagOverrides_elem lib env)
                 canAddr prefix) fs vs s = Ok (vs', s') ->
    s' = s /\ list_sum (map live_ptrs vs') = list_sum (map live_ptrs vs).
Proof.
  induction 1 as [|[field ft] fs [Hft Helem] _ IH];
    intros vs canAddr prefix s vs' s' Hno Hrun.
  { destruct vs; [|discriminate]. cbn in Hrun. inv_run. auto. }
  destruct vs as [|x vs]; [discriminate|].
  apply forFields_cons_Ok in Hrun. destruct Hrun as (x' & s1 & rest & Hbody & Hrest & ->).
  cbn [snd] in Hft, Helem.
  assert (Hsub : (Str.is_empty (joinName prefix (tagName field))
                  && pflag.IsChanged (flags s) "from-env")%bool = false
                 /\ (pflag.IsChanged (flags s) "from-env" = false \/ named ft = true)
                 /\ (pflag.IsChanged (flags s) "from-env" = false
                     \/ forallb (fun ft => negb (Str.is_empty (Name (fst ft)))
                                           && named (snd ft)) fs = true)).
  { destruct Hno as [Hno|Hnamed]; [rewrite Hno, andb_false_r; auto|].
    cbn [forallb fst snd] in Hnamed.
    apply andb_prop in Hnamed as [Hhead Hrest']. apply andb_prop in Hhead as [Hname Hnt].
    apply negb_true_iff, Str_is_empty_false in Hname.
    rewrite (joinName_nonempty prefix field Hname). auto. }
  destruct Hsub as (Hand & Hnt & Hnfs).
  assert (Hhead : s1 = s /\ live_ptrs x' = live_ptrs x).
  { unfold applyFlagOverrides_field in Hbody.
    destruct (IsExported field); cbn [negb] in Hbody; [|inv_run; auto].
    destruct ft as [k|elem|sname sfields].
    - destruct k, x; cbv beta iota in Hbody;
        first [ discriminate Hbody
              | apply ret_Ok in Hbody; destruct Hbody as [-> ->]; split; reflexivity
              | apply bind_Ok in Hbody; destruct Hbody as (cmd & st & Hget & Hbody);
                rewrite get_flags_Ok in Hget; injection Hget as <- <-;
                match type of Hbody with
                | context [pflag.IsChanged ?c ?n] => destruct (pflag.IsChanged c n)
                end; cbv zeta in Hbody;
                [destruct canAddr; [|discriminate Hbody] |];
                apply ret_Ok in Hbody; destruct Hbody as [-> ->]; split; reflexivity ].
    - destruct x as [| | | | |[[a y]|]|]; try discriminate Hbody; [|inv_run; auto].
      apply bind_Ok in Hbody. destruct Hbody as (y' & s0 & Hrec & Hret).
      apply ret_Ok in Hret. destruct Hret as [-> ->].
      destruct (Helem elem eq_refl _ _ _ _ _ _ Hand Hnt Hrec) as [-> Hl].
      split; [reflexivity | simpl; lia].
    - destruct x; try discriminate Hbody.
      destruct canAddr; [|discriminate Hbody].
      apply (Hft _ _ _ _ _ _ Hand Hnt Hbody). }
  destruct Hhead as [-> Hl].
  destruct (IH _ _ _ _ _ _ Hnfs Hrest) as [-> Hls].
  split; [reflexivity | simpl; lia].
Qed.

Lemma applyFlagOverrides_elem_silent t : silent_walk lib env t.
Proof.
  induction t as [k|elem IH|name fields IH] using Ty_walk_ind;
    intros v canAddr prefix s v' s' Hand Hno Hrun;
    rewrite applyFlagOverrides_elem_unfold in Hrun;
    apply bind_Ok in Hrun; destruct Hrun as (cmd & s0 & Hget & Hrun);
    rewrite get_flags_Ok in Hget; injection Hget as <- <-;
    rewrite Hand in Hrun;
    apply bind_Ok in Hrun; destruct Hrun as (v1 & s1 & Hret & Hrun);
    apply ret_Ok in Hret; destruct Hret as [-> ->].
  - inv_run. auto.
  - inv_run. auto.
  - destruct v as [| | | | | |vals]; try discriminate Hrun.
    apply bind_Ok in Hrun. destruct Hrun as (vals' & s1 & Hfields & Hret).
    apply ret_Ok in Hret. destruct Hret as [-> ->].
    apply (applyFlagOverrides_fields_silent fields IH _ _ _ _ _ _ Hno Hfields).
Qed.

(** X5.  Without [--from-env] on the command line the override walk
    leaves the state as it found it -- it writes no diagnostic,
    allocates nothing and does not touch the flag set -- and the
    object holds as many non-nil pointers as before: what is nil stays
    nil. *)
Theorem overrides_without_fromEnv T obj prefix s obj' s' :
  pflag.IsChanged (flags s) "from-env" = false ->
  applyFlagOverrides lib env (T, obj) prefix s = Ok (obj', s') ->
  s' = s /\ live_ptrs obj' = live_ptrs obj.
Proof.
  unfold applyFlagOverrides. intros Hno Hrun.
  assert (Hand : (Str.is_empty prefix && pflag.IsChanged (flags s) "from-env")%bool = false)
    by (rewrite Hno; apply andb_false_r).
  destruct T as [k|t|name fields];
    try (eapply applyFlagOverrides_elem_silent; eauto; fail).
  destruct obj as [| | | | |[[a v]|]|]; try discriminate Hrun.
  apply bind_Ok in Hrun. destruct Hrun as (v' & s1 & Hrun & Hret).
  apply ret_Ok in Hret. destruct Hret as [-> ->].
  destruct (applyFlagOverrides_elem_silent _ _ _ _ _ _ _ Hand (or_introl Hno) Hrun) as [-> Hl].
  split; [reflexivity | simpl; lia].
Qed.

End Silent.

(** ** What [New] returns *)

Section Returned.
Context (lib : GoLib) (env : Environ) (w : World).

(** X6.  Without a config file, a call of [New] that returns without
    error returns the pointer it was given: the object is at the same
    address, it is what registration and the overrides made of the
    object passed ([evolves]: no pointer in it was replaced), and it
    holds one non-nil pointer more for every allocation of the call. *)
Theorem New_returns_its_argument t a v0 s r s' obj cmd :
  has_type t v0 = true ->
  beforeOverrides w (TPtr t, VPtr (Some (a, v0))) s = Some (obj, cmd) ->
  pflag.GetString cmd "config" = "" ->
  New lib env w (TPtr t, VPtr (Some (a, v0))) s = Ok (r, s') ->
  exists v',
    object r = VPtr (Some (a, v'))
    /\ result r = Some (object r)
    /\ err r = None
    /\ evolves t v0 v'
    /\ has_type t v' = true
    /\ live_ptrs v' = (live_ptrs v0 + (next s' - next s))%nat.
Proof.
  intros Hty Hbefore Hconfig. rewrite New_unfold. unfold beforeOverrides in Hbefore.
  destruct (registerFlags _ "" (fresh s)) as [[obj1 s1]|] eqn:Hreg; [|discriminate].
  destruct (Execute w (flags s1)) as [e|cmd'] eqn:Hexec; [discriminate|].
  destruct (filePhase w _ cmd' obj1) as [obj2 [e|]] eqn:Hfile; [discriminate|].
  injection Hbefore as -> ->.
  unfold filePhase in Hfile. rewrite Hconfig in Hfile. cbn in Hfile.
  injection Hfile as <-.
  unfold registerFlags in Hreg.
  apply bind_Ok in Hreg. destruct Hreg as (v1 & s1' & Hreg & Hret).
  apply ret_Ok in Hret. destruct Hret as [-> <-].
  apply registerFlags_elem_registered in Hreg.
  cbn [fst]. unfold applyFlagOverrides.
  destruct (applyFlagOverrides_elem lib env t v1 true "" (with_flags cmd s1))
    as [[v' s2]|] eqn:Hwalk.
  2:{ unfold mbind, M_bind. rewrite Hwalk. discriminate. }
  rewrite (bind_Ok_intro _ _ _ _ _ Hwalk). intros [= <- <-].
  pose proof (reg_type _ _ _ _ _ _ _ Hreg Hty) as Hty1.
  apply applyFlagOverrides_elem_walked in Hwalk; [|exact Hty1].
  exists v'. cbn [object result err].
  split; [reflexivity|]. split; [reflexivity|]. split; [reflexivity|].
  split; [eapply evolves_trans; [apply Hreg | apply Hwalk]|].
  split; [apply Hwalk|].
  pose proof (reg_live _ _ _ _ _ _ _ Hreg) as L1.
  pose proof (reg_next _ _ _ _ _ _ _ Hreg) as N1.
  pose proof (as_live _ _ _ _ _ _ _ Hwalk) as L2.
  pose proof (as_next _ _ _ _ _ _ _ Hwalk) as N2.
  cbn [next fresh with_flags] in *. lia.
Qed.


End Returned.

(** ** Flag names that are taken *)

Lemma bind_Panic {A B} (m : M A) (f : A -> M B) s r :
  m s = Panic r -> (m ≫= f) s = Panic r.
Proof. unfold mbind, M_bind. intros ->. reflexivity. Qed.

Lemma AddFlag_cases name value usage s :
  (exists s', AddFlag name value usage s = Ok (tt, s'))
  \/ AddFlag name value usage s = Panic (FlagRedefined name).
Proof.
  unfold AddFlag. destruct (pflag.Lookup (flags s) name); [right | left; eexists]; reflexivity.
Qed.

Lemma registerFlags_elem_panics t : registerFlags_elem_redefines t.
Proof.
  induction t as [k|elem IH|name fields IH] using Ty_walk_ind; intros v prefix s Hty.
  - left. destruct k, v; try discriminate Hty; cbn; eauto.
  - left. destruct v as [| | | | |target|]; try discriminate Hty. cbn. eauto.
  - destruct v as [| | | | | |vals]; try discriminate Hty.
    rewrite registerFlags_elem_struct, leafFlags_struct.
    enough (H : (exists vals' s',
                    forFields (registerFlags_field registerFlags_elem true prefix)
                      fields vals s = Ok (vals', s'))
                \/ (exists n,
                       forFields (registerFlags_field registerFlags_elem true prefix)
                         fields vals s = Panic (FlagRedefined n)
                       /\ n ∈ pflag.names (leafFlags_fields leafFlags prefix fields vals))).
    { destruct H as [(vals' & s' & H)|(n & H & Hn)].
      - left. exists (VStruct vals'), s'. rewrite (bind_Ok_intro _ _ _ _ _ H). reflexivity.
      - right. exists n. split; [apply bind_Panic, H | exact Hn]. }
    revert vals s Hty.
    induction IH as [|[field ft] fs [Hft Helem] _ IHfs]; intros vals s Hty.
    + destruct vals; [|discriminate]. left. cbn. eauto.
    + destruct vals as [|x vals]; [discriminate|].
      rewrite has_type_struct_cons in Hty. apply andb_prop in Hty as [Hx Hvals].
      cbn [leafFlags_fields snd] in *. rewrite names_app.
      assert (Hfield :
        (exists x' s1,
            registerFlags_field registerFlags_elem true prefix field ft x s = Ok (x', s1))
        \/ (exists n,
               registerFlags_field registerFlags_elem true prefix field ft x s
               = Panic (FlagRedefined n)
               /\ n ∈ pflag.names (leafFlags_field leafFlags prefix field ft x))).
      { unfold registerFlags_field, leafFlags_field.
        destruct (IsExported field); cbn [negb]; [|left; eexists _, _; reflexivity].
        destruct ft as [k|elem|sname sfields].
        - destruct k, x; try discriminate Hx; cbv beta iota zeta;
            try (left; eexists _, _; reflexivity);
            match goal with
            | |- context [AddFlag ?n ?value ?u] =>
                destruct (AddFlag_cases n value u s) as [[s1 Hadd]|Hadd]
            end;
            first
              [ left; eexists _, _; rewrite (bind_Ok_intro _ _ _ _ _ Hadd); reflexivity
              | right; eexists; split; [apply bind_Panic, Hadd|];
                simpl; apply list_elem_of_singleton; reflexivity ].
        - destruct x as [| | | | |target|]; try discriminate Hx.
          destruct target as [[a0 x0]|]; cbv beta iota zeta.
          + erewrite bind_Ok_intro by reflexivity. cbv beta iota.
            destruct (Helem elem eq_refl x0 (joinName prefix (tagName field)) s Hx)
              as [(x' & s1 & Hrun)|(n & Hrun & Hn)].
            * left. eexists _, _. rewrite (bind_Ok_intro _ _ _ _ _ Hrun). reflexivity.
            * right. exists n. split; [apply bind_Panic, Hrun | exact Hn].
          + erewrite bind_Ok_intro by reflexivity. cbv beta iota.
            set (s0 := {| flags := flags s; stderr := stderr s; next := S (next s) |}).
            destruct (Helem elem eq_refl (zero elem) (joinName prefix (tagName field)) s0
                        (has_type_zero elem)) as [(x' & s1 & Hrun)|(n & Hrun & Hn)].
            * left. eexists _, _. rewrite (bind_Ok_intro _ _ _ _ _ Hrun). reflexivity.
            * right. exists n. split; [apply bind_Panic, Hrun | exact Hn].
        - destruct x as [| | | | | |svals]; try discriminate Hx.
          apply (Hft _ (joinName prefix (tagName field)) s Hx). }
      destruct Hfield as [(x' & s1 & Hrun)|(n & Hrun & Hn)].
      * destruct (IHfs vals s1 Hvals) as [(rest & s' & Hrest)|(n & Hrest & Hn)].
        -- left. exists (x' :: rest), s'. cbn [forFields].
           rewrite (bind_Ok_intro _ _ _ _ _ Hrun), (bind_Ok_intro _ _ _ _ _ Hrest).
           reflexivity.
        -- right. exists n. split.
           ++ cbn [forFields]. rewrite (bind_Ok_intro _ _ _ _ _ Hrun).
              apply bind_Panic, Hrest.
           ++ apply elem_of_app. right. exact Hn.
      * right. exists n. split.
        -- cbn [forFields]. apply bind_Panic, Hrun.
        -- apply elem_of_app. left. exact Hn.
Qed.

(** X8.  Registration returns exactly when no flag name is taken
    twice: on a command whose flag names are distinct it returns when
    the names of the leaves are distinct and new to the command, and
    otherwise panics in pflag (flag redefined) on the name of one of
    the leaves. *)
Theorem registerFlags_returns_iff_names_distinct t a v prefix s :
  has_type t v = true ->
  NoDup (pflag.names (flags s)) ->
  (NoDup (pflag.names (flags s) ++ pflag.names (leafFlags t v prefix))
   /\ exists v' s',
       registerFlags (TPtr t, VPtr (Some (a, v))) prefix s = Ok (VPtr (Some (a, v')), s'))
  \/ (~ NoDup (pflag.names (flags s) ++ pflag.names (leafFlags t v prefix))
      /\ exists n,
          registerFlags (TPtr t, VPtr (Some (a, v))) prefix s = Panic (FlagRedefined n)
          /\ n ∈ pflag.names (leafFlags t v prefix)).
Proof.
  intros Hty Hnd. unfold registerFlags.
  destruct (registerFlags_elem_panics t v prefix s Hty)
    as [(v' & s' & Hrun)|(n & Hrun & Hn)].
  - left. split.
    + pose proof (registerFlags_elem_registered _ _ _ _ _ _ _ Hrun) as R.
      rewrite <- names_app, <- (reg_flags _ _ _ _ _ _ _ R eq_refl).
      apply (reg_nodup _ _ _ _ _ _ _ R Hnd).
    + exists v', s'. rewrite (bind_Ok_intro _ _ _ _ _ Hrun). reflexivity.
  - right. split.
    + intros Hall. destruct (registerFlags_elem_total t v prefix s Hty Hall)
        as (v' & s' & Hok). congruence.
    + exists n. split; [apply bind_Panic, Hrun | exact Hn].
Qed.

(** X9.  The names [config] and [from-env] are taken: [New] panics in
    pflag (flag redefined) when a leaf of the object has one of them
    as its flag name, or when two leaves have the same flag name. *)
Theorem New_panics_on_name_clash lib env w t a v0 s :
  has_type t v0 = true ->
  ~ NoDup ("config" :: "from-env" :: pflag.names (leafFlags t v0 "")) ->
  exists n,
    New lib env w (TPtr t, VPtr (Some (a, v0))) s = Panic (FlagRedefined n)
    /\ n ∈ pflag.names (leafFlags t v0 "").
Proof.
  intros Hty Hdup. rewrite New_unfold. unfold registerFlags.
  destruct (registerFlags_elem_panics t v0 "" (fresh s) Hty)
    as [(v' & s' & Hrun)|(n & Hrun & Hn)].
  - exfalso. apply Hdup.
    pose proof (registerFlags_elem_registered _ _ _ _ _ _ _ Hrun) as R.
    change ("config" :: "from-env" :: pflag.names (leafFlags t v0 ""))
      with (pflag.names (flags (fresh s)) ++ pflag.names (leafFlags t v0 "")).
    rewrite <- names_app, <- (reg_flags _ _ _ _ _ _ _ R eq_refl).
    apply (reg_nodup _ _ _ _ _ _ _ R).
    cbn. apply NoDup_cons. split; [rewrite list_elem_of_singleton; discriminate|].
    apply NoDup_singleton.
  - exists n. split; [|exact Hn].
    rewrite (bind_Panic _ _ _ _ Hrun). reflexivity.
Qed.

(** ** Where [New] cannot panic *)

Section NoPanic.
Context (lib : GoLib) (env : Environ) (w : World).

Lemma findField_exported fields nameLower :
  Str.is_empty (findField lib fields nameLower) = false ->
  exists field ft,
    (field, ft) ∈ fields /\ IsExported field = true
    /\ Name field = findField lib fields nameLower.
Proof.
  induction fields as [|[field ft] rest IH]; [discriminate|].
  rewrite findField_cons.
  destruct (IsExported field && matchesb lib field nameLower)%bool eqn:E.
  - apply andb_prop in E as [Hexp _]. intros _. exists field, ft.
    split; [apply list_elem_of_here | auto].
  - intros H. destruct (IH H) as (f & t & Hin & Hexp & Hname).
    exists f, t. split; [apply list_elem_of_further, Hin | auto].
Qed.

Lemma FieldByName_exported fields nameLower i field ft :
  same_export fields = true ->
  Str.is_empty (findField lib fields nameLower) = false ->
  FieldByName fields (findField lib fields nameLower) = Some i ->
  fields !! i = Some (field, ft) ->
  IsExported field = true.
Proof.
  intros Hsame Hempty Hi Hfi.
  destruct (findField_exported _ _ Hempty) as (f & t & Hin & Hexp & Hname).
  destruct (FieldByName_Some _ _ _ Hi) as (field' & ft' & Hfi' & Hname').
  rewrite Hfi in Hfi'. injection Hfi' as <- <-.
  unfold same_export in Hsame. rewrite forallb_forall in Hsame.
  specialize (Hsame (f, t)). rewrite <- list_elem_of_In in Hsame.
  specialize (Hsame Hin). rewrite forallb_forall in Hsame.
  specialize (Hsame (field, ft)). rewrite <- list_elem_of_In in Hsame.
  specialize (Hsame (list_elem_of_lookup_2 _ _ _ Hfi)). cbn [fst] in Hsame.
  replace (Str.eqb (Name f) (Name field)) with true in Hsame
    by (symmetry; apply Str_eqb_eq; congruence).
  cbn [implb] in Hsame. apply eqb_prop in Hsame. congruence.
Qed.

Lemma navigable_field name fields i field ft :
  navigable (TStruct name fields) = true ->
  exported_by_name (TStruct name fields) = true ->
  fields !! i = Some (field, ft) ->
  IsExported field = true ->
  navigable ft = true /\ exported_by_name ft = true.
Proof.
  cbn [navigable exported_by_name]. intros Hnav Hexp Hfi Hfield.
  apply andb_prop in Hexp as [_ Hexp].
  rewrite forallb_forall in Hnav, Hexp.
  pose proof (list_elem_of_lookup_2 _ _ _ Hfi) as Hin. rewrite list_elem_of_In in Hin.
  specialize (Hnav _ Hin). specialize (Hexp _ Hin). cbn [fst snd] in *.
  rewrite Hfield in Hnav. auto.
Qed.

Lemma setTarget_returns lastSegment path value name fields v s :
  has_type (TStruct name fields) v = true ->
  exists v' s', setTarget lib lastSegment path value (TStruct name fields) v true s = Ok (v', s').
Proof.
  intros Hty. unfold setTarget. cbn [findFieldByNameOrTag].
  erewrite bind_Ok_intro by reflexivity.
  destruct (Str.is_empty _); [eexists _, _; reflexivity|].
  destruct v as [| | | | | |vals]; try discriminate Hty.
  destruct (FieldByName fields _) as [i|] eqn:Hi; [|eexists _, _; reflexivity].
  destruct (FieldByName_Some _ _ _ Hi) as (field & ft & Hfi & _).
  destruct (has_type_field _ _ _ _ _ _ Hty Hfi) as (x0 & Hx0 & _).
  rewrite Hfi, Hx0. cbn [andb].
  destruct (IsExported field); cbn [negb]; [|eexists _, _; reflexivity].
  destruct ft as [k| |]; [|eexists _, _; reflexivity..].
  destruct k; try (eexists _, _; reflexivity);
    match goal with
    | |- context [match ?p with Some _ => _ | None => _ end] => destruct p
    end; eexists _, _; reflexivity.
Qed.

Lemma setValueByPath_elem_returns front :
  forall lastSegment path value t v s,
    is_struct t = true -> navigable t = true -> exported_by_name t = true ->
    has_type t v = true ->
    exists v' s',
      setValueByPath_elem lib front lastSegment path value t v true s = Ok (v', s').
Proof.
  induction front as [|segment front IH];
    intros lastSegment path value t v s Hst Hnav Hexp Hty;
    destruct t as [| |name fields]; try discriminate Hst.
  { apply setTarget_returns, Hty. }
  cbn [setValueByPath_elem].
  destruct v as [| | | | | |vals]; try discriminate Hty.
  destruct (Str.is_empty _) eqn:Hempty; [eexists _, _; reflexivity|].
  destruct (FieldByName fields _) as [i|] eqn:Hi; [|eexists _, _; reflexivity].
  destruct (FieldByName_Some _ _ _ Hi) as (field & ft & Hfi & _).
  destruct (has_type_field _ _ _ _ _ _ Hty Hfi) as (fv & Hvi & Htf).
  rewrite Hfi, Hvi.
  assert (Hfield : IsExported field = true).
  { pose proof Hexp as Hsame. cbn [exported_by_name] in Hsame.
    apply andb_prop in Hsame as [Hsame _].
    eapply FieldByName_exported; eauto. }
  destruct (navigable_field _ _ _ _ _ Hnav Hexp Hfi Hfield) as [Hnf Hef].
  rewrite Hfield. cbn [negb].
  destruct ft as [k|elem|sname sfields].
  - destruct fv; eexists _, _; reflexivity.
  - destruct fv as [| | | | |target|]; try discriminate Htf.
    cbn [navigable] in Hnf. apply andb_prop in Hnf as [Hse Hne].
    destruct target as [[a0 x0]|].
    + erewrite bind_Ok_intro by reflexivity. cbn [fst snd].
      destruct (IH lastSegment path value elem x0 s Hse Hne Hef Htf) as (x' & s1 & Hrun).
      rewrite (bind_Ok_intro _ _ _ _ _ Hrun). eexists _, _. reflexivity.
    + erewrite bind_Ok_intro by reflexivity. cbn [fst snd].
      match goal with
      | |- context [(setValueByPath_elem lib front lastSegment path value elem
                       (zero elem) true ≫= _) ?s0] =>
          destruct (IH lastSegment path value elem (zero elem) s0 Hse Hne Hef
                      (has_type_zero elem)) as (x' & s1 & Hrun)
      end.
      rewrite (bind_Ok_intro _ _ _ _ _ Hrun). eexists _, _. reflexivity.
  - destruct (IH lastSegment path value (TStruct sname sfields) fv s eq_refl Hnf Hef Htf)
      as (x' & s1 & Hrun).
    destruct fv; try discriminate Htf.
    rewrite (bind_Ok_intro _ _ _ _ _ Hrun). eexists _, _. reflexivity.
Qed.

Lemma fromEnvPairs_returns pairs :
  forall t v s,
    is_struct t = true -> navigable t = true -> exported_by_name t = true ->
    has_type t v = true ->
    exists v' s',
      fromEnvPairs lib env t v true pairs s = Ok (v', s') /\ has_type t v' = true.
Proof.
  induction pairs as [|pair_ rest IH]; intros t v s Hst Hnav Hexp Hty.
  { exists v, s. split; [reflexivity | exact Hty]. }
  cbn [fromEnvPairs].
  assert (Hpair : exists v1 s1, fromEnvPair lib env t v true pair_ s = Ok (v1, s1)).
  { unfold fromEnvPair.
    destruct (negb _); [eexists _, _; reflexivity|].
    destruct (Str.is_empty _); [eexists _, _; reflexivity|].
    unfold setValueByPath_from.
    destruct (splitLast _) as [[front lastSegment]|]; [|eexists _, _; reflexivity].
    apply setValueByPath_elem_returns; assumption. }
  destruct Hpair as (v1 & s1 & Hpair).
  pose proof (fromEnvPair_assigned lib env _ _ _ _ _ _ _ Hty Hpair) as Hch.
  destruct (IH t v1 s1 Hst Hnav Hexp (as_type _ _ _ _ _ _ _ Hch)) as (v' & s' & Hrest & Hty').
  exists v', s'. rewrite (bind_Ok_intro _ _ _ _ _ Hpair). auto.
Qed.

Lemma applyFlagOverrides_fields_return fs :
  Forall (fun ft => applyFlagOverrides_elem_returns lib env (snd ft)
                    /\ forall elem, snd ft = TPtr elem ->
                                    applyFlagOverrides_elem_returns lib env elem) fs ->
  forallb (fun ft => negb (IsExported (fst ft)) || navigable (snd ft)) fs = true ->
  forallb (fun ft => exported_by_name (snd ft)) fs = true ->
  forall name vs prefix s,
    has_type (TStruct name fs) (VStruct vs) = true ->
    exists vs' s',
      forFields (applyFlagOverrides_field lib env (applyFlagOverrides_elem lib env)
                   true prefix) fs vs s = Ok (vs', s').
Proof.
  induction 1 as [|[field ft] fs [Hft Helem] _ IH]; intros Hnav Hexp name vs prefix s Hty.
  { destruct vs; [|discriminate]. eexists _, _. reflexivity. }
  destruct vs as [|x vs]; [discriminate|].
  rewrite has_type_struct_cons in Hty. apply andb_prop in Hty as [Hx Hvs].
  cbn [forallb fst snd] in *.
  apply andb_prop in Hnav as [Hnf Hnav]. apply andb_prop in Hexp as [Hef Hexp].
  assert (Hhead : exists x' s1,
             applyFlagOverrides_field lib env (applyFlagOverrides_elem lib env)
               true prefix field ft x s = Ok (x', s1)).
  { unfold applyFlagOverrides_field.
    destruct (IsExported field); cbn [negb orb] in *; [|eexists _, _; reflexivity].
    destruct ft as [k|elem|sname sfields].
    - destruct k, x; try discriminate Hx; cbv beta iota zeta;
        try (eexists _, _; reflexivity);
        (erewrite bind_Ok_intro by apply get_flags_Ok; cbv beta;
         match goal with
         | |- context [pflag.IsChanged ?c ?n] => destruct (pflag.IsChanged c n)
         end; eexists _, _; reflexivity).
    - destruct x as [| | | | |[[a0 x0]|]|]; try discriminate Hx;
        [|eexists _, _; reflexivity].
      cbn [navigable] in Hnf. apply andb_prop in Hnf as [Hse Hne].
      destruct (Helem elem eq_refl Hse Hne Hef x0 (joinName prefix (tagName field)) s Hx)
        as (x' & s1 & Hrun).
      cbv beta iota zeta. rewrite (bind_Ok_intro _ _ _ _ _ Hrun). eexists _, _. reflexivity.
    - destruct x; try discriminate Hx.
      apply (Hft eq_refl Hnf Hef _ (joinName prefix (tagName field)) s Hx). }
  destruct Hhead as (x' & s1 & Hhead).
  destruct (IH Hnav Hexp name vs prefix s1 Hvs) as (rest & s' & Hrest).
  exists (x' :: rest), s'. cbn [forFields].
  rewrite (bind_Ok_intro _ _ _ _ _ Hhead), (bind_Ok_intro _ _ _ _ _ Hrest). reflexivity.
Qed.

Lemma applyFlagOverrides_elem_total t : applyFlagOverrides_elem_returns lib env t.
Proof.
  induction t as [k|elem IH|name fields IH] using Ty_walk_ind;
    intros Hst Hnav Hexp v prefix s Hty; try discriminate Hst.
  rewrite applyFlagOverrides_elem_unfold.
  erewrite bind_Ok_intro by apply get_flags_Ok.
  assert (Hphase : exists v1 s1,
             (if (Str.is_empty prefix && pflag.IsChanged (flags s) "from-env")%bool
              then fromEnvPairs lib env (TStruct name fields) v true
                     (pflag.GetStringSlice (flags s) "from-env")
              else mret v) s = Ok (v1, s1)
             /\ has_type (TStruct name fields) v1 = true).
  { destruct (_ && _)%bool.
    - apply fromEnvPairs_returns; assumption.
    - exists v, s. split; [reflexivity | exact Hty]. }
  destruct Hphase as (v1 & s1 & Hphase & Hty1).
  rewrite (bind_Ok_intro _ _ _ _ _ Hphase).
  destruct v1 as [| | | | | |vals]; try discriminate Hty1.
  cbn [navigable exported_by_name] in Hnav, Hexp.
  apply andb_prop in Hexp as [_ Hexp].
  destruct (applyFlagOverrides_fields_return fields IH Hnav Hexp name vals prefix s1 Hty1)
    as (vals' & s' & Hrun).
  rewrite (bind_Ok_intro _ _ _ _ _ Hrun). eexists _, _. reflexivity.
Qed.

(** X10.  [New] returns, whatever the command line and the
    environment, on a pointer to a struct in which every exported
    pointer field within reach points to a struct and the flag names
    of the leaves are distinct and neither [config] nor [from-env]:
    no path, value or flag makes it panic. *)
Theorem New_never_panics t a v0 s :
  is_struct t = true ->
  navigable t = true ->
  exported_by_name t = true ->
  has_type t v0 = true ->
  NoDup ("config" :: "from-env" :: pflag.names (leafFlags t v0 "")) ->
  decoder_typed w t ->
  exists r s', New lib env w (TPtr t, VPtr (Some (a, v0))) s = Ok (r, s').
Proof.
  intros Hst Hnav Hexp Hty Hnd Hdec. rewrite New_unfold.
  destruct (registerFlags_elem_total t v0 "" (fresh s) Hty Hnd) as (v1 & s1 & Hreg).
  pose proof (registerFlags_elem_registered _ _ _ _ _ _ _ Hreg) as R.
  pose proof (reg_type _ _ _ _ _ _ _ R Hty) as Hty1.
  unfold registerFlags. rewrite (bind_Ok_intro _ _ _ _ _ Hreg). cbn [mret M_ret].
  destruct (Execute w (flags s1)) as [e|cmd]; [eexists _, _; reflexivity|].
  assert (Hwalk : forall a' v', has_type t v' = true ->
             exists r s',
               match applyFlagOverrides lib env (TPtr t, VPtr (Some (a', v'))) ""
                       (with_flags cmd s1) with
               | Ok (obj'', s') =>
                   Ok ({| object := obj''; result := Some obj''; err := None |}, s')
               | Panic r => Panic r
               end = Ok (r, s')).
  { intros a' v' Hty'. unfold applyFlagOverrides.
    destruct (applyFlagOverrides_elem_total t Hst Hnav Hexp v' "" (with_flags cmd s1) Hty')
      as (v'' & s' & Hrun).
    rewrite (bind_Ok_intro _ _ _ _ _ Hrun). eexists _, _. reflexivity. }
  unfold filePhase. cbn [fst].
  destruct (negb (Str.is_empty (pflag.GetString cmd "config"))); [|apply Hwalk, Hty1].
  destruct (ReadFile w _) as [e|data]; [eexists _, _; reflexivity|].
  destruct (Unmarshal w data _) as [obj' [e|]] eqn:Hun; [eexists _, _; reflexivity|].
  destruct (Hdec _ _ _ _ Hty1 Hun) as (a' & v' & -> & Hty').
  apply Hwalk, Hty'.
Qed.

End NoPanic.

(** ** Flag names as paths *)

Lemma Split_nonempty s sep : Split s sep <> [].
Proof.
  induction s as [|c s IH]; cbn [Split]; [discriminate|].
  destruct (Ascii.eqb c sep); [discriminate|].
  destruct (Split s sep); [contradiction | discriminate].
Qed.

Lemma Split_dotfree s : dotfree s = true -> Split s "." = [s].
Proof.
  induction s as [|c s IH]; cbn [Split dotfree]; [reflexivity|].
  intros H. apply andb_prop in H as [Hc Hs]. apply negb_true_iff in Hc.
  rewrite Hc, (IH Hs). reflexivity.
Qed.

Lemma Split_snoc p x :
  dotfree x = true -> Split (p +:+ "." +:+ x) "." = Split p "." ++ [x].
Proof.
  intros Hx. induction p as [|c p IH].
  - change (Split ("" +:+ "." +:+ x) ".") with (EmptyString :: Split x ".").
    rewrite (Split_dotfree _ Hx). reflexivity.
  - change (String c p +:+ "." +:+ x) with (String c (p +:+ "." +:+ x)).
    cbn [Split]. rewrite IH.
    destruct (Ascii.eqb c "."); [reflexivity|].
    destruct (Split p ".") as [|q qs] eqn:E; [|reflexivity].
    exfalso. exact (Split_nonempty _ _ E).
Qed.

Lemma joinName_prefixed p x : p <> "" -> joinName p x = p +:+ "." +:+ x.
Proof.
  intros Hp. unfold joinName. apply Str_is_empty_false in Hp. rewrite Hp. reflexivity.
Qed.

Lemma Split_joinAll segs :
  Forall (fun x => dotfree x = true /\ x <> "") segs ->
  forall p, p <> "" -> Split (joinAll p segs) "." = Split p "." ++ segs.
Proof.
  induction 1 as [|x xs [Hx Hne] _ IH]; intros p Hp; cbn [joinAll fold_left].
  - rewrite app_nil_r. reflexivity.
  - fold (joinAll (joinName p x) xs). rewrite joinName_prefixed by exact Hp.
    rewrite IH by (apply append_nonempty, Hp).
    rewrite Split_snoc by exact Hx. rewrite <- app_assoc. reflexivity.
Qed.

Lemma Split_joinAll_root segs :
  segs <> [] ->
  Forall (fun x => dotfree x = true /\ x <> "") segs ->
  Split (joinAll "" segs) "." = segs.
Proof.
  intros Hne Hall. destruct Hall as [|x xs [Hx Hxne] Hxs]; [contradiction|].
  cbn [joinAll fold_left]. fold (joinAll (joinName "" x) xs).
  change (joinName "" x) with x.
  rewrite Split_joinAll by assumption. rewrite (Split_dotfree _ Hx). reflexivity.
Qed.

Lemma splitLast_snoc l (a : string) : splitLast (l ++ [a]) = Some (l, a).
Proof.
  induction l as [|x l IH]; [reflexivity|].
  cbn [app splitLast]. rewrite IH.
  destruct (l ++ [a]) eqn:E; [destruct l; discriminate | reflexivity].
Qed.

Lemma tagName_nonempty field : Name field <> "" -> tagName field <> "".
Proof.
  intros Hname. unfold tagName.
  destruct (Str.is_empty (Tag_yaml field)); cbn [negb]; [exact Hname|].
  destruct (Str.is_empty (parts0 (Tag_yaml field))) eqn:E; cbn [negb]; [exact Hname|].
  apply Str_is_empty_false, E.
Qed.

Section FlagPaths.
Context (lib : GoLib).

Lemma flagAt_path pos :
  forall t prefix n k,
    flagAt t pos prefix = Some (n, k) ->
    resolvesAt lib t pos = true ->
    exists segs last,
      n = joinAll prefix (segs ++ [last])
      /\ Forall (fun x => dotfree x = true /\ x <> "") (segs ++ [last])
      /\ pathTarget lib t segs last = Some (pos, k).
Proof.
  induction pos as [|i pos IH]; intros t prefix n k Hflag Hres;
    [destruct t; discriminate|].
  destruct t as [| |name fields]; try discriminate Hflag.
  cbn [flagAt resolvesAt] in Hflag, Hres.
  destruct (fields !! i) as [[field ft]|] eqn:Hfi; [|discriminate].
  destruct (IsExported field) eqn:Hexp; [|discriminate].
  apply andb_prop in Hres as [Hres Hsub]. apply andb_prop in Hres as [Hres Hby].
  apply andb_prop in Hres as [Hres Hfind]. apply andb_prop in Hres as [Hname Hdot].
  apply negb_true_iff in Hname. apply Str_eqb_eq in Hfind.
  apply bool_decide_eq_true in Hby.
  assert (Hgood : dotfree (tagName field) = true /\ tagName field <> "").
  { split; [exact Hdot|]. apply tagName_nonempty, Str_is_empty_false, Hname. }
  assert (Hdown : forall et,
             (ft = TPtr et \/ (ft = et /\ exists sn sf, et = TStruct sn sf)) ->
             flagAt et pos (joinName prefix (tagName field)) = Some (n, k) ->
             resolvesAt lib et pos = true ->
             exists segs last,
               n = joinAll prefix (segs ++ [last])
               /\ Forall (fun x => dotfree x = true /\ x <> "") (segs ++ [last])
               /\ pathTarget lib (TStruct name fields) segs last = Some (i :: pos, k)).
  { intros et Hft Hf Hr.
    destruct (IH et _ n k Hf Hr) as (segs & last & -> & Hall & Hpath).
    exists (tagName field :: segs), last. split; [reflexivity|].
    split; [constructor; assumption|].
    cbn [pathTarget]. rewrite Hfind, Hname, Hby. cbn [mbind option_bind].
    rewrite Hfi. cbn [mbind option_bind].
    destruct Hft as [->|[-> (sn & sf & ->)]]; rewrite Hpath; reflexivity. }
  destruct ft as [k0|elem|sname sfields].
  - destruct pos; [|discriminate].
    destruct (supported k0) eqn:Hk; [|discriminate]. injection Hflag as <- <-.
    exists [], (tagName field). split; [reflexivity|].
    split; [constructor; [exact Hgood | constructor]|].
    cbn [pathTarget]. rewrite Hfind, Hname, Hby. cbn [mbind option_bind].
    rewrite Hfi. cbn [mbind option_bind]. rewrite Hexp, Hk. reflexivity.
  - destruct pos as [|j pos']; [discriminate|]. apply (Hdown elem); auto.
  - destruct pos as [|j pos']; [discriminate|]. apply (Hdown (TStruct sname sfields)); eauto.
Qed.

(** X11.  The name of a leaf's flag is a path to the leaf: split at
    its dots and navigated as [setValueByPath] does, it resolves to
    the position of that leaf, provided every field on the way has a
    segment without a dot and is the field its own segment resolves
    to. *)
Theorem flag_name_is_path t pos n k :
  flagAt t pos "" = Some (n, k) ->
  resolvesAt lib t pos = true ->
  exists front lastSegment,
    splitLast (Split n ".") = Some (front, lastSegment)
    /\ pathTarget lib t front lastSegment = Some (pos, k).
Proof.
  intros Hflag Hres.
  destruct (flagAt_path _ _ _ _ _ Hflag Hres) as (segs & last & -> & Hall & Hpath).
  exists segs, last. split; [|exact Hpath].
  rewrite Split_joinAll_root by (try exact Hall; destruct segs; discriminate).
  apply splitLast_snoc.
Qed.

End FlagPaths.

(** ** Integers of a narrow kind *)

Lemma ParseInt_range value n :
  ParseInt value = Some n -> (- 2 ^ 63 <= n <= 2 ^ 63 - 1)%Z.
Proof.
  unfold ParseInt.
  destruct (match value with
            | String "-" r => (true, r)
            | String "+" r => (false, r)
            | _ => (false, value)
            end) as [neg body].
  destruct (Str.is_empty body); [discriminate|].
  destruct (digits_value 0 body) as [m|]; [|discriminate].
  destruct (_ && _)%bool eqn:E; [|discriminate].
  intros [= <-]. apply andb_prop in E as [E1 E2]. lia.
Qed.

Lemma wrap_range bits x :
  (0 < bits)%Z ->
  (- 2 ^ (bits - 1) <= wrap bits x < 2 ^ (bits - 1))%Z
  /\ ((wrap bits x - x) mod 2 ^ bits = 0)%Z
  /\ ((- 2 ^ (bits - 1) <= x < 2 ^ (bits - 1))%Z -> wrap bits x = x).
Proof.
  intros Hb. unfold wrap.
  assert (Hpow : (2 ^ bits = 2 * 2 ^ (bits - 1))%Z).
  { replace bits with (Z.succ (bits - 1)) at 1 by lia. apply Z.pow_succ_r. lia. }
  assert (Hpos : (0 < 2 ^ (bits - 1))%Z) by (apply Z.pow_pos_nonneg; lia).
  pose proof (Z.mod_pos_bound (x + 2 ^ (bits - 1)) (2 ^ bits) ltac:(lia)) as Hm.
  split; [lia|]. split.
  - pose proof (Zmod_eq_full (x + 2 ^ (bits - 1)) (2 ^ bits) ltac:(lia)) as Heq.
    replace ((x + 2 ^ (bits - 1)) mod 2 ^ bits - 2 ^ (bits - 1) - x)%Z
      with ((- ((x + 2 ^ (bits - 1)) / 2 ^ bits)) * 2 ^ bits)%Z by lia.
    apply Z_mod_mult.
  - intros Hx. rewrite Z.mod_small by lia. lia.
Qed.

Section Narrow.
Context (lib : GoLib).

(** X12.  An integer assigned by path is stored at the width of its
    field without any check of its range: the text is parsed as a
    64-bit integer and the leaf gets that number reduced modulo two to
    the width into the range of the kind -- the number itself when it
    fits -- and no diagnostic is written. *)
Theorem integer_assigned_by_path_wraps t a v path value s obj' s' front lastSegment pos k y n :
  has_type t v = true ->
  setValueByPath lib (TPtr t, VPtr (Some (a, v))) path value s = Ok (obj', s') ->
  splitLast (Split path ".") = Some (front, lastSegment) ->
  pathTarget lib t front lastSegment = Some (pos, k) ->
  is_int k = true ->
  getLeaf t v pos = Some (k, y) ->
  ParseInt value = Some n ->
  exists v' m,
    obj' = VPtr (Some (a, v'))
    /\ getLeaf t v' pos = Some (k, VInt m)
    /\ (- 2 ^ (bitSize k - 1) <= m < 2 ^ (bitSize k - 1))%Z
    /\ ((m - n) mod 2 ^ bitSize k = 0)%Z
    /\ ((- 2 ^ (bitSize k - 1) <= n < 2 ^ (bitSize k - 1))%Z -> m = n)
    /\ stderr s' = stderr s.
Proof.
  intros Hty Hrun Hsplit Hpath Hint Hleaf Hparse.
  cbn [setValueByPath] in Hrun.
  apply bind_Ok in Hrun. destruct Hrun as (v' & s1 & Hrun & Hret).
  apply ret_Ok in Hret. destruct Hret as [-> <-].
  assert (Hconv : convert lib k value = Some (SetInt k n)).
  { destruct k; try discriminate Hint; cbn [convert]; rewrite Hparse; reflexivity. }
  assert (Hasg : assignment lib t front lastSegment value = Some (pos, SetInt k n)).
  { unfold assignment. rewrite Hpath. cbn [mbind option_bind fst snd].
    rewrite Hconv. reflexivity. }
  pose proof (setValueByPath_from_assigned lib _ _ _ _ _ _ _ _ Hty Hrun) as Hch.
  pose proof (as_leaf _ _ _ _ _ _ _ Hch eq_refl _ _ _ Hleaf) as Hleaves.
  rewrite Hsplit in Hleaves. cbn [mbind option_bind fst snd] in Hleaves.
  rewrite Hasg in Hleaves. cbn [assignedAt] in Hleaves.
  rewrite bool_decide_eq_true_2 in Hleaves by reflexivity.
  assert (Hrep : stderr s' = stderr s).
  { unfold setValueByPath_from in Hrun. rewrite Hsplit in Hrun.
    pose proof (setValueByPath_elem_reports lib _ _ _ _ _ _ _ _ _ Hty Hrun) as H.
    rewrite Hasg in H. exact H. }
  pose proof (ParseInt_range _ _ Hparse) as Hn.
  assert (Hm : exists m,
             SetInt k n = VInt m
             /\ (- 2 ^ (bitSize k - 1) <= m < 2 ^ (bitSize k - 1))%Z
             /\ ((m - n) mod 2 ^ bitSize k = 0)%Z
             /\ ((- 2 ^ (bitSize k - 1) <= n < 2 ^ (bitSize k - 1))%Z -> m = n)).
  { destruct k; try discriminate Hint; cbn [SetInt bitSize];
      first [ eexists; split; [reflexivity|]; apply wrap_range; lia
            | exists n; split; [reflexivity|];
              rewrite Z.sub_diag; cbn; split; [lia | auto] ]. }
  destruct Hm as (m & Hset & Hrange & Hmod & Hfit).
  exists v', m. rewrite Hset in Hleaves. auto 10.
Qed.

End Narrow.

(** ** The diagnostics of a call *)

Section Diagnostics.
Context (lib : GoLib) (env : Environ) (w : World).

Lemma fromEnvPair_reports t v pair_ s v' s' :
  has_type t v = true ->
  fromEnvPair lib env t v true pair_ s = Ok (v', s') ->
  reported (pairAssigns lib env t pair_) s s'.
Proof.
  intros Hty Hrun. unfold fromEnvPair, pairAssigns in *.
  destruct (Nat.eqb (length (SplitN2 pair_ "::")) 2); cbn [negb] in Hrun.
  2:{ inv_run. apply reported_log. }
  destruct (Str.is_empty _).
  { inv_run. apply reported_log. }
  unfold setValueByPath_from in Hrun.
  destruct (splitLast _) as [[front lastSegment]|]; cbn [mbind option_bind fst snd].
  - eapply setValueByPath_elem_reports; eauto.
  - inv_run. apply reported_log.
Qed.

Lemma fromEnvPairs_reports pairs :
  forall t v s v' s',
    has_type t v = true ->
    fromEnvPairs lib env t v true pairs s = Ok (v', s') ->
    exists l, stderr s' = stderr s ++ l
              /\ length l = length (unassigned lib env t pairs).
Proof.
  induction pairs as [|pair_ rest IH]; intros t v s v' s' Hty Hrun.
  { cbn in Hrun. inv_run. exists []. rewrite app_nil_r. auto. }
  cbn [fromEnvPairs] in Hrun.
  apply bind_Ok in Hrun. destruct Hrun as (v1 & s1 & Hpair & Hrest).
  pose proof (fromEnvPair_reports _ _ _ _ _ _ Hty Hpair) as Hrep.
  apply fromEnvPair_assigned in Hpair; [|exact Hty].
  destruct (IH _ _ _ _ _ (as_type _ _ _ _ _ _ _ Hpair) Hrest) as (l & Hl & Hlen).
  unfold unassigned. rewrite filter_cons.
  destruct (pairAssigns lib env t pair_) as [a|]; cbn [reported] in Hrep.
  - rewrite decide_False by discriminate. exists l. rewrite Hl, Hrep. auto.
  - rewrite decide_True by reflexivity. destruct Hrep as [d Hd].
    exists (d :: l). rewrite Hl, Hd, <- app_assoc. split; [reflexivity|].
    simpl. f_equal. exact Hlen.
Qed.

Lemma applyFlagOverrides_elem_reports t v s v' s' :
  has_type t v = true ->
  named t = true ->
  applyFlagOverrides_elem lib env t v true "" s = Ok (v', s') ->
  exists l, stderr s' = stderr s ++ l
            /\ length l = length (unassigned lib env t (fromEnvOf (flags s))).
Proof.
  intros Hty Hnamed Hrun. rewrite applyFlagOverrides_elem_unfold in Hrun.
  apply bind_Ok in Hrun. destruct Hrun as (cmd & s0 & Hget & Hrun).
  rewrite get_flags_Ok in Hget. injection Hget as <- <-.
  apply bind_Ok in Hrun. destruct Hrun as (v1 & s1 & Hphase & Hrun).
  assert (Hl : exists l, stderr s1 = stderr s ++ l
                         /\ length l = length (unassigned lib env t (fromEnvOf (flags s)))
                         /\ flags s1 = flags s).
  { unfold fromEnvOf. cbn [Str.is_empty andb] in Hphase.
    destruct (pflag.IsChanged (flags s) "from-env").
    - destruct (fromEnvPairs_reports _ _ _ _ _ _ Hty Hphase) as (l & Hl & Hlen).
      exists l. split; [exact Hl|]. split; [exact Hlen|].
      apply fromEnvPairs_changed in Hphase; [|exact Hty]. apply Hphase.
    - inv_run. exists []. rewrite app_nil_r. auto. }
  destruct Hl as (l & Hl & Hlen & Hflags). exists l. split; [|exact Hlen].
  destruct t as [k|elem|name fields]; [inv_run; exact Hl..|].
  destruct v1 as [| | | | | |vals]; try discriminate Hrun.
  apply bind_Ok in Hrun. destruct Hrun as (vals' & s2 & Hfields & Hret).
  apply ret_Ok in Hret. destruct Hret as [-> ->].
  apply applyFlagOverrides_fields_silent in Hfields.
  - destruct Hfields as [-> _]. exact Hl.
  - apply Forall_forall. intros ft _.
    split; [|intros elem _]; apply applyFlagOverrides_elem_silent.
  - right. exact Hnamed.
Qed.

(** X13.  The diagnostics of a call of [New] that returns without
    error are those of the [--from-env] entries: one for every entry
    that assigns nothing -- malformed, with a variable that is unset
    or empty, with a path that does not lead to a leaf, or with a
    value that does not convert -- and none for an entry that
    assigns, for a flag, for the file or for registration. *)
Theorem New_diagnostics t a v0 s r s' a' v cmd :
  named t = true ->
  beforeOverrides w (TPtr t, VPtr (Some (a, v0))) s = Some (VPtr (Some (a', v)), cmd) ->
  has_type t v = true ->
  New lib env w (TPtr t, VPtr (Some (a, v0))) s = Ok (r, s') ->
  exists l,
    stderr s' = stderr s ++ l
    /\ length l = length (unassigned lib env t (fromEnvOf cmd)).
Proof.
  intros Hnamed Hbefore Hty. rewrite New_unfold. unfold beforeOverrides in Hbefore.
  destruct (registerFlags _ "" (fresh s)) as [[obj1 s1]|] eqn:Hreg; [|discriminate].
  destruct (Execute w (flags s1)) as [e|cmd'] eqn:Hexec; [discriminate|].
  destruct (filePhase w _ cmd' obj1) as [obj2 [e|]] eqn:Hfile; [discriminate|].
  injection Hbefore as -> ->.
  assert (Hs1 : stderr s1 = stderr s).
  { unfold registerFlags in Hreg.
    apply bind_Ok in Hreg. destruct Hreg as (v1 & s1' & Hreg & Hret).
    apply ret_Ok in Hret. destruct Hret as [-> <-].
    apply registerFlags_elem_registered in Hreg.
    apply (reg_stderr _ _ _ _ _ _ _ Hreg). }
  cbn [fst]. unfold applyFlagOverrides.
  destruct (applyFlagOverrides_elem lib env t v true "" (with_flags cmd s1))
    as [[v' s2]|] eqn:Hwalk.
  2:{ unfold mbind, M_bind. rewrite Hwalk. discriminate. }
  rewrite (bind_Ok_intro _ _ _ _ _ Hwalk). intros [= <- <-].
  destruct (applyFlagOverrides_elem_reports _ _ _ _ _ Hty Hnamed Hwalk) as (l & Hl & Hlen).
  exists l. cbn [stderr flags with_flags] in Hl, Hlen. rewrite Hl, Hs1. auto.
Qed.

End Diagnostics.

(** ** Registration on an object that is complete *)

Lemma registerFlags_elem_allocated t : registerFlags_elem_keeps t.
Proof.
  induction t as [k|elem IH|name fields IH] using Ty_walk_ind;
    intros v canAddr prefix s v' s' Hall Hrun.
  - cbn in Hrun. inv_run. auto.
  - cbn in Hrun. inv_run. auto.
  - destruct v as [| | | | | |vals]; try discriminate Hrun.
    rewrite registerFlags_elem_struct in Hrun.
    apply bind_Ok in Hrun. destruct Hrun as (vals' & s1 & Hfields & Hret).
    apply ret_Ok in Hret. destruct Hret as [-> <-].
    enough (H : vals' = vals /\ next s' = next s) by (destruct H as [-> ->]; auto).
    revert vals s vals' s' Hall Hfields.
    induction IH as [|[field ft] fs [Hft Helem] _ IHfs];
      intros vals s vals' s2 Hall Hfields.
    + destruct vals; [|discriminate]. cbn in Hfields. inv_run. auto.
    + destruct vals as [|x vals]; [discriminate|].
      apply forFields_cons_Ok in Hfields.
      destruct Hfields as (x' & s1 & rest & Hbody & Hrest & ->).
      rewrite all_allocated_struct_cons in Hall. apply andb_prop in Hall as [Hx Hvals].
      cbn [snd] in Hft, Helem.
      assert (Hhead : x' = x /\ next s1 = next s).
      { unfold registerFlags_field in Hbody.
        destruct (IsExported field) eqn:Hexp; cbn [negb] in Hbody; [|inv_run; auto].
        destruct ft as [k|elem|sname sfields].
        - clear Hx. destruct k, x; cbv beta iota in Hbody;
            first [ discriminate Hbody
                  | apply ret_Ok in Hbody; destruct Hbody as [-> ->]; split; reflexivity
                  | apply bind_Ok in Hbody; destruct Hbody as ([] & st & Hadd & Hbody);
                    apply AddFlag_Ok in Hadd; destruct Hadd as [_ ->];
                    apply ret_Ok in Hbody; destruct Hbody as [-> ->];
                    split; reflexivity ].
        - destruct x as [| | | | |[[a0 x0]|]|]; try discriminate Hx.
          cbv beta iota zeta in Hbody.
          erewrite bind_Ok_intro in Hbody by reflexivity. cbv beta iota in Hbody.
          apply bind_Ok in Hbody. destruct Hbody as (y & st & Hrec & Hret).
          apply ret_Ok in Hret. destruct Hret as [-> ->].
          destruct (Helem elem eq_refl _ _ _ _ _ _ Hx Hrec) as [-> ->]. auto.
        - destruct x; try discriminate Hbody.
          destruct canAddr; [|discriminate Hbody].
          apply (Hft _ _ _ _ _ _ Hx Hbody). }
      destruct Hhead as [-> Hn1].
      destruct (IHfs _ _ _ _ Hvals Hrest) as [-> Hn2].
      split; [reflexivity | congruence].
Qed.

(** X14.  Registration only completes an object: on an object whose
    exported pointers within reach are all allocated it allocates
    nothing and returns the object as it was. *)
Theorem registerFlags_keeps_complete_object t a v prefix s obj' s' :
  all_allocated t v = true ->
  registerFlags (TPtr t, VPtr (Some (a, v))) prefix s = Ok (obj', s') ->
  obj' = VPtr (Some (a, v)) /\ next s' = next s /\ stderr s' = stderr s.
Proof.
  intros Hall Hrun. unfold registerFlags in Hrun.
  apply bind_Ok in Hrun. destruct Hrun as (v' & s1 & Hrun & Hret).
  apply ret_Ok in Hret. destruct Hret as [-> <-].
  destruct (registerFlags_elem_allocated _ _ _ _ _ _ _ Hall Hrun) as [-> Hn].
  split; [reflexivity|]. split; [exact Hn|].
  apply registerFlags_elem_registered in Hrun. apply Hrun.
Qed.

(** ** How much an assignment by path allocates *)

Section Bound.
Context (lib : GoLib).

Lemma setTarget_next lastSegment path value t v canAddr s v' s' :
  setTarget lib lastSegment path value t v canAddr s = Ok (v', s') ->
  next s' = next s.
Proof.
  intros Hrun. unfold setTarget in Hrun.
  apply bind_Ok in Hrun. destruct Hrun as (fieldName & s0 & Hfind & Hrun).
  destruct t as [k|elem|name fields]; try discriminate Hfind.
  cbn in Hfind. apply ret_Ok in Hfind. destruct Hfind as [-> ->].
  destruct (Str.is_empty _); [inv_run; reflexivity|].
  destruct v as [| | | | | |vals]; try discriminate Hrun.
  destruct (FieldByName _ _) as [i|]; [|inv_run; reflexivity].
  destruct (fields !! i) as [[field ft]|]; [|discriminate Hrun].
  destruct (vals !! i); [|discriminate Hrun].
  destruct (negb _); [inv_run; reflexivity|].
  destruct ft as [k| |]; [|inv_run; reflexivity..].
  destruct k; try (inv_run; reflexivity);
    match type of Hrun with
    | context [match ?p with Some _ => _ | None => _ end] => destruct p
    end; inv_run; reflexivity.
Qed.

Lemma setValueByPath_elem_next front :
  forall lastSegment path value t v canAddr s v' s',
    setValueByPath_elem lib front lastSegment path value t v canAddr s = Ok (v', s') ->
    (next s <= next s' <= next s + length front)%nat.
Proof.
  induction front as [|segment front IH];
    intros lastSegment path value t v canAddr s v' s' Hrun.
  { apply setTarget_next in Hrun. simpl. lia. }
  cbn [setValueByPath_elem length] in *.
  destruct t as [k|elem|name fields]; [destruct v; inv_run; simpl; lia..|].
  destruct v as [| | | | | |vals]; try discriminate Hrun.
  destruct (Str.is_empty _); [inv_run; simpl; lia|].
  destruct (FieldByName _ _) as [i|]; [|inv_run; simpl; lia].
  destruct (fields !! i) as [[field ft]|]; [|discriminate Hrun].
  destruct (vals !! i) as [fv|]; [|discriminate Hrun].
  destruct ft as [k|elem|sname sfields].
  - destruct fv; inv_run; simpl; lia.
  - destruct fv as [| | | | |target|]; try discriminate Hrun.
    destruct (IsExported field); [|discriminate Hrun]. cbn [negb] in Hrun.
    apply bind_Ok in Hrun. destruct Hrun as ([a x0] & s0 & Halloc & Hrun).
    apply bind_Ok in Hrun. destruct Hrun as (x' & s1 & Hrec & Hret).
    apply ret_Ok in Hret. destruct Hret as [-> <-]. cbn [fst snd] in *.
    apply IH in Hrec.
    assert (Hs0 : (next s <= next s0 <= S (next s))%nat).
    { destruct target as [[a1 x1]|].
      - inv_run. lia.
      - destruct canAddr; [|discriminate Halloc].
        apply reflect_New_Ok in Halloc. destruct Halloc as [_ ->]. simpl. lia. }
    lia.
  - destruct (negb canAddr); [discriminate Hrun|].
    destruct (negb (IsExported field)); [discriminate Hrun|].
    apply bind_Ok in Hrun. destruct Hrun as (x' & s1 & Hrec & Hret).
    apply ret_Ok in Hret. destruct Hret as [-> <-].
    apply IH in Hrec. lia.
Qed.

(** X15.  An assignment by path allocates at most one object for each
    segment before the last: with a path of [n] segments, at most
    [n - 1] calls of [reflect.New], whether it assigns or not. *)
Theorem setValueByPath_allocates_at_most T obj path value s obj' s' :
  setValueByPath lib (T, obj) path value s = Ok (obj', s') ->
  (next s <= next s' <= next s + (length (Split path ".") - 1))%nat.
Proof.
  assert (Hlast : forall segs front (lastSegment : string),
             splitLast segs = Some (front, lastSegment) ->
             length front = (length segs - 1)%nat).
  { induction segs as [|x segs IH]; intros front lastSegment; [discriminate|].
    cbn [splitLast]. destruct segs as [|y segs]; [intros [= <- <-]; reflexivity|].
    destruct (splitLast (y :: segs)) as [[f l]|]; [|discriminate].
    intros [= <- <-]. pose proof (IH f l eq_refl) as H. simpl in *. lia. }
  assert (Hfrom : forall t v c v1 s1,
             setValueByPath_from lib t v c path value s = Ok (v1, s1) ->
             (next s <= next s1 <= next s + (length (Split path ".") - 1))%nat).
  { intros t v c v1 s1 Hrun. unfold setValueByPath_from in Hrun.
    destruct (splitLast (Split path ".")) as [[front lastSegment]|] eqn:E.
    - rewrite <- (Hlast _ _ _ E). eapply setValueByPath_elem_next, Hrun.
    - inv_run. simpl. lia. }
  unfold setValueByPath. intros Hrun.
  destruct T as [k|t|name fields]; eauto.
  destruct obj as [| | | | |[[a v]|]|]; try discriminate Hrun.
  - apply bind_Ok in Hrun. destruct Hrun as (v' & s1 & Hrun & Hret).
    apply ret_Ok in Hret. destruct Hret as [-> <-]. eauto.
  - destruct (splitLast _) as [[[|seg front] lastSegment]|]; inv_run; simpl; lia.
Qed.

End Bound.

(** ** The further properties at work on the example *)

(** An unknown flag on the command line. *)
Lemma New_error_cases_example :
  exists r s',
    New ascii_lib Example.environ (Example.world [("nope", pflag.BoolValue true)])
      Example.cfg Example.start = Ok (r, s')
    /\ err r = Some "unknown flag: --nope"
    /\ result r = None.
Proof.
  eexists _, _. split; [vm_compute; reflexivity|]. split; [reflexivity|].
  match goal with
  | |- result ?r = None =>
      pose proof (New_error_cases ascii_lib Example.environ
                    (Example.world [("nope", pflag.BoolValue true)])
                    Example.cfg Example.start r _ ltac:(vm_compute; reflexivity)) as H
  end.
  exact (proj1 H).
Defined.

(** [server.port] from [MY_PORT=8000], and from [WORD=yes], which is
    no number. *)
Lemma setValueByPath_assigns_or_reports_example :
  let t := Example.Config in
  let v := zero Example.Config in
  let s := Example.start in
  has_type t v = true
  /\ (exists obj' s' v',
         setValueByPath ascii_lib (TPtr t, VPtr (Some (O, v))) "server.port" "8000" s
         = Ok (obj', s')
         /\ obj' = VPtr (Some (O, v'))
         /\ getLeaf t v' [O; 1%nat] = Some (Kind.Int, VInt 8000)
         /\ getLeaf t v' [O; O] = Some (Kind.String, VString "")
         /\ stderr s' = stderr s)
  /\ (exists obj' s' v',
         setValueByPath ascii_lib (TPtr t, VPtr (Some (O, v))) "server.port" "yes" s
         = Ok (obj', s')
         /\ obj' = VPtr (Some (O, v'))
         /\ getLeaf t v' [O; 1%nat] = Some (Kind.Int, VInt 0)
         /\ exists d, stderr s' = stderr s ++ [d]).
Proof.
  intros t v s. split; [vm_compute; reflexivity|]. split.
  - eexists _, _, _. split; [vm_compute; reflexivity|].
    match goal with
    | |- ?obj = _ /\ _ =>
        destruct (setValueByPath_assigns_or_reports ascii_lib t O v "server.port" "8000" s
                    obj _ ltac:(vm_compute; reflexivity) ltac:(vm_compute; reflexivity))
          as (v' & Hobj & _ & Hleaves & Hrep)
    end.
    injection Hobj as <-. split; [reflexivity|].
    split; [exact (Hleaves [O; 1%nat] Kind.Int (VInt 0) ltac:(vm_compute; reflexivity))|].
    split; [exact (Hleaves [O; O] Kind.String (VString "") ltac:(vm_compute; reflexivity))|].
    exact Hrep.
  - eexists _, _, _. split; [vm_compute; reflexivity|].
    match goal with
    | |- ?obj = _ /\ _ =>
        destruct (setValueByPath_assigns_or_reports ascii_lib t O v "server.port" "yes" s
                    obj _ ltac:(vm_compute; reflexivity) ltac:(vm_compute; reflexivity))
          as (v' & Hobj & _ & Hleaves & Hrep)
    end.
    injection Hobj as <-. split; [reflexivity|].
    split; [exact (Hleaves [O; 1%nat] Kind.Int (VInt 0) ltac:(vm_compute; reflexivity))|].
    exact Hrep.
Defined.

(** Three entries, of which the first two assign [Server.Host]. *)
Lemma last_entry_wins_example :
  let t := Example.Config in
  let v := zero Example.Config in
  let s := Example.start in
  exists v' s',
    fromEnvPairs ascii_lib Example.environ t v true
      (["server.host::HOME"] ++ "server.host::WORD" :: ["server.port::MY_PORT"]) s
    = Ok (v', s')
    /\ pairAssigns ascii_lib Example.environ t "server.host::WORD"
       = Some ([O; O], VString "yes")
    /\ getLeaf t v' [O; O] = Some (Kind.String, VString "yes").
Proof.
  intros t v s. eexists _, _. split; [vm_compute; reflexivity|].
  split; [vm_compute; reflexivity|].
  eapply (last_entry_wins ascii_lib Example.environ t v ["server.host::HOME"]
            "server.host::WORD" ["server.port::MY_PORT"] s).
  - vm_compute; reflexivity.
  - vm_compute; reflexivity.
  - vm_compute; reflexivity.
  - constructor; [|constructor]. intros x'. vm_compute. discriminate.
  - vm_compute; reflexivity.
Defined.

(** The flag of [Server.Port] set to 7000, no [--from-env]. *)
Lemma overrides_without_fromEnv_example :
  let s := {| flags := [ {| pflag.Name := "server.port"; pflag.Usage := "Set server.port";
                            pflag.Value := pflag.Int64Value 7000;
                            pflag.Changed := true |} ];
              stderr := []; next := 1 |} in
  exists obj' s',
    pflag.IsChanged (flags s) "from-env" = false
    /\ applyFlagOverrides ascii_lib Example.environ Example.cfg "" s = Ok (obj', s')
    /\ s' = s
    /\ live_ptrs obj' = live_ptrs (snd Example.cfg).
Proof.
  intros s. eexists _, _. split; [vm_compute; reflexivity|].
  split; [vm_compute; reflexivity|].
  apply (overrides_without_fromEnv ascii_lib Example.environ (fst Example.cfg)
           (snd Example.cfg) "" s); vm_compute; reflexivity.
Defined.

(** [--server.port 7000], no file. *)
Lemma New_returns_its_argument_example :
  let w := Example.world [("server.port", pflag.Int64Value 7000)] in
  exists r s' v',
    New ascii_lib Example.environ w Example.cfg Example.start = Ok (r, s')
    /\ object r = VPtr (Some (O, v'))
    /\ result r = Some (object r)
    /\ err r = None
    /\ evolves Example.Config (zero Example.Config) v'.
Proof.
  intros w. eexists _, _, _. split; [vm_compute; reflexivity|].
  split; [reflexivity|].
  match goal with
  | |- result ?r = _ /\ _ =>
      destruct (New_returns_its_argument ascii_lib Example.environ w Example.Config O
                  (zero Example.Config) Example.start r _ _ _
                  ltac:(vm_compute; reflexivity) ltac:(vm_compute; reflexivity)
                  ltac:(vm_compute; reflexivity) ltac:(vm_compute; reflexivity))
        as (v' & Hobj & Hres & Herr & Hev & _)
  end.
  injection Hobj as <-. auto.
Defined.


(** The names of the example are distinct. *)
Lemma registerFlags_returns_iff_names_distinct_example :
  let t := Example.Config in
  let v := zero Example.Config in
  let s := Example.start in
  has_type t v = true
  /\ NoDup (pflag.names (flags s))
  /\ ((NoDup (pflag.names (flags s) ++ pflag.names (leafFlags t v ""))
       /\ exists v' s',
           registerFlags (TPtr t, VPtr (Some (O, v))) "" s = Ok (VPtr (Some (O, v')), s'))
      \/ (~ NoDup (pflag.names (flags s) ++ pflag.names (leafFlags t v ""))
          /\ exists n,
              registerFlags (TPtr t, VPtr (Some (O, v))) "" s = Panic (FlagRedefined n)
              /\ n ∈ pflag.names (leafFlags t v ""))).
Proof.
  intros t v s. split; [vm_compute; reflexivity|]. split; [apply NoDup_nil_2|].
  apply (registerFlags_returns_iff_names_distinct t O v "" s);
    [vm_compute; reflexivity | apply NoDup_nil_2].
Defined.

(** A field tagged [yaml:"config"]. *)
Lemma New_panics_on_name_clash_example :
  let t := TStruct "Clash" [ (Example.exported "Path" "config", TBasic Kind.String) ] in
  has_type t (zero t) = true
  /\ ~ NoDup ("config" :: "from-env" :: pflag.names (leafFlags t (zero t) ""))
  /\ exists n,
      New ascii_lib Example.environ (Example.world []) (TPtr t, VPtr (Some (O, zero t)))
        Example.start = Panic (FlagRedefined n)
      /\ n ∈ pflag.names (leafFlags t (zero t) "").
Proof.
  intros t.
  assert (Hdup : ~ NoDup ("config" :: "from-env" :: pflag.names (leafFlags t (zero t) ""))).
  { refine (bool_decide_unpack _ _). vm_compute. exact I. }
  split; [vm_compute; reflexivity|]. split; [exact Hdup|].
  apply (New_panics_on_name_clash ascii_lib Example.environ (Example.world []) t O (zero t)
           Example.start); [vm_compute; reflexivity | exact Hdup].
Defined.

(** [Server] and [Optional] only: every pointer is to a struct. *)
Lemma New_never_panics_example :
  let t := TStruct "Service"
             [ (Example.exported "Server" "server", Example.Server);
               (Example.exported "Optional" "optional", TPtr Example.Optional) ] in
  let w := Example.world
             [("config", pflag.StringValue "config.yaml");
              ("from-env", pflag.StringSliceValue ["optional.feature.x::HOME"])] in
  is_struct t = true /\ navigable t = true /\ exported_by_name t = true
  /\ has_type t (zero t) = true
  /\ NoDup ("config" :: "from-env" :: pflag.names (leafFlags t (zero t) ""))
  /\ decoder_typed w t
  /\ exists r s',
      New ascii_lib Example.environ w (TPtr t, VPtr (Some (O, zero t))) Example.start
      = Ok (r, s').
Proof.
  intros t w.
  assert (Hnd : NoDup ("config" :: "from-env" :: pflag.names (leafFlags t (zero t) ""))).
  { refine (bool_decide_unpack _ _). vm_compute. exact I. }
  assert (Hdec : decoder_typed w t).
  { intros data a v obj' Hty Hun. cbn [Unmarshal w Example.world] in Hun.
    unfold Example.unmarshal in Hun. cbn [snd] in Hun.
    destruct v as [| | | | | |[|v1 rest]]; try discriminate Hun.
    destruct v1 as [| | | | | |[|x [|y [|z svals]]]]; try discriminate Hun.
    destruct (Str.eqb data Example.document); [|discriminate Hun].
    injection Hun as <-. eexists _, _. split; [reflexivity|].
    unfold t in Hty |- *. rewrite has_type_struct_cons in Hty |- *.
    apply andb_prop in Hty as [_ Hrest]. rewrite Hrest. reflexivity. }
  repeat (split; [first [vm_compute; reflexivity | exact Hnd | exact Hdec]|]).
  apply (New_never_panics ascii_lib Example.environ w t O (zero t) Example.start);
    first [vm_compute; reflexivity | exact Hnd | exact Hdec].
Defined.

(** [optional.feature] is the path of [Optional.Feature]. *)
Lemma flag_name_is_path_example :
  flagAt Example.Config [1%nat; O] "" = Some ("optional.feature", Kind.String)
  /\ resolvesAt ascii_lib Example.Config [1%nat; O] = true
  /\ exists front lastSegment,
      splitLast (Split "optional.feature" ".") = Some (front, lastSegment)
      /\ pathTarget ascii_lib Example.Config front lastSegment
         = Some ([1%nat; O], Kind.String).
Proof.
  split; [vm_compute; reflexivity|]. split; [vm_compute; reflexivity|].
  apply (flag_name_is_path ascii_lib Example.Config [1%nat; O] "optional.feature"
           Kind.String); vm_compute; reflexivity.
Defined.

(** 300 into an [int8]. *)
Lemma integer_assigned_by_path_wraps_example :
  let t := TStruct "Narrow" [ (Example.exported "Level" "level", TBasic Kind.Int8) ] in
  let v := zero t in
  let s := Example.start in
  exists obj' s',
    setValueByPath ascii_lib (TPtr t, VPtr (Some (O, v))) "level" "300" s = Ok (obj', s')
    /\ ParseInt "300" = Some 300%Z
    /\ exists v' m,
        obj' = VPtr (Some (O, v'))
        /\ getLeaf t v' [O] = Some (Kind.Int8, VInt m)
        /\ (- 2 ^ (bitSize Kind.Int8 - 1) <= m < 2 ^ (bitSize Kind.Int8 - 1))%Z
        /\ ((m - 300) mod 2 ^ bitSize Kind.Int8 = 0)%Z
        /\ ((- 2 ^ (bitSize Kind.Int8 - 1) <= 300 < 2 ^ (bitSize Kind.Int8 - 1))%Z
            -> m = 300%Z)
        /\ stderr s' = stderr s.
Proof.
  intros t v s. eexists _, _. split; [vm_compute; reflexivity|].
  split; [vm_compute; reflexivity|].
  eapply (integer_assigned_by_path_wraps ascii_lib t O v "level" "300" s _ _ [] "level"
            [O] Kind.Int8 (VInt 0) 300%Z); vm_compute; reflexivity.
Defined.

(** One malformed entry, one that assigns, one to an unknown field. *)
Lemma New_diagnostics_example :
  let w := Example.world
             [("from-env", pflag.StringSliceValue
                             ["onlyonepart"; "server.host::MY_HOST"; "server.nope::HOME"])] in
  exists r s' a' v cmd,
    named Example.Config = true
    /\ beforeOverrides w Example.cfg Example.start = Some (VPtr (Some (a', v)), cmd)
    /\ has_type Example.Config v = true
    /\ New ascii_lib Example.environ w Example.cfg Example.start = Ok (r, s')
    /\ length (unassigned ascii_lib Example.environ Example.Config (fromEnvOf cmd)) = 2%nat
    /\ exists l,
        stderr s' = stderr Example.start ++ l
        /\ length l
           = length (unassigned ascii_lib Example.environ Example.Config (fromEnvOf cmd)).
Proof.
  intros w. eexists _, _, _, _, _. split; [vm_compute; reflexivity|].
  split; [vm_compute; reflexivity|]. split; [vm_compute; reflexivity|].
  split; [vm_compute; reflexivity|]. split; [vm_compute; reflexivity|].
  eapply (New_diagnostics ascii_lib Example.environ w Example.Config O
            (zero Example.Config) Example.start); vm_compute; reflexivity.
Defined.

(** An object with [Optional] and [Timeout] allocated. *)
Lemma registerFlags_keeps_complete_object_example :
  let v := VStruct [ VStruct [VString "h"; VInt 1];
                     VPtr (Some (5%nat, VStruct [VString ""; VBool false]));
                     VPtr (Some (6%nat, VInt 0)); VString ""; VBool false ] in
  let s := Example.start in
  exists obj' s',
    all_allocated Example.Config v = true
    /\ registerFlags (TPtr Example.Config, VPtr (Some (O, v))) "" s = Ok (obj', s')
    /\ obj' = VPtr (Some (O, v)) /\ next s' = next s /\ stderr s' = stderr s.
Proof.
  intros v s. eexists _, _. split; [vm_compute; reflexivity|].
  split; [vm_compute; reflexivity|].
  apply (registerFlags_keeps_complete_object Example.Config O v "" s);
    vm_compute; reflexivity.
Defined.

(** [optional.enabled] on the zero object allocates [Optional]. *)
Lemma setValueByPath_allocates_at_most_example :
  let s := Example.start in
  exists obj' s',
    setValueByPath ascii_lib Example.cfg "optional.enabled" "true" s = Ok (obj', s')
    /\ (next s <= next s' <= next s + (length (Split "optional.enabled" ".") - 1))%nat.
Proof.
  intros s. eexists _, _. split; [vm_compute; reflexivity|].
  eapply (setValueByPath_allocates_at_most ascii_lib (fst Example.cfg) (snd Example.cfg)
            "optional.enabled" "true" s).
  vm_compute; reflexivity.
Defined.
